(** * mergemaster: the orchestration core of the coding agent

    A shallow embedding of the history pruner, the open-file cache, the undo
    command, the pending-approval registry, the iteration gate and the
    context summary of [src/agent_graph.ts], of the command module
    (waitForCommandCompletion and friends) and of the checkpoint store
    ([SqliteCheckpointSaver]), with the properties of the specification
    stated and proved over them.

    Conventions.
    - A JavaScript string is a Rocq [string]; [String.length] stands for
      the [.length] of the source (one character per code unit). The one
      character of the source's own texts that is no ASCII character, the
      horizontal ellipsis of the truncation markers, is one code unit there
      and the one character [ellipsis] here.
    - A JavaScript number that the code uses as a counter, a timestamp, a
      ceiling or a budget is a [Z]; the length of an array and an index
      into it are [nat].
    - [undefined] and absent properties are [None].
    - A call that may throw returns an [outcome]. *)

From stdpp Require Import base option list strings gmap pretty.
From Stdlib Require Import ZArith Ascii Sorted.

Local Open Scope Z_scope.

(** ** JavaScript helpers *)

(** [Array.prototype.slice(start, end)] with the relative-index rules of
    the language: a negative index counts from the end, and both ends are
    clamped to the array. [end = None] is an omitted argument. *)
Definition js_rel_index (len k : Z) : Z :=
  if k <? 0 then Z.max (len + k) 0 else Z.min k len.

Definition js_slice {A} (l : list A) (start : Z) (end_ : option Z) : list A :=
  let len := Z.of_nat (length l) in
  let k := js_rel_index len start in
  let final := match end_ with None => len | Some e => js_rel_index len e end in
  take (Z.to_nat (final - k)) (drop (Z.to_nat k) l).

(** [arr.join(sep)] on an array of strings. *)
Fixpoint join (sep : string) (l : list string) : string :=
  match l with
  | [] => ""
  | [x] => x
  | x :: rest => x +:+ sep +:+ join sep rest
  end.

(** [s.slice(0, n)] for [0 <= n]. *)
Fixpoint str_take (n : nat) (s : string) : string :=
  match n, s with
  | O, _ => ""
  | S n', String c s' => String c (str_take n' s')
  | S _, EmptyString => ""
  end.

Definition str_len (s : string) : Z := Z.of_nat (String.length s).

(** The horizontal ellipsis (U+2026) of the truncation markers: one code
    unit of the source, one character here. *)
Definition ellipsis : ascii := "133"%char.

(** ** Messages *)

(** A JSON value, for the [input] of a tool call. *)
#[warnings="-register-all"]
Inductive json :=
| JNull
| JBool (b : bool)
| JNum (z : Z)
| JStr (s : string)
| JArr (xs : list json)
| JObj (fields : list (string * json)).

Inductive block :=
| Text (text : string)
| ToolUse (id name : string) (input : json)
| ToolResult (tool_use_id content : string) (is_error : option bool).

Inductive role := user | assistant.

Inductive content :=
| CString (s : string)
| CBlocks (bs : list block).

Record message := Message { msg_role : role; msg_content : content }.

Definition role_str (r : role) : string :=
  match r with user => "user" | assistant => "assistant" end.

Definition block_type (b : block) : string :=
  match b with
  | Text _ => "text"
  | ToolUse _ _ _ => "tool_use"
  | ToolResult _ _ _ => "tool_result"
  end.

Definition is_tool_result (b : block) : bool :=
  match b with ToolResult _ _ _ => true | _ => false end.

Definition is_tool_use (b : block) : bool :=
  match b with ToolUse _ _ _ => true | _ => false end.

(** ** Token estimate *)

(** [collectStrings]: every string value anywhere in a value; the keys of
    an object are not values. *)
Fixpoint collectStrings (v : json) : list string :=
  match v with
  | JStr s => [s]
  | JArr xs => flat_map collectStrings xs
  | JObj fields => flat_map (fun kv => match kv with (_, x) => collectStrings x end) fields
  | _ => []
  end.

(** The same walk over a block object [{type, ...}]. *)
Definition collectStrings_block (b : block) : list string :=
  block_type b ::
  match b with
  | Text t => [t]
  | ToolUse i n inp => [i; n] ++ collectStrings inp
  | ToolResult i c _ => [i; c]
  end.

(** ... and over a message object [{role, content}]. *)
Definition collectStrings_message (m : message) : list string :=
  role_str (msg_role m) ::
  match msg_content m with
  | CString s => [s]
  | CBlocks bs => flat_map collectStrings_block bs
  end.

Definition ceil_div4 (n : Z) : Z := (n + 3) `div` 4.

Definition estimateTokensFromMessage (message : option message) : Z :=
  match message with
  | None => 0
  | Some m =>
      let overhead := 6 in
      let text := collectStrings_message m in
      let totalChars := foldl (fun sum piece => sum + str_len piece) 0 text in
      ceil_div4 totalChars + overhead
  end.

(** ** Archival summaries *)

Definition MAX_PROMPT_TOKEN_BUDGET : Z := 180000.
Definition MAX_TOOL_RESULT_CHARS : Z := 4000.

Definition truncateString (input : string) (charLimit : Z) : string :=
  if str_len input <=? charLimit then input
  else
    let truncated := str_take (Z.to_nat charLimit) input in
    truncated +:+ "
" +:+ String ellipsis (" (truncated " +:+ pretty (str_len input - charLimit)
                          +:+ " more characters)").

Definition block_text (b : block) : option string :=
  match b with Text t => Some t | _ => None end.

(** History messages carry [role] and [content] only, so the
    [message.tool_calls] branch of the source is never taken and a message
    that holds tool calls only has no summary. *)
Definition summarizeMessage (message : option message) : option string :=
  match message with
  | None => None
  | Some m =>
      let role := role_str (msg_role m) in
      match msg_content m with
      | CBlocks bs =>
          let toolBlocks := filter (fun b => is_tool_result b = true) bs in
          if negb (Nat.eqb (length toolBlocks) 0) then
            let toolSummaries :=
              omap (fun b =>
                match b with
                | ToolResult i c _ =>
                    Some (if negb (String.eqb i "")
                          then i +:+ ": " +:+ truncateString c 200
                          else truncateString c 200)
                | _ => None
                end) toolBlocks in
            Some ("Tool results (" +:+ pretty (length toolSummaries) +:+ "): "
                  +:+ join " | " toolSummaries)
          else
            let textBlocks := omap block_text bs in
            if negb (Nat.eqb (length textBlocks) 0) then
              Some (role +:+ ": " +:+ truncateString (join "
" textBlocks) 200)
            else None
      | CString s => Some (role +:+ ": " +:+ truncateString s 200)
      end
  end.

(** [const summary = summarizeMessage(msg); if (summary) archived.push(summary)] *)
Definition archive (archived : list string) (message : option message) : list string :=
  match summarizeMessage message with
  | Some s => if String.eqb s "" then archived else archived ++ [s]
  | None => archived
  end.

(** ** pruneMessages *)

(** The history is an array of message objects. An object is named by its
    position in the input array (the objects of a history are pairwise
    distinct), so the input array doubles as the store of the objects and
    the arrays built by the pruner hold positions. *)

Definition hasToolResults (msg : option message) : bool :=
  match msg with
  | Some (Message _ (CBlocks bs)) => existsb is_tool_result bs
  | _ => false
  end.

Definition hasToolUses (msg : option message) : bool :=
  match msg with
  | Some (Message _ (CBlocks bs)) => existsb is_tool_use bs
  | _ => false
  end.

Record scan_state := ScanState {
  selected : list nat;
  usedTokens : Z;
  archived : list string
}.

Definition skip (messages : list message) (st : scan_state) (i : nat) : scan_state :=
  ScanState (selected st) (usedTokens st) (archive (archived st) (messages !! i)).

Definition keep (messages : list message) (st : scan_state) (i : nat) : scan_state :=
  ScanState (selected st ++ [i])
            (usedTokens st + estimateTokensFromMessage (messages !! i))
            (archived st).

(** [hasToolResults(msg) && i > 1] for the message at index [i]. *)
Definition needsPreviousMessage (messages : list message) (i : nat) : bool :=
  hasToolResults (messages !! i) && bool_decide (1 < i)%nat.

(** The backward scan [for (let i = messages.length - 1; i >= 1; i--)].
    [scan ... i st] runs the loop from index [i] downwards. *)
Fixpoint scan (messages : list message) (maxMessages maxTokens : Z)
    (i : nat) (st : scan_state) : scan_state :=
  match i with
  | O => st
  | S i1 =>
      let msg := messages !! i in
      let tokens := estimateTokensFromMessage msg in
      let needsPrevious := needsPreviousMessage messages i in
      if (maxMessages - 1 <=? Z.of_nat (length (selected st))) && negb needsPrevious
      then scan messages maxMessages maxTokens i1 (skip messages st i)
      else if (maxTokens <? usedTokens st + tokens) && negb needsPrevious
      then scan messages maxMessages maxTokens i1 (skip messages st i)
      else
        let st1 := keep messages st i in
        if needsPrevious && negb (bool_decide (i1 ∈ selected st1))
        then
          let st2 := keep messages st1 i1 in
          match i1 with
          | O => st2
          | S i2 => scan messages maxMessages maxTokens i2 st2
          end
        else scan messages maxMessages maxTokens i1 st1
  end.

(** [msg.content = msg.content.filter(block => block?.type !== 'tool_result')] *)
Definition strip_tool_results (m : message) : message :=
  match msg_content m with
  | CBlocks bs => Message (msg_role m) (CBlocks (filter (fun b => is_tool_result b = false) bs))
  | CString _ => m
  end.

Definition content_length_is_zero (m : message) : bool :=
  match msg_content m with
  | CBlocks [] => true
  | _ => false
  end.

(** The forward repair pass [for (let i = 1; i < pruned.length; i++)]:
    [prev] is [pruned[i - 1]] and [rest] is [pruned[i..]]. A [splice]
    followed by [i--] leaves [prev] in place and moves on to the next
    element. The store is threaded through, because the pass writes to
    the message objects. *)
Fixpoint repair (h : list message) (prev : nat) (rest : list nat)
    : list message * list nat :=
  match rest with
  | [] => (h, [])
  | r :: rest' =>
      if hasToolResults (h !! r) && negb (hasToolUses (h !! prev)) then
        match h !! r with
        | Some m =>
            let m' := strip_tool_results m in
            let h' := <[r := m']> h in
            if content_length_is_zero m'
            then repair h' prev rest'
            else let '(h'', out) := repair h' r rest' in (h'', r :: out)
        | None => let '(h'', out) := repair h r rest' in (h'', r :: out)
        end
      else let '(h'', out) := repair h r rest' in (h'', r :: out)
  end.

Definition repair_pass (h : list message) (pruned : list nat)
    : list message * list nat :=
  match pruned with
  | [] => (h, [])
  | p0 :: rest => let '(h', out) := repair h p0 rest in (h', p0 :: out)
  end.

Record prune_result := PruneResult {
  prunedMessages : list nat;
  archivedSummaries : list string;
  store : list message
}.

(** The length-based trim: [if (pruned.length > maxMessages) { ... }]. The
    overflow is archived and the last [maxMessages] entries stay. *)
Definition trim_overflow (messages : list message) (maxMessages : Z)
    (pruned : list nat) (archived : list string) : list nat * list string :=
  let len := Z.of_nat (length pruned) in
  if maxMessages <? len then
    let overflow := js_slice pruned 0 (Some (len - maxMessages)) in
    (js_slice pruned (- maxMessages) None,
     foldl (fun a p => archive a (messages !! p)) archived overflow)
  else (pruned, archived).

Definition pruneMessages (messages : list message) (maxMessages maxTokens : Z)
    : prune_result :=
  if Nat.eqb (length messages) 0 then PruneResult [] [] messages
  else
    let firstMessage := 0%nat in
    let usedTokens0 := estimateTokensFromMessage (messages !! firstMessage) in
    if maxTokens <? usedTokens0 then PruneResult [firstMessage] [] messages
    else
      let st := scan messages maxMessages maxTokens (length messages - 1)
                     (ScanState [] usedTokens0 []) in
      let pruned := firstMessage :: reverse (selected st) in
      let '(pruned1, archived1) :=
        trim_overflow messages maxMessages pruned (archived st) in
      let '(h, pruned2) := repair_pass messages pruned1 in
      if maxMessages <? Z.of_nat (length pruned2)
      then PruneResult (js_slice pruned2 (- maxMessages) None) archived1 h
      else PruneResult pruned2 archived1 h.

(** The messages of the returned array, as the caller reads them. *)
Definition returned (r : prune_result) : list (option message) :=
  map (fun p => store r !! p) (prunedMessages r).

Definition pruneMessages_default (messages : list message) : prune_result :=
  pruneMessages messages 50 MAX_PROMPT_TOKEN_BUDGET.

(** ** Properties of a pruning result *)

(** [chain h prev l]: along [prev :: l], a message with tool results
    stands right after a message with tool uses. *)
Fixpoint chain (h : list message) (prev : nat) (l : list nat) : Prop :=
  match l with
  | [] => True
  | q :: l' =>
      (hasToolResults (h !! q) = true -> hasToolUses (h !! prev) = true)
      /\ chain h q l'
  end.

Definition adjacent_ok (h : list message) (l : list nat) : Prop :=
  forall i p q, l !! i = Some p -> l !! S i = Some q ->
    hasToolResults (h !! q) = true -> hasToolUses (h !! p) = true.

(** Strictly decreasing: the order in which the backward scan selects
    positions. *)
Definition descending (l : list nat) : Prop :=
  StronglySorted (fun a b => (b < a)%nat) l.

(** The list the trim and the repair pass start from. *)
Definition scanned (messages : list message) (maxMessages maxTokens : Z) : list nat :=
  selected (scan messages maxMessages maxTokens (length messages - 1)
              (ScanState [] (estimateTokensFromMessage (messages !! 0%nat)) [])).

Definition trimmed (messages : list message) (maxMessages maxTokens : Z) : list nat :=
  let st := scan messages maxMessages maxTokens (length messages - 1)
              (ScanState [] (estimateTokensFromMessage (messages !! 0%nat)) []) in
  (trim_overflow messages maxMessages (0%nat :: reverse (selected st)) (archived st)).1.


(** ** Sample histories *)

Definition plain (s : string) : message := Message user (CString s).

Definition call_message (id : string) : message :=
  Message assistant (CBlocks [ToolUse id "read_file" (JObj [("file_path", JStr "a.ts")])]).

Definition answer_message (id : string) : message :=
  Message user (CBlocks [ToolResult id "ok" None]).

(** A task followed by [k] rounds of tool call and tool answer, the shape
    the agent loop produces. *)
Definition agent_history (k : nat) : list message :=
  plain "task" ::
  flat_map (fun n => [call_message ("t" +:+ pretty n); answer_message ("t" +:+ pretty n)])
           (seq 1 k).

(** A tool round followed by [n] plain messages. *)
Definition straddle_history (n : nat) : list message :=
  [plain "task"; call_message "t1"; answer_message "t1"] ++ replicate n (plain "p").

Definition tool_result_ids (m : option message) : list string :=
  match m with
  | Some (Message _ (CBlocks bs)) =>
      omap (fun b => match b with ToolResult i _ _ => Some i | _ => None end) bs
  | _ => []
  end.

Definition tool_use_ids (m : option message) : list string :=
  match m with
  | Some (Message _ (CBlocks bs)) =>
      omap (fun b => match b with ToolUse i _ _ => Some i | _ => None end) bs
  | _ => []
  end.

(** The adjacency invariant with matching ids, for a list of messages. *)
Definition matched_adjacency (out : list (option message)) : Prop :=
  forall i msg id,
    out !! i = Some msg -> id ∈ tool_result_ids msg ->
    exists j prev, i = S j /\ out !! j = Some prev /\ id ∈ tool_use_ids prev.

(** The same from the second message of the list on. *)
Definition matched_after_first (out : list (option message)) : Prop :=
  forall j msg id,
    out !! S j = Some msg -> id ∈ tool_result_ids msg ->
    exists prev, out !! j = Some prev /\ id ∈ tool_use_ids prev.

(** The histories of the agent loop: every result block of a message
    answers a tool use of the message right before it ([executeTools]
    copies the id from there), and no two messages in a row hold tool
    results. Nothing is asked of the first message, which after a pruning
    may be a tool answer without its call. *)
Definition paired (messages : list message) : Prop :=
  forall i,
    (forall id, id ∈ tool_result_ids (messages !! S i) ->
                id ∈ tool_use_ids (messages !! i))
    /\ (hasToolResults (messages !! S i) = true ->
        hasToolResults (messages !! i) = false).

(** Retention of the first message, as a property of one call. *)
Definition retains_first (messages : list message) (maxMessages maxTokens : Z) : Prop :=
  let r := pruneMessages messages maxMessages maxTokens in
  if decide (maxTokens < estimateTokensFromMessage (messages !! 0%nat))
  then prunedMessages r = [0%nat]
  else 0%nat ∈ prunedMessages r.

(** Both messages of the round at positions 1 and 2 come back, in a list
    of 51. *)
Definition pair_kept_beyond_ceiling (messages : list message) : Prop :=
  let r := pruneMessages_default messages in
  1%nat ∈ prunedMessages r /\ 2%nat ∈ prunedMessages r /\
  length (prunedMessages r) = 51%nat.


(** ** Outcomes of calls that may throw *)

Inductive outcome (A : Type) :=
| Returned (a : A)
| Threw (msg : string).
Arguments Returned {A} a.
Arguments Threw {A} msg.

(** [try { body } catch (error) { handler(error.message) }] *)
Definition try_catch {A} (body : outcome A) (handler : string -> A) : outcome A :=
  match body with
  | Returned a => Returned a
  | Threw msg => Returned (handler msg)
  end.

Definition outcome_map {A B} (f : A -> B) (o : outcome A) : outcome B :=
  match o with
  | Returned a => Returned (f a)
  | Threw msg => Threw msg
  end.

(** ** The open-file cache *)

Record FileContext := {
  fc_path : string;
  fc_content : option string;
  previousVersions : option (list string);
  lastRead : Z;
  lastModified : Z
}.

(** A JavaScript [Map] with string keys: its entries in insertion order,
    one entry per key. [set] on a key that is present keeps the position of
    the entry. *)
Fixpoint Map_get {V} (k : string) (m : list (string * V)) : option V :=
  match m with
  | [] => None
  | (k', v) :: m' => if String.eqb k' k then Some v else Map_get k m'
  end.

Definition Map_has {V} (k : string) (m : list (string * V)) : bool :=
  match Map_get k m with Some _ => true | None => false end.

Fixpoint Map_set {V} (k : string) (v : V) (m : list (string * V)) : list (string * V) :=
  match m with
  | [] => [(k, v)]
  | (k', v') :: m' =>
      if String.eqb k' k then (k, v) :: m' else (k', v') :: Map_set k v m'
  end.

Definition Map_delete {V} (k : string) (m : list (string * V)) : list (string * V) :=
  filter (fun e => e.1 <> k) m.

Definition Map_keys {V} (m : list (string * V)) : list string := m.*1.

(** The keys of a [Map] are pairwise distinct. *)
Definition Map_wf {V} (m : list (string * V)) : Prop := NoDup (Map_keys m).

(** [Array.prototype.sort] with the comparator [key(a) - key(b)]: the
    sort is stable, so it is the ascending order of the keys with ties in
    the order of the input. *)
Fixpoint insert_by {A} (key : A -> Z) (x : A) (l : list A) : list A :=
  match l with
  | [] => [x]
  | y :: l' => if key x <=? key y then x :: l else y :: insert_by key x l'
  end.

Definition sort_by {A} (key : A -> Z) (l : list A) : list A :=
  foldr (insert_by key) [] l.

(** Ascending by the key: every element is at most every later one. *)
Definition ascending {A} (key : A -> Z) (l : list A) : Prop :=
  StronglySorted (fun a b => key a <= key b) l.

(** [x || 0] on a number. *)
Definition or_zero (x : Z) : Z := if x =? 0 then 0 else x.

Definition lastRead_key (e : string * FileContext) : Z := or_zero (lastRead e.2).

(** The entries [evictOldCacheEntries] deletes, in the order it deletes
    them. *)
Definition evicted (cache : list (string * FileContext)) (maxSize : nat)
    : list (string * FileContext) :=
  if bool_decide (length cache <= maxSize)%nat then []
  else
    let entries := sort_by lastRead_key cache in
    let toRemove := (length cache - maxSize)%nat in
    take toRemove entries.

Definition evictOldCacheEntries (cache : list (string * FileContext)) (maxSize : nat)
    : list (string * FileContext) :=
  foldl (fun c e => Map_delete e.1 c) cache (evicted cache maxSize).

(** ** Tool calls and their side effects on the session state *)

(** The input of a tool call, by the schemas of the [tools] table. *)
Inductive tool_call :=
| ReadFile (file_path : string)
| WriteFile (file_path content : string)
| DirectoryRead (dir_path : string)
| DirectorySearch (pattern : string) (search_path : option string)
| ExecuteCommand (command : string) (cwd : option string) (timeout : option Z)
| ExecuteServerCommand (command : string) (cwd : option string) (timeout : option Z)
| UnknownTool (name : string).

Record tool_use := ToolUseCall { tu_id : string; tu_call : tool_call }.

Definition tool_name (c : tool_call) : string :=
  match c with
  | ReadFile _ => "read_file"
  | WriteFile _ _ => "write_file"
  | DirectoryRead _ => "directory_read"
  | DirectorySearch _ _ => "directory_search"
  | ExecuteCommand _ _ _ => "execute_command"
  | ExecuteServerCommand _ _ _ => "execute_server_command"
  | UnknownTool n => n
  end.

(** What a tool hands back. *)
Inductive tool_value :=
| VString (s : string)
| VCommand (stdout stderr : string) (exitCode : Z)
| VOther.

Record path_stamp := PathStamp { ps_path : string; ps_timestamp : Z }.

Record command_record := CommandRecord {
  cr_command : string;
  cr_output : option string;
  cr_timestamp : Z
}.

Definition truthy (s : option string) : bool :=
  match s with
  | Some s => negb (String.eqb s "")
  | None => false
  end.

Definition versions_or_empty (v : option (list string)) : list string :=
  match v with Some l => l | None => [] end.

(** The [read_file] branch of [executeTools], cache part. *)
Definition track_read_file (openFiles : list (string * FileContext))
    (filePath : string) (result : tool_value) (now : Z) : list (string * FileContext) :=
  match result with
  | VString s =>
      let existing := Map_get filePath openFiles in
      let openFiles1 :=
        Map_set filePath
          {| fc_path := filePath;
             fc_content := Some s;
             previousVersions :=
               Some (versions_or_empty (existing ≫= previousVersions));
             lastRead := now;
             lastModified := now |} openFiles in
      evictOldCacheEntries openFiles1 15
  | _ => openFiles
  end.

(** [previousVersions.push(content)] followed by the cap at 10. *)
Definition push_version (versions : list string) (current : string) : list string :=
  let pushed := versions ++ [current] in
  if bool_decide (10 < length pushed)%nat then drop 1 pushed else pushed.

(** The [write_file] branch of [executeTools] up to the eviction: the
    entry of the path is updated in place, or a fresh entry is added. *)
Definition write_update (openFiles : list (string * FileContext))
    (filePath content : string) (now : Z) : list (string * FileContext) :=
  match Map_get filePath openFiles with
  | Some existing =>
      let versions :=
        if truthy (fc_content existing)
        then Some (push_version (versions_or_empty (previousVersions existing))
                                (default "" (fc_content existing)))
        else previousVersions existing in
      Map_set filePath
        {| fc_path := fc_path existing;
           fc_content := Some content;
           previousVersions := versions;
           lastRead := now;
           lastModified := now |} openFiles
  | None =>
      Map_set filePath
        {| fc_path := filePath;
           fc_content := Some content;
           previousVersions := Some [];
           lastRead := now;
           lastModified := now |} openFiles
  end.

Definition track_write_file (openFiles : list (string * FileContext))
    (filePath content : string) (now : Z) : list (string * FileContext) :=
  evictOldCacheEntries (write_update openFiles filePath content now) 15.

(** [s.slice(0, 500)] of the combined output of a command. *)
Definition command_output (result : tool_value) : string :=
  match result with
  | VString s => s
  | VCommand stdout stderr _ =>
      stdout +:+ (if String.eqb stderr "" then "" else "
" +:+ stderr)
  | VOther => ""
  end.

Record tracking := Tracking {
  t_toolResults : list block;
  t_openFiles : list (string * FileContext);
  t_recentChanges : list path_stamp;
  t_recentReads : list path_stamp;
  t_recentCommands : list command_record
}.

Record AgentState := {
  messages : list message;
  toolUses : option (list tool_use);
  textBlocks : option (list string);
  toolResults : option (list block);
  openFiles : list (string * FileContext);
  recentChanges : list path_stamp;
  recentReads : list path_stamp;
  recentCommands : list command_record;
  workingSet : list string;
  historicalSummaries : list (Z * string);
  iterationCount : option Z
}.

(** A [Partial<AgentState>]: the fields a node returns. *)
Record AgentUpdate := {
  u_messages : option (list message);
  u_toolUses : option (list tool_use);
  u_textBlocks : option (list string);
  u_toolResults : option (list block);
  u_openFiles : option (list (string * FileContext));
  u_recentChanges : option (list path_stamp);
  u_recentReads : option (list path_stamp);
  u_recentCommands : option (list command_record);
  u_historicalSummaries : option (list (Z * string));
  u_iterationCount : option Z
}.

Definition no_update : AgentUpdate :=
  {| u_messages := None; u_toolUses := None; u_textBlocks := None;
     u_toolResults := None; u_openFiles := None; u_recentChanges := None;
     u_recentReads := None; u_recentCommands := None;
     u_historicalSummaries := None; u_iterationCount := None |}.

(** [state.iterationCount || 0] *)
Definition count_or_zero (c : option Z) : Z :=
  match c with Some n => or_zero n | None => 0 end.

Section ExecuteTools.
(** [summarizeToolResult] formats the text of a result block for the
    model; [run] is [executeTool] followed, for a command, by the wait
    for the approval: what the call hands back, or the message of the
    error it throws. *)
Variable summarizeToolResult : tool_use -> tool_value -> string.
Variable run : tool_use -> outcome tool_value.

(** One turn of [for (const toolUse of state.toolUses)]. *)
Definition track (now : Z) (tr : tracking) (toolUse : tool_use) : tracking :=
  match run toolUse with
  | Threw errorMessage =>
      Tracking
        (t_toolResults tr ++
           [ToolResult (tu_id toolUse) ("Error: " +:+ errorMessage) (Some true)])
        (t_openFiles tr) (t_recentChanges tr) (t_recentReads tr)
        (t_recentCommands tr)
  | Returned result =>
      let resultText := summarizeToolResult toolUse result in
      let block := ToolResult (tu_id toolUse) resultText None in
      match tu_call toolUse with
      | ReadFile filePath =>
          Tracking (t_toolResults tr ++ [block])
            (track_read_file (t_openFiles tr) filePath result now)
            (t_recentChanges tr)
            (t_recentReads tr ++ [PathStamp filePath now])
            (t_recentCommands tr)
      | WriteFile filePath content =>
          Tracking (t_toolResults tr ++ [block])
            (track_write_file (t_openFiles tr) filePath content now)
            (t_recentChanges tr ++ [PathStamp filePath now])
            (t_recentReads tr)
            (t_recentCommands tr)
      | ExecuteCommand command _ _
      | ExecuteServerCommand command _ _ =>
          let commandOutput := command_output result in
          Tracking (t_toolResults tr ++ [block])
            (t_openFiles tr) (t_recentChanges tr) (t_recentReads tr)
            (if String.eqb command "" then t_recentCommands tr
             else t_recentCommands tr ++
                  [CommandRecord command
                     (if String.eqb commandOutput "" then None
                      else Some (str_take 500 commandOutput))
                     now])
      | _ =>
          Tracking (t_toolResults tr ++ [block])
            (t_openFiles tr) (t_recentChanges tr) (t_recentReads tr)
            (t_recentCommands tr)
      end
  end.

(** Node 3. *)
Definition executeTools (now : Z) (state : AgentState) : AgentUpdate :=
  match toolUses state with
  | None | Some [] => no_update
  | Some uses =>
      let tr :=
        foldl (track now)
          (Tracking [] (openFiles state) (recentChanges state)
             (recentReads state) (recentCommands state))
          uses in
      let maxHistory := 20 in
      {| u_messages := None; u_toolUses := None; u_textBlocks := None;
         u_toolResults := Some (t_toolResults tr);
         u_openFiles := Some (t_openFiles tr);
         u_recentChanges := Some (js_slice (t_recentChanges tr) (- maxHistory) None);
         u_recentReads := Some (js_slice (t_recentReads tr) (- maxHistory) None);
         u_recentCommands := Some (js_slice (t_recentCommands tr) (- 10) None);
         u_historicalSummaries := None;
         u_iterationCount := Some (count_or_zero (iterationCount state) + 1) |}
  end.
End ExecuteTools.

(** ** Undo *)

Record undo_result := UndoResult {
  ur_success : bool;
  ur_message : string;
  ur_path : option string
}.

(** The channel values of the checkpoint that [getTuple] returns. *)
Record channel_values := {
  cv_openFiles : option (list (string * FileContext));
  cv_recentChanges : option (list path_stamp)
}.

(** What [undoLastChange] leaves behind: its answer, the [openFiles] map of
    the checkpoint after the call (the entry is written in place), and the
    file system. *)
Record undo_effect (World : Type) := UndoEffect {
  ue_result : undo_result;
  ue_openFiles : option (list (string * FileContext));
  ue_world : World
}.
Arguments UndoEffect {World}.
Arguments ue_result {World}.
Arguments ue_openFiles {World}.
Arguments ue_world {World}.

Definition undo_failure (msg : string) : undo_result := UndoResult false msg None.

(** "Find the file to undo": the path given, or else the path of the most
    recent change. *)
Definition undo_target (filePath : option string) (recentChanges : list path_stamp)
    : option string :=
  if truthy filePath then filePath
  else ps_path <$> last recentChanges.

Section Undo.
(** The file system and the [write_file] tool are collaborators:
    [writeFileTool path content w] is the file system after the call,
    with the message of the error if the call throws. *)
Variable World : Type.
Variable writeFileTool : string -> string -> World -> World * option string.

(** The message of the [TypeError] of a method call on [undefined]. *)
Definition undefined_get : string :=
  "Cannot read properties of undefined (reading 'get')".

(** The body of the [try] block, with the checkpoint tuple in hand. The
    answer is paired with the map and the file system as they are when
    the block is left, by [return] or by [throw]. *)
Definition undo_body (cv : channel_values) (filePath : option string) (w : World)
    : outcome undo_result * option (list (string * FileContext)) * World :=
  let openFiles := cv_openFiles cv in
  let recentChanges := default [] (cv_recentChanges cv) in
  let target := undo_target filePath recentChanges in
  match target with
  | None => (Returned (undo_failure "No recent changes to undo"), openFiles, w)
  | Some targetPath =>
      match openFiles with
      | None => (Threw undefined_get, openFiles, w)
      | Some files =>
          let none :=
            (Returned (undo_failure ("No previous version available for " +:+ targetPath)),
             openFiles, w) in
          match Map_get targetPath files with
          | None => none
          | Some fileContext =>
              match previousVersions fileContext with
              | None => none
              | Some versions =>
                  match last versions with
                  | None => none
                  | Some previousContent =>
                      let popped :=
                        {| fc_path := fc_path fileContext;
                           fc_content := fc_content fileContext;
                           previousVersions := Some (removelast versions);
                           lastRead := lastRead fileContext;
                           lastModified := lastModified fileContext |} in
                      match writeFileTool targetPath previousContent w with
                      | (w', Some msg) =>
                          (Threw msg, Some (Map_set targetPath popped files), w')
                      | (w', None) =>
                          let restored :=
                            {| fc_path := fc_path fileContext;
                               fc_content := Some previousContent;
                               previousVersions := Some (removelast versions);
                               lastRead := lastRead fileContext;
                               lastModified := lastModified fileContext |} in
                          (Returned
                             (UndoResult true
                                ("Reverted " +:+ targetPath +:+ " to previous version")
                                (Some targetPath)),
                           Some (Map_set targetPath restored files), w')
                      end
                  end
              end
          end
      end
  end.

(** [globalCheckpointStore] is [None] when no store was set; otherwise it
    is given by what its [getTuple] does for the thread ['default']: it
    throws, or returns nothing usable, or returns channel values. *)
Definition undoLastChange
    (globalCheckpointStore : option (outcome (option channel_values)))
    (filePath : option string) (w : World) : outcome (undo_effect World) :=
  match globalCheckpointStore with
  | None =>
      Returned (UndoEffect (undo_failure "No checkpoint store available") None w)
  | Some getTuple =>
      let '(answer, files, w') :=
        match getTuple with
        | Threw msg => (Threw msg, None, w)
        | Returned None =>
            (Returned (undo_failure "No file history available"), None, w)
        | Returned (Some cv) => undo_body cv filePath w
        end in
      outcome_map (fun r => UndoEffect r files w')
        (try_catch answer (fun msg => undo_failure ("Undo failed: " +:+ msg)))
  end.
End Undo.

(** ** The checkpoint store *)

(** [SqliteCheckpointSaver] keeps a row per checkpoint: the thread, and
    the channel values as [serializeCheckpoint] writes them. Of the fields
    that [undoLastChange] reads, [recentChanges] goes through
    [JSON.stringify] and [JSON.parse] as it is, and the [openFiles] map
    is replaced by the array of its keys. *)
Record stored_values := {
  sv_openFiles : option (list string);
  sv_recentChanges : option (list path_stamp)
}.

Record row := Row {
  thread_id : string;
  checkpoint_data : option stored_values
}.

(** [if (values.openFiles) values.openFiles =
    Array.from(values.openFiles.keys())]: a map is truthy, also when
    empty. *)
Definition serializeCheckpoint (values : channel_values) : stored_values :=
  {| sv_openFiles := Map_keys <$> cv_openFiles values;
     sv_recentChanges := cv_recentChanges values |}.

(** [if (values.openFiles && Array.isArray(values.openFiles))
    values.openFiles = new Map()]: an array is truthy, also when empty. *)
Definition deserializeCheckpoint (values : stored_values) : channel_values :=
  {| cv_openFiles := (fun _ : list string => []) <$> sv_openFiles values;
     cv_recentChanges := sv_recentChanges values |}.

(** The table of the store, newest row first. [put] writes the row of a
    checkpoint under [config.configurable.thread_id ?? 'default'], with
    the time of the call as its [created_at]; [None] is a checkpoint
    without channel values. *)
Definition put (table : list row) (thread : option string)
    (checkpoint : option channel_values) : list row :=
  Row (default "default" thread) (serializeCheckpoint <$> checkpoint) :: table.

(** [getTuple] for a configuration without checkpoint id: the newest row
    of the thread ([ORDER BY created_at DESC LIMIT 1]), deserialized.
    [None] is an answer in which [undoLastChange] finds no channel values:
    no row, or a row without them. *)
Definition getTuple (table : list row) (thread : option string)
    : option channel_values :=
  find (fun r => String.eqb (thread_id r) (default "default" thread)) table
    ≫= fun r => deserializeCheckpoint <$> checkpoint_data r.

(** The store of the repository with the given table, as the
    [globalCheckpointStore] of [undoLastChange], which asks for the thread
    ['default']. *)
Definition SqliteCheckpointSaver (table : list row)
    : option (outcome (option channel_values)) :=
  Some (Returned (getTuple table (Some "default"))).

(** ** Sample worlds and claims about the undo stack *)

(** A file system that records the writes, newest first, and never
    fails. *)
Definition disk : Type := list (string * string).

Definition disk_write (path content : string) (w : disk) : disk * option string :=
  ((path, content) :: w, None).

(** A store that hands [undoLastChange] a tuple with the given cache and
    changes as they are. The store of the repository does not: see
    [SqliteCheckpointSaver]. *)
Definition checkpoint_of (files : list (string * FileContext))
    (changes : list path_stamp) : option (outcome (option channel_values)) :=
  Some (Returned (Some {| cv_openFiles := Some files;
                          cv_recentChanges := Some changes |})).

(** "The current content of the entry is pushed before it is
    overwritten", for one write. *)
Definition write_pushes_current (cache : list (string * FileContext))
    (filePath content : string) (now : Z) : Prop :=
  forall existing,
    Map_get filePath cache = Some existing ->
    exists updated,
      Map_get filePath (write_update cache filePath content now) = Some updated /\
      fc_content updated = Some content /\
      previousVersions updated
      = Some (push_version (versions_or_empty (previousVersions existing))
                           (default "" (fc_content existing))).

(** "After a first write of [first] to a path that is not cached and a
    second write, undo restores [first]": the two writes of a run from
    the empty cache, the checkpoint of the run saved by the store under
    the thread of the session, and then the undo command. *)
Definition undo_restores_first (session : option string)
    (filePath first second : string) : Prop :=
  let files :=
    track_write_file (track_write_file [] filePath first 1) filePath second 2 in
  let changes := [PathStamp filePath 1; PathStamp filePath 2] in
  let table :=
    put [] session
      (Some {| cv_openFiles := Some files; cv_recentChanges := Some changes |}) in
  exists e,
    undoLastChange disk disk_write (SqliteCheckpointSaver table) None [] = Returned e /\
    ur_success (ue_result e) = true /\
    ue_world e = [(filePath, first)].

(** A cache of [n] files [f1 .. fn], read at times [1 .. n]. *)
Definition sample_cache (n : nat) : list (string * FileContext) :=
  (fun i : nat =>
     ("f" +:+ pretty i,
      {| fc_path := "f" +:+ pretty i; fc_content := Some "text";
         previousVersions := Some []; lastRead := Z.of_nat i;
         lastModified := Z.of_nat i |})) <$> seq 1 n.

(** Tools that hand back a text, and a summary that is the tool name. *)
Definition sample_run (toolUse : tool_use) : outcome tool_value :=
  Returned (VString "text").

Definition sample_summary (toolUse : tool_use) (result : tool_value) : string :=
  tool_name (tu_call toolUse).

Definition edited_file : FileContext :=
  {| fc_path := "a.ts"; fc_content := Some "two";
     previousVersions := Some ["zero"; "one"]; lastRead := 5; lastModified := 5 |}.

(** ** Pending command approvals *)

Record CommandResult := {
  cr_stdout : string;
  cr_stderr : string;
  cr_exitCode : Z
}.

Record CommandApproval := {
  ca_command : string;
  ca_cwd : option string;
  ca_timeout : option Z
}.

(** How a promise was settled. *)
Inductive settlement :=
| Resolved (result : CommandResult)
| Rejected (error : string).

(** An entry of [pendingCommands]. Its [resolve] and [reject] functions
    belong to the promise made at registration, named here by a number. *)
Record PendingCommandEntry := {
  approval : CommandApproval;
  promise : nat
}.

(** The module state: the [pendingCommands] map, the number of promises
    made so far, and the settlements delivered so far, oldest first. *)
Record registry := Registry {
  pendingCommands : gmap string PendingCommandEntry;
  promises : nat;
  settled : list (nat * settlement)
}.

Definition empty_registry : registry := Registry ∅ 0 [].

Definition waitForCommandCompletion (reg : registry) (toolUseId : string)
    (approval : CommandApproval) : outcome nat * registry :=
  if String.eqb toolUseId "" then
    (Threw "toolUseId is required to track command approvals", reg)
  else
    match pendingCommands reg !! toolUseId with
    | Some _ =>
        (Threw ("Command approval already pending for " +:+ toolUseId), reg)
    | None =>
        let p := promises reg in
        (Returned p,
         Registry (<[toolUseId := {| approval := approval; promise := p |}]>
                     (pendingCommands reg))
                  (S p) (settled reg))
    end.

Definition resolvePendingCommand (reg : registry) (toolUseId : string)
    (result : CommandResult) : bool * registry :=
  match pendingCommands reg !! toolUseId with
  | None => (false, reg)
  | Some pending =>
      (true,
       Registry (delete toolUseId (pendingCommands reg)) (promises reg)
                (settled reg ++ [(promise pending, Resolved result)]))
  end.

Definition rejectPendingCommand (reg : registry) (toolUseId : string)
    (error : string) : bool * registry :=
  match pendingCommands reg !! toolUseId with
  | None => (false, reg)
  | Some pending =>
      (true,
       Registry (delete toolUseId (pendingCommands reg)) (promises reg)
                (settled reg ++ [(promise pending, Rejected error)]))
  end.

Definition getPendingCommand (reg : registry) (toolUseId : string)
    : option CommandApproval :=
  approval <$> pendingCommands reg !! toolUseId.

Definition sample_approval : CommandApproval :=
  {| ca_command := "npm test"; ca_cwd := None; ca_timeout := None |}.

Definition sample_result : CommandResult :=
  {| cr_stdout := "ok"; cr_stderr := ""; cr_exitCode := 0 |}.

(** The registry after one registration under the id [t1]. *)
Definition one_pending : registry :=
  (waitForCommandCompletion empty_registry "t1" sample_approval).2.

(** ** Strings: case, search, trimming *)

Definition lower_ascii (c : ascii) : ascii :=
  let n := nat_of_ascii c in
  if bool_decide (65 <= n <= 90)%nat then ascii_of_nat (n + 32) else c.

Fixpoint toLowerCase (s : string) : string :=
  match s with
  | EmptyString => EmptyString
  | String c s' => String (lower_ascii c) (toLowerCase s')
  end.

Fixpoint startsWith (p s : string) : bool :=
  match p, s with
  | EmptyString, _ => true
  | String a p', String b s' => Ascii.eqb a b && startsWith p' s'
  | String _ _, EmptyString => false
  end.

(** [s.includes(sub)] *)
Fixpoint includes (sub s : string) : bool :=
  startsWith sub s ||
  match s with
  | EmptyString => false
  | String _ s' => includes sub s'
  end.

(** White space, as [\s] and [trim] see it (code units below 256). *)
Definition is_space (c : ascii) : bool :=
  let n := nat_of_ascii c in
  bool_decide (9 <= n <= 13)%nat || Nat.eqb n 32 || Nat.eqb n 160.

Fixpoint trim_start (s : string) : string :=
  match s with
  | String c s' => if is_space c then trim_start s' else s
  | EmptyString => EmptyString
  end.

Fixpoint trim_end (s : string) : string :=
  match s with
  | EmptyString => EmptyString
  | String c s' =>
      match trim_end s' with
      | EmptyString => if is_space c then EmptyString else String c EmptyString
      | rest => String c rest
      end
  end.

Definition trim (s : string) : string := trim_end (trim_start s).

(** ** Regular expressions

    A backtracking matcher for the three patterns of [extractArtifacts]:
    ordered alternatives, greedy repetition, one capture group, and the
    anchors without the multiline flag. *)

Inductive regex :=
| Eps
| Chr (p : ascii -> bool)
| Cat (r1 r2 : regex)
| Alt (r1 r2 : regex)
| Star (r : regex)
| Group (r : regex)
| Bol
| Eol.

(** The state of a match: what is left of the input, how much of it was
    consumed, and the text of the group. *)
Record mstate := MState {
  rest : list ascii;
  consumed : nat;
  captured : option (list ascii)
}.

Definition orelse {A} (a b : option A) : option A :=
  match a with Some _ => a | None => b end.

Fixpoint rmatch {R} (r : regex) (st : mstate) (k : mstate -> option R) : option R :=
  match r with
  | Eps => k st
  | Chr p =>
      match rest st with
      | c :: s' => if p c then k (MState s' (S (consumed st)) (captured st)) else None
      | [] => None
      end
  | Cat r1 r2 => rmatch r1 st (fun st1 => rmatch r2 st1 k)
  | Alt r1 r2 => orelse (rmatch r1 st k) (rmatch r2 st k)
  | Star r1 =>
      (fix loop (fuel : nat) (st : mstate) : option R :=
         match fuel with
         | O => k st
         | S fuel' =>
             orelse
               (rmatch r1 st (fun st1 =>
                  if bool_decide (consumed st < consumed st1)%nat
                  then loop fuel' st1 else None))
               (k st)
         end) (length (rest st)) st
  | Group r1 =>
      rmatch r1 st (fun st1 =>
        k (MState (rest st1) (consumed st1)
             (Some (take (consumed st1 - consumed st) (rest st)))))
  | Bol => if Nat.eqb (consumed st) 0 then k st else None
  | Eol => match rest st with [] => k st | _ => None end
  end.

(** [s.match(r)] for a pattern without the global flag, reduced to the
    text of the group of the leftmost match. *)
Fixpoint search_from (r : regex) (s : list ascii) (pos : nat) : option (list ascii) :=
  orelse (rmatch r (MState s pos None) captured)
    match s with
    | [] => None
    | _ :: s' => search_from r s' (S pos)
    end.

Definition regex_match (r : regex) (s : string) : option string :=
  String.string_of_list_ascii <$> search_from r (String.list_ascii_of_string s) 0.

Definition plus (r : regex) : regex := Cat r (Star r).
Definition opt (r : regex) : regex := Alt r Eps.

Fixpoint lit (s : string) : regex :=
  match s with
  | EmptyString => Eps
  | String c s' => Cat (Chr (Ascii.eqb c)) (lit s')
  end.

(** A literal under the [i] flag. *)
Fixpoint lit_i (s : string) : regex :=
  match s with
  | EmptyString => Eps
  | String c s' =>
      Cat (Chr (fun x => Ascii.eqb (lower_ascii x) (lower_ascii c))) (lit_i s')
  end.

Definition is_word (c : ascii) : bool :=
  let n := nat_of_ascii c in
  bool_decide (48 <= n <= 57)%nat || bool_decide (65 <= n <= 90)%nat
  || bool_decide (97 <= n <= 122)%nat || Nat.eqb n 95.

Definition ws : regex := Chr is_space.
Definition not_ws : regex := Chr (fun c => negb (is_space c)).

(** [/-o\s+(\S+)/] *)
Definition compile_flag : regex :=
  Cat (lit "-o") (Cat (plus ws) (Group (plus not_ws))).

(** [/(?:created|compiled|generated|built)\s+(?:executable|file|binary)?\s*:?\s*([^\s,]+)/i] *)
Definition created_message : regex :=
  Cat (Alt (lit_i "created") (Alt (lit_i "compiled") (Alt (lit_i "generated") (lit_i "built"))))
  (Cat (plus ws)
  (Cat (opt (Alt (lit_i "executable") (Alt (lit_i "file") (lit_i "binary"))))
  (Cat (Star ws)
  (Cat (opt (lit ":"))
  (Cat (Star ws)
       (Group (plus (Chr (fun c => negb (is_space c) && negb (Ascii.eqb c ",")))))))))).

(** [/(?:^|\s)([\/\w\-\.]+\.(?:exe|out|bin|so|dylib|dll))(?:\s|$)/] *)
Definition binary_path : regex :=
  let path_char c :=
    is_word c || Ascii.eqb c "/" || Ascii.eqb c "-" || Ascii.eqb c "." in
  Cat (Alt Bol ws)
  (Cat (Group
         (Cat (plus (Chr path_char))
         (Cat (lit ".")
              (Alt (lit "exe") (Alt (lit "out") (Alt (lit "bin")
              (Alt (lit "so") (Alt (lit "dylib") (lit "dll")))))))))
       (Alt ws Eol)).

Definition extractArtifacts (command : string) (output : option string) : list string :=
  if negb (truthy output) then []
  else
    let out := default "" output in
    let of_match (m : option string) := match m with Some a => [a] | None => [] end in
    of_match (regex_match compile_flag command)
    ++ of_match (regex_match created_message out)
    ++ of_match (regex_match binary_path out).

(** ** The context summary *)

(** [Math.max(1, Math.round(elapsed / 60000))] on integers: [Math.round]
    rounds a half up. *)
Definition elapsed_minutes (now timestamp : Z) : Z :=
  Z.max 1 ((now - timestamp + 30000) `div` 60000).

(** [now] is the reading of [Date.now()]. *)
Definition getContextSummary (now : Z) (state : AgentState) : string :=
  let openFilesList := Map_keys (openFiles state) in
  let recentChanges := js_slice (recentChanges state) (- 5) None in
  let recentReads := js_slice (recentReads state) (- 5) None in
  let recentCommands := js_slice (recentCommands state) (- 3) None in
  let historical := js_slice (historicalSummaries state) (- 5) None in
  if Nat.eqb (length openFilesList) 0 && Nat.eqb (length recentChanges) 0
     && Nat.eqb (length recentCommands) 0 && Nat.eqb (length historical) 0
  then ""
  else
    let summary := "[Context] " in
    let summary :=
      if negb (Nat.eqb (length openFilesList) 0)
      then summary +:+ "Working with files: " +:+ join ", " openFilesList +:+ ". "
      else summary in
    let summary :=
      if negb (Nat.eqb (length recentChanges) 0)
      then summary +:+ "Recent changes: " +:+ join ", " (ps_path <$> recentChanges) +:+ ". "
      else summary in
    let summary :=
      if negb (Nat.eqb (length recentCommands) 0) then
        let commandSummaries :=
          (fun cmd =>
             let artifacts := extractArtifacts (cr_command cmd) (cr_output cmd) in
             let summary := "Ran: " +:+ cr_command cmd in
             if negb (Nat.eqb (length artifacts) 0)
             then summary +:+ " (created: " +:+ join ", " artifacts +:+ ")"
             else summary) <$> recentCommands in
        summary +:+ "Recent commands: " +:+ join "; " commandSummaries +:+ ". "
      else summary in
    let summary :=
      if negb (Nat.eqb (length (workingSet state)) 0)
      then summary +:+ "Focus: " +:+ join ", " (workingSet state) +:+ ". "
      else summary in
    let summary :=
      if negb (Nat.eqb (length historical) 0) then
        let historySnippets :=
          (fun entry : Z * string =>
             pretty (elapsed_minutes now entry.1) +:+ "m ago: " +:+ entry.2)
          <$> historical in
        summary +:+ "Earlier work: " +:+ join " | " historySnippets +:+ ". "
      else summary in
    trim summary.

(** ** The nodes of the graph *)

(** Node 4: the batch of tool results becomes one [user] message. *)
Definition formatResults (state : AgentState) : AgentUpdate :=
  match toolResults state with
  | None => no_update
  | Some results =>
      let toolResultsMessage := Message user (CBlocks results) in
      {| u_messages := Some (messages state ++ [toolResultsMessage]);
         u_toolUses := None; u_textBlocks := None; u_toolResults := None;
         u_openFiles := None; u_recentChanges := None; u_recentReads := None;
         u_recentCommands := None; u_historicalSummaries := None;
         u_iterationCount := None |}
  end.

(** The completion phrases that [shouldContinue] looks for. *)
Definition completion_phrases : list string :=
  ["completed"; "finished"; "done"; "all set"; "ready to use"; "that's all";
   "that is all"].

(** The answer of [shouldContinue], the state object it was handed as it
    is after the call, and what it wrote to the output. The decision of the
    user, [answer], is what [waitForContinue] resolves to (or the error it
    rejects with); it is awaited only when the limit is reached. *)
Record decision := MkDecision {
  d_route : outcome string;
  d_state : AgentState;
  d_output : list string
}.

Definition set_iterationCount (state : AgentState) (n : Z) : AgentState :=
  {| messages := messages state; toolUses := toolUses state;
     textBlocks := textBlocks state; toolResults := toolResults state;
     openFiles := openFiles state; recentChanges := recentChanges state;
     recentReads := recentReads state; recentCommands := recentCommands state;
     workingSet := workingSet state;
     historicalSummaries := historicalSummaries state;
     iterationCount := Some n |}.

(** Node 2. *)
Definition shouldContinue (state : AgentState) (answer : outcome bool) : decision :=
  match toolUses state with
  | None | Some [] => MkDecision (Returned "end") state []
  | Some _ =>
      let currentCount := count_or_zero (iterationCount state) in
      if 25 <=? currentCount then
        let written := ["ITERATION_LIMIT_REACHED"] in
        match answer with
        | Threw msg => MkDecision (Threw msg) state written
        | Returned false => MkDecision (Returned "end") state written
        | Returned true =>
            MkDecision (Returned "continue") (set_iterationCount state 0) written
        end
      else
        let lastText := toLowerCase (default "" (textBlocks state ≫= last)) in
        if existsb (fun phrase => includes phrase lastText) completion_phrases
        then MkDecision (Returned "continue") state []
        else MkDecision (Returned "continue") state []
  end.

(** What the provider sends back, normalised: the content of the
    assistant message, its tool calls and its text blocks. *)
Record llm_reply := {
  lr_content : list block;
  lr_toolUses : list tool_use;
  lr_textBlocks : list string
}.

(** [resetCounter] of [callLLM]: the limit was reached and the last
    message is a user message that asks to go on. *)
Definition resetCounter (state : AgentState) : bool :=
  (25 <=? count_or_zero (iterationCount state)) &&
  match last (messages state) with
  | Some (Message user c) =>
      let content :=
        match c with
        | CString s => s
        | CBlocks (Text t :: _) => t
        | CBlocks _ => ""
        end in
      let normalized := trim (toLowerCase content) in
      includes "continue" normalized || includes "yes" normalized
      || includes "keep going" normalized
  | _ => false
  end.

(** The messages of a pruning result, as an array of their own. *)
Definition returned_messages (r : prune_result) : list message :=
  omap id (returned r).

(** Node 1. [provider] stands for the streaming call; [now] is the reading
    of the clock. The first pruning writes to the message objects of the
    history, so the second one starts from the store the first one left. *)
Definition callLLM (provider : list message -> outcome llm_reply) (now : Z)
    (state : AgentState) : outcome AgentUpdate :=
  let reset := resetCounter state in
  let r50 := pruneMessages (messages state) 50 MAX_PROMPT_TOKEN_BUDGET in
  let contextSummary := getContextSummary now state in
  let messagesToSend :=
    if String.eqb contextSummary "" then returned_messages r50
    else Message user (CString contextSummary) :: returned_messages r50 in
  match provider messagesToSend with
  | Threw msg => Threw msg
  | Returned reply =>
      let assistantMessage := Message assistant (CBlocks (lr_content reply)) in
      let r49 := pruneMessages (store r50) 49 MAX_PROMPT_TOKEN_BUDGET in
      let summaries :=
        if Nat.eqb (length (archivedSummaries r49)) 0 then historicalSummaries state
        else js_slice (historicalSummaries state
                       ++ ((fun summary => (now, summary)) <$> archivedSummaries r49))
                      (- 50) None in
      Returned
        {| u_messages := Some (returned_messages r49 ++ [assistantMessage]);
           u_toolUses := Some (lr_toolUses reply);
           u_textBlocks := Some (lr_textBlocks reply);
           u_toolResults := None;
           u_openFiles := None; u_recentChanges := None; u_recentReads := None;
           u_recentCommands := None;
           u_historicalSummaries := Some summaries;
           u_iterationCount := if reset then Some 0 else None |}
  end.

(** ** The graph *)

(** The channels of [createAgentGraph]: a node returns a partial state,
    and each field it returns replaces the value of its channel
    ([(x, y) => y ?? x]). *)
Definition apply_update (state : AgentState) (u : AgentUpdate) : AgentState :=
  {| messages := default (messages state) (u_messages u);
     toolUses := match u_toolUses u with Some v => Some v | None => toolUses state end;
     textBlocks := match u_textBlocks u with Some v => Some v | None => textBlocks state end;
     toolResults := match u_toolResults u with Some v => Some v | None => toolResults state end;
     openFiles := default (openFiles state) (u_openFiles u);
     recentChanges := default (recentChanges state) (u_recentChanges u);
     recentReads := default (recentReads state) (u_recentReads u);
     recentCommands := default (recentCommands state) (u_recentCommands u);
     workingSet := workingSet state;
     historicalSummaries := default (historicalSummaries state) (u_historicalSummaries u);
     iterationCount := match u_iterationCount u with Some v => Some v | None => iterationCount state end |}.

Inductive node := callLLM_node | executeTools_node | formatResults_node | end_node.

(** What the world answers during one step of the graph. *)
Record environment := {
  env_now : Z;
  env_provider : list message -> outcome llm_reply;
  env_answer : outcome bool;
  env_run : tool_use -> outcome tool_value
}.

Inductive run_result :=
| Done (state : AgentState)
| RecursionLimit (state : AgentState)
| Failed (msg : string).

Definition recursionLimit : nat := 200.

Section Graph.
Variable summarizeToolResult : tool_use -> tool_value -> string.
(** The environment of each step, by the number of steps left. *)
Variable env : nat -> environment.

(** The conditional edge after [callLLM]
    ([addConditionalEdges('callLLM', state => shouldContinue(state),
    {continue: 'executeTools', end: 'end'})]). The graph library keeps the
    state in the channels: the function of a conditional edge is called
    with a reading of them and selects the next node by its return value,
    and the next node is called with a reading of its own. An edge writes
    to no channel, so the state object that [shouldContinue] leaves behind
    ([d_state]) goes no further. *)
Definition next_after_callLLM (e : environment) (state : AgentState) : outcome node :=
  outcome_map
    (fun route => if String.eqb route "continue" then executeTools_node else end_node)
    (d_route (shouldContinue state (env_answer e))).

(** [graph.invoke]: one node per step, at most [fuel] steps. The run is
    over when the step after the end node finds no node to run, so the
    end node has to run before the last step allowed. *)
Fixpoint invoke (fuel : nat) (n : node) (state : AgentState) : run_result :=
  match fuel with
  | O => RecursionLimit state
  | S fuel' =>
      let e := env fuel' in
      match n with
      | callLLM_node =>
          match callLLM (env_provider e) (env_now e) state with
          | Threw msg => Failed msg
          | Returned u =>
              let state1 := apply_update state u in
              match next_after_callLLM e state1 with
              | Threw msg => Failed msg
              | Returned n' => invoke fuel' n' state1
              end
          end
      | executeTools_node =>
          invoke fuel' formatResults_node
            (apply_update state
               (executeTools summarizeToolResult (env_run e) (env_now e) state))
      | formatResults_node =>
          invoke fuel' callLLM_node (apply_update state (formatResults state))
      | end_node =>
          match fuel' with
          | O => RecursionLimit state
          | S _ => Done state
          end
      end
  end.

(** [runAgentGraph]: the query replaces the messages of the state the
    checkpoint holds for the thread, and the graph runs from [callLLM]
    under the recursion limit. *)
Definition runAgentGraph (checkpoint : AgentState) (userQuery : string) : run_result :=
  let input :=
    {| u_messages := Some [Message user (CString userQuery)];
       u_toolUses := None; u_textBlocks := None; u_toolResults := None;
       u_openFiles := None; u_recentChanges := None; u_recentReads := None;
       u_recentCommands := None; u_historicalSummaries := None;
       u_iterationCount := None |} in
  invoke recursionLimit callLLM_node (apply_update checkpoint input).
End Graph.

(** ** Sample states *)

Definition empty_state : AgentState :=
  {| messages := []; toolUses := None; textBlocks := None; toolResults := None;
     openFiles := []; recentChanges := []; recentReads := [];
     recentCommands := []; workingSet := []; historicalSummaries := [];
     iterationCount := None |}.

Definition set_recentReads (state : AgentState) (reads : list path_stamp) : AgentState :=
  {| messages := messages state; toolUses := toolUses state;
     textBlocks := textBlocks state; toolResults := toolResults state;
     openFiles := openFiles state; recentChanges := recentChanges state;
     recentReads := reads; recentCommands := recentCommands state;
     workingSet := workingSet state;
     historicalSummaries := historicalSummaries state;
     iterationCount := iterationCount state |}.

(** A state that has read one file and nothing else. *)
Definition one_read_state : AgentState :=
  set_recentReads empty_state [PathStamp "src/main.ts" 1000].

(** "The context message lists the last 5 read paths." *)
Definition lists_recent_reads (now : Z) (state : AgentState) : Prop :=
  forall read,
    read ∈ js_slice (recentReads state) (- 5) None ->
    includes (ps_path read) (getContextSummary now state) = true.

(** A state at the iteration limit with one tool call to run. *)
Definition at_limit_state : AgentState :=
  {| messages := [plain "task"; call_message "t1"];
     toolUses := Some [ToolUseCall "t1" (ReadFile "a.ts")];
     textBlocks := Some []; toolResults := None;
     openFiles := []; recentChanges := []; recentReads := [];
     recentCommands := []; workingSet := []; historicalSummaries := [];
     iterationCount := Some 25 |}.

(** An environment in which the user answers "continue" and every tool
    hands back a text. *)
Definition continue_env : environment :=
  {| env_now := 2000;
     env_provider := fun _ => Threw "offline";
     env_answer := Returned true;
     env_run := sample_run |}.

(** ** Lines of a text *)

Definition newline : ascii := "010"%char.

(** [s.split('\n')]: the pieces between the line feeds, at least one. *)
Fixpoint split_lines (s : string) : list string :=
  match s with
  | EmptyString => [""]
  | String c s' =>
      if Ascii.eqb c newline then "" :: split_lines s'
      else
        match split_lines s' with
        | line :: lines => String c line :: lines
        | [] => [String c ""]
        end
  end.

(** A text without line feed. *)
Definition no_newline (s : string) : Prop :=
  newline ∉ String.list_ascii_of_string s.

Definition MAX_TOOL_RESULT_LINES : Z := 120.

Definition truncateLines (input : string) (lineLimit : Z) : string :=
  let lines := split_lines input in
  if Z.of_nat (length lines) <=? lineLimit then input
  else
    let kept := join "
" (js_slice lines 0 (Some lineLimit)) in
    kept +:+ "
" +:+ String ellipsis (" (truncated " +:+ pretty (Z.of_nat (length lines) - lineLimit)
                          +:+ " more lines)").

(** The text of a [read_file] result handed to the model. *)
Definition summarizeReadFileResult (content filePath : string) : string :=
  let limitedLines := truncateLines content MAX_TOOL_RESULT_LINES in
  let limited := truncateString limitedLines MAX_TOOL_RESULT_CHARS in
  let totalLines := length (split_lines content) in
  let summaryLines := length (split_lines limited) in
  if bool_decide (summaryLines < totalLines)%nat then
    "Contents of " +:+ filePath +:+ " (showing first " +:+ pretty summaryLines
    +:+ " of " +:+ pretty totalLines +:+ " lines):
" +:+ limited
  else "Contents of " +:+ filePath +:+ ":
" +:+ limited.

(** ** The line diff shown after a write *)

Record diff_entry := DiffEntry {
  diff_line : Z;
  diff_old : option string;
  diff_new : option string
}.

(** One turn of [for (let i = 0; i < maxLen; i++)]. *)
Definition diff_step (oldLines newLines : list string)
    (diff : list diff_entry) (i : nat) : list diff_entry :=
  let oldLine := oldLines !! i in
  let newLine := newLines !! i in
  let line := Z.of_nat i + 1 in
  if bool_decide (oldLine <> newLine) then
    match oldLine, newLine with
    | Some o, Some n => diff ++ [DiffEntry line (Some o) None; DiffEntry line None (Some n)]
    | None, Some n => diff ++ [DiffEntry line None (Some n)]
    | Some o, None => diff ++ [DiffEntry line (Some o) None]
    | None, None => diff
    end
  else if bool_decide (0 < length diff)%nat && bool_decide (length diff < 10)%nat
  then diff ++ [DiffEntry line oldLine newLine]
  else diff.

Definition generateDiff (oldContent newContent : string) : list diff_entry :=
  let oldLines := split_lines oldContent in
  let newLines := split_lines newContent in
  let maxLen := Nat.max (length oldLines) (length newLines) in
  foldl (diff_step oldLines newLines) [] (seq 0 maxLen).

(** ** Messages in the format of the other provider *)

Record openai_tool_call := {
  tc_id : string;
  tc_name : string;
  tc_arguments : string
}.

(** What [convertMessagesToOpenAI] pushes: the message as it is, a [tool]
    message, an assistant message with [tool_calls], or a message with a
    text content. *)
Inductive openai_message :=
| OAOriginal (msg : message)
| OATool (tool_call_id content : string)
| OACalls (r : role) (content : option string) (tool_calls : list openai_tool_call)
| OAText (r : role) (content : string).

Section OpenAI.
(** [JSON.stringify] is the serialiser of the language. *)
Variable stringify : json -> string.

(** One turn of [for (const msg of messages)]. *)
Definition convert_message (msg : message) : list openai_message :=
  match msg_content msg with
  | CString _ => [OAOriginal msg]
  | CBlocks bs =>
      let toolResultBlocks := filter (fun b => is_tool_result b = true) bs in
      if negb (Nat.eqb (length toolResultBlocks) 0) then
        omap (fun b =>
                match b with
                | ToolResult i c e =>
                    Some (OATool i (match e with
                                    | Some true => "Error: " +:+ c
                                    | _ => c
                                    end))
                | _ => None
                end) toolResultBlocks
      else
        let text := join "
" (omap block_text bs) in
        let toolUseBlocks := filter (fun b => is_tool_use b = true) bs in
        if negb (Nat.eqb (length toolUseBlocks) 0) then
          [OACalls (msg_role msg)
             (if String.eqb text "" then None else Some text)
             (omap (fun b =>
                      match b with
                      | ToolUse i n input =>
                          Some {| tc_id := i; tc_name := n;
                                  tc_arguments := stringify input |}
                      | _ => None
                      end) toolUseBlocks)]
        else [OAText (msg_role msg) text]
  end.

Definition convertMessagesToOpenAI (messages : list message) : list openai_message :=
  foldl (fun converted msg => converted ++ convert_message msg) [] messages.
End OpenAI.

(** The ids of the [tool] messages, and the ids of the calls of the
    assistant messages, in order. *)
Definition tool_message_ids (out : list openai_message) : list string :=
  omap (fun m => match m with OATool i _ => Some i | _ => None end) out.

Definition tool_call_ids (out : list openai_message) : list string :=
  flat_map (fun m => match m with OACalls _ _ calls => tc_id <$> calls | _ => [] end) out.

(** ** The command tools *)

(** [options?.timeout ? ... : ''] on a number. *)
Definition truthy_number (n : option Z) : bool :=
  match n with
  | Some n => negb (n =? 0)
  | None => false
  end.

(** The marker of both command tools, after its first word. *)
Definition marker_tail (command : string) (cwd : option string) (timeout : option Z)
    : string :=
  command
  +:+ (if truthy cwd then ":CWD:" +:+ default "" cwd else "")
  +:+ (if truthy_number timeout then ":TIMEOUT:" +:+ pretty (default 0 timeout) else "").

Definition executeCommandTool (command : string) (cwd : option string)
    (timeout : option Z) : CommandResult :=
  let approvalMarker := "COMMAND_APPROVAL_NEEDED:" +:+ marker_tail command cwd timeout in
  {| cr_stdout := approvalMarker; cr_stderr := ""; cr_exitCode := 0 |}.

Definition executeServerCommandTool (command : string) (cwd : option string)
    (timeout : option Z) : CommandResult :=
  let marker := "SERVER_COMMAND_REQUEST:" +:+ marker_tail command cwd timeout in
  {| cr_stdout := marker; cr_stderr := ""; cr_exitCode := 0 |}.

(** The [execute_command] branch of the [try] block of [executeTools], up
    to the wait: the result of the tool as it is, or the promise of the
    approval. *)
Inductive command_step :=
| Immediate (result : CommandResult)
| Awaiting (promise : nat).

Definition request_command (reg : registry) (toolUseId command : string)
    (cwd : option string) (timeout : option Z) : outcome command_step * registry :=
  let result := executeCommandTool command cwd timeout in
  if includes "COMMAND_APPROVAL_NEEDED" (cr_stdout result) then
    let approvalInfo :=
      {| ca_command := command; ca_cwd := cwd; ca_timeout := timeout |} in
    let '(waiting, reg') := waitForCommandCompletion reg toolUseId approvalInfo in
    (outcome_map Awaiting waiting, reg')
  else (Returned (Immediate result), reg).

(** ** Sequences of calls to the registry *)

Inductive registry_call :=
| Wait (toolUseId : string) (approval : CommandApproval)
| Resolve (toolUseId : string) (result : CommandResult)
| Reject (toolUseId : string) (error : string).

Definition registry_step (reg : registry) (c : registry_call) : registry :=
  match c with
  | Wait i a => (waitForCommandCompletion reg i a).2
  | Resolve i r => (resolvePendingCommand reg i r).2
  | Reject i e => (rejectPendingCommand reg i e).2
  end.

Definition registry_run (reg : registry) (calls : list registry_call) : registry :=
  foldl registry_step reg calls.

(** ** The continue gate

    [pendingContinueResolve] and [pendingContinueReject] hold the two
    functions of the promise made by the last [waitForContinue], named by
    its number, or [null]. *)

Record continue_gate := ContinueGate {
  pendingContinueResolve : option nat;
  pendingContinueReject : option nat;
  gate_promises : nat;
  gate_settled : list (nat * outcome bool)
}.

Definition empty_gate : continue_gate := ContinueGate None None 0 [].

Definition waitForContinue (g : continue_gate) : nat * continue_gate :=
  let p := gate_promises g in
  (p, ContinueGate (Some p) (Some p) (S p) (gate_settled g)).

Definition resolvePendingContinue (g : continue_gate) (shouldContinue : bool)
    : continue_gate :=
  match pendingContinueResolve g with
  | Some p =>
      ContinueGate None None (gate_promises g)
        (gate_settled g ++ [(p, Returned shouldContinue)])
  | None => g
  end.

Definition rejectPendingContinue (g : continue_gate) (error : string) : continue_gate :=
  match pendingContinueReject g with
  | Some p =>
      ContinueGate None None (gate_promises g) (gate_settled g ++ [(p, Threw error)])
  | None => g
  end.

Inductive gate_call :=
| GateWait
| GateResolve (shouldContinue : bool)
| GateReject (error : string).

Definition gate_step (g : continue_gate) (c : gate_call) : continue_gate :=
  match c with
  | GateWait => (waitForContinue g).2
  | GateResolve b => resolvePendingContinue g b
  | GateReject e => rejectPendingContinue g e
  end.

Definition gate_run (g : continue_gate) (calls : list gate_call) : continue_gate :=
  foldl gate_step g calls.

(** ** Measures and shapes used in the statements *)

(** The estimate of a list of messages. *)
Definition total_tokens (l : list (option message)) : Z :=
  foldr (fun m sum => estimateTokensFromMessage m + sum) 0 l.

(** The characters that the estimate counts. *)
Definition counted_chars (m : message) : Z :=
  foldr (fun piece sum => str_len piece + sum) 0 (collectStrings_message m).

(** Every message with tool results, the first one apart, stands right
    after a message with tool uses. *)
Definition well_paired (messages : list message) : Prop :=
  forall i, hasToolResults (messages !! S i) = true -> hasToolUses (messages !! i) = true.

(** The undo stack of every entry holds at most 10 versions. *)
Definition stacks_bounded (cache : list (string * FileContext)) : Prop :=
  Forall (fun e => (length (versions_or_empty (previousVersions e.2)) <= 10)%nat) cache.

(** [x] stands before [y] in [l]. *)
Definition before {A} (x y : A) (l : list A) : Prop :=
  exists l1 l2 l3, l = l1 ++ x :: l2 ++ y :: l3.

Definition set_textBlocks (state : AgentState) (blocks : option (list string))
    : AgentState :=
  {| messages := messages state; toolUses := toolUses state;
     textBlocks := blocks; toolResults := toolResults state;
     openFiles := openFiles state; recentChanges := recentChanges state;
     recentReads := recentReads state; recentCommands := recentCommands state;
     workingSet := workingSet state;
     historicalSummaries := historicalSummaries state;
     iterationCount := iterationCount state |}.

Definition set_messages (state : AgentState) (history : list message) : AgentState :=
  {| messages := history; toolUses := toolUses state;
     textBlocks := textBlocks state; toolResults := toolResults state;
     openFiles := openFiles state; recentChanges := recentChanges state;
     recentReads := recentReads state; recentCommands := recentCommands state;
     workingSet := workingSet state;
     historicalSummaries := historicalSummaries state;
     iterationCount := iterationCount state |}.

(** One round of the loop after [callLLM]: [executeTools], then
    [formatResults], each writing its update to the channels. *)
Definition tool_round (summarizeToolResult : tool_use -> tool_value -> string)
    (run : tool_use -> outcome tool_value) (now : Z) (state : AgentState) : AgentState :=
  let state1 := apply_update state (executeTools summarizeToolResult run now state) in
  apply_update state1 (formatResults state1).

(** The invariant of the registry: the promise of a pending entry was
    made by the registry and is not settled, no two entries share a
    promise, and no promise was settled twice. *)
Definition registry_ok (reg : registry) : Prop :=
  (forall i e, pendingCommands reg !! i = Some e ->
     (promise e < promises reg)%nat /\ (promise e ∉ (settled reg).*1))
  /\ (forall i j e1 e2,
        pendingCommands reg !! i = Some e1 -> pendingCommands reg !! j = Some e2 ->
        promise e1 = promise e2 -> i = j)
  /\ NoDup (settled reg).*1
  /\ Forall (fun p => (p < promises reg)%nat) (settled reg).*1.

(** The invariant of the continue gate. *)
Definition gate_ok (g : continue_gate) : Prop :=
  pendingContinueResolve g = pendingContinueReject g
  /\ (forall p, pendingContinueResolve g = Some p ->
        (p < gate_promises g)%nat /\ (p ∉ (gate_settled g).*1))
  /\ NoDup (gate_settled g).*1
  /\ Forall (fun p => (p < gate_promises g)%nat) (gate_settled g).*1.

(** * Properties *)

(** ** Slices *)

Lemma js_rel_index_bounds (len k : Z) :
  0 <= len -> 0 <= js_rel_index len k <= len.
Proof. unfold js_rel_index. destruct (k <? 0) eqn:E; lia. Qed.

Lemma js_slice_suffix {A} (l : list A) (start : Z) :
  js_slice l start None
  = drop (Z.to_nat (js_rel_index (Z.of_nat (length l)) start)) l.
Proof.
  unfold js_slice.
  pose proof (js_rel_index_bounds (Z.of_nat (length l)) start ltac:(lia)) as Hb.
  apply take_ge. rewrite length_drop. lia.
Qed.

Lemma js_slice_length_le {A} (l : list A) (n : Z) :
  1 <= n -> Z.of_nat (length (js_slice l (- n) None)) <= n.
Proof.
  intros Hn. rewrite js_slice_suffix, length_drop.
  unfold js_rel_index. destruct (- n <? 0) eqn:E; lia.
Qed.

(** ** The repair pass *)

Lemma hasToolUses_strip (m : message) :
  hasToolUses (Some (strip_tool_results m)) = hasToolUses (Some m).
Proof.
  destruct m as [r [s | bs]]; [reflexivity |].
  unfold strip_tool_results; simpl.
  induction bs as [| b bs IH]; [reflexivity |].
  rewrite filter_cons. destruct b; simpl; try case_decide; simpl; congruence.
Qed.

Lemma hasToolResults_strip (m : message) :
  hasToolResults (Some (strip_tool_results m)) = false.
Proof.
  destruct m as [r [s | bs]]; [reflexivity |].
  unfold strip_tool_results; simpl.
  induction bs as [| b bs IH]; [reflexivity |].
  rewrite filter_cons. destruct b; simpl; try case_decide; simpl; congruence.
Qed.

(** Writing a stripped message back to the store changes no [hasToolUses]
    answer and turns no [hasToolResults] answer to true. *)
Lemma strip_store_uses (h : list message) (r p : nat) (m : message) :
  h !! r = Some m ->
  hasToolUses (<[r := strip_tool_results m]> h !! p) = hasToolUses (h !! p).
Proof.
  intros Hr. destruct (decide (r = p)) as [-> | Hne].
  - rewrite list_lookup_insert_eq by (eapply lookup_lt_Some; eauto).
    rewrite Hr. apply hasToolUses_strip.
  - by rewrite list_lookup_insert_ne.
Qed.

Lemma strip_store_results (h : list message) (r p : nat) (m : message) :
  h !! r = Some m ->
  hasToolResults (<[r := strip_tool_results m]> h !! p) = true ->
  hasToolResults (h !! p) = true.
Proof.
  intros Hr. destruct (decide (r = p)) as [-> | Hne].
  - rewrite list_lookup_insert_eq by (eapply lookup_lt_Some; eauto).
    by rewrite hasToolResults_strip.
  - by rewrite list_lookup_insert_ne.
Qed.

Lemma repair_store (rest : list nat) (h : list message) (prev : nat) :
  forall p,
    hasToolUses (fst (repair h prev rest) !! p) = hasToolUses (h !! p) /\
    (hasToolResults (fst (repair h prev rest) !! p) = true ->
     hasToolResults (h !! p) = true) /\
    (p ∉ rest -> fst (repair h prev rest) !! p = h !! p).
Proof.
  revert h prev. induction rest as [| r rest IH]; intros h prev p; simpl.
  - done.
  - assert (Hsame : forall q,
      hasToolUses ((repair h q rest).1 !! p) = hasToolUses (h !! p) /\
      (hasToolResults ((repair h q rest).1 !! p) = true ->
       hasToolResults (h !! p) = true) /\
      (p ∉ r :: rest -> (repair h q rest).1 !! p = h !! p)).
    { intros q. destruct (IH h q p) as (H1 & H2 & H3).
      split_and!; auto. intros Hn. apply H3. by apply not_elem_of_cons in Hn as [_ ?]. }
    destruct (hasToolResults (h !! r) && negb (hasToolUses (h !! prev))) eqn:Hc.
    2:{ destruct (repair h r rest) eqn:E. specialize (Hsame r). by rewrite E in Hsame. }
    destruct (h !! r) as [m |] eqn:Hr.
    2:{ destruct (repair h r rest) eqn:E. specialize (Hsame r). by rewrite E in Hsame. }
    set (h1 := <[r := strip_tool_results m]> h).
    assert (Hstrip : forall q,
      hasToolUses ((repair h1 q rest).1 !! p) = hasToolUses (h !! p) /\
      (hasToolResults ((repair h1 q rest).1 !! p) = true ->
       hasToolResults (h !! p) = true) /\
      (p ∉ r :: rest -> (repair h1 q rest).1 !! p = h !! p)).
    { intros q. destruct (IH h1 q p) as (H1 & H2 & H3). split_and!.
      - rewrite H1. by apply strip_store_uses.
      - intros Ht. apply H2 in Ht. by eapply strip_store_results.
      - intros Hn. apply not_elem_of_cons in Hn as [Hpr Hn].
        rewrite H3 by done. unfold h1. by rewrite list_lookup_insert_ne. }
    destruct (content_length_is_zero (strip_tool_results m)).
    + apply Hstrip.
    + destruct (repair h1 r rest) eqn:E. specialize (Hstrip r). by rewrite E in Hstrip.
Qed.

Lemma chain_store (h h' : list message) (prev : nat) (l : list nat) :
  (forall p, hasToolUses (h' !! p) = hasToolUses (h !! p)) ->
  (forall p, hasToolResults (h' !! p) = true -> hasToolResults (h !! p) = true) ->
  chain h prev l -> chain h' prev l.
Proof.
  intros Hu Ht. revert prev. induction l as [| q l IH]; intros prev; simpl; [done |].
  intros [H1 H2]. split; [| by apply IH].
  intros Hq. rewrite Hu. apply H1. by apply Ht.
Qed.

Lemma repair_chain (rest : list nat) (h : list message) (prev : nat) :
  chain (repair h prev rest).1 prev (repair h prev rest).2.
Proof.
  revert h prev. induction rest as [| r rest IH]; intros h prev; simpl; [done |].
  destruct (hasToolResults (h !! r) && negb (hasToolUses (h !! prev))) eqn:Hc.
  - destruct (h !! r) as [m |] eqn:Hr; [| discriminate Hc].
    set (h1 := <[r := strip_tool_results m]> h).
    destruct (content_length_is_zero (strip_tool_results m)); [apply IH |].
    pose proof (IH h1 r) as Hch. pose proof (repair_store rest h1 r) as Hst.
    destruct (repair h1 r rest) as [h2 out]; simpl in *. split; [| done].
    intros Hq. apply (Hst r) in Hq. unfold h1 in Hq.
    rewrite list_lookup_insert_eq in Hq by (eapply lookup_lt_Some; eauto).
    by rewrite hasToolResults_strip in Hq.
  - pose proof (IH h r) as Hch. pose proof (repair_store rest h r) as Hst.
    destruct (repair h r rest) as [h2 out]; simpl in *. split; [| done].
    intros Hq. apply (Hst r) in Hq. rewrite Hq in Hc. simpl in Hc.
    destruct (Hst prev) as [-> _]. by destruct (hasToolUses (h !! prev)).
Qed.

Lemma chain_adjacent_ok (h : list message) (prev : nat) (l : list nat) :
  chain h prev l -> adjacent_ok h (prev :: l).
Proof.
  revert prev. induction l as [| q l IH]; intros prev Hch i p q' Hp Hq.
  - destruct i; simplify_eq/=.
  - destruct Hch as [H1 H2]. destruct i as [| i]; simplify_eq/=; [done |].
    eapply (IH q H2 i); eauto.
Qed.

Lemma adjacent_ok_drop (h : list message) (l : list nat) (k : nat) :
  adjacent_ok h l -> adjacent_ok h (drop k l).
Proof.
  intros H i p q Hp Hq. rewrite lookup_drop in Hp, Hq.
  replace (k + S i)%nat with (S (k + i)) in Hq by lia. eauto.
Qed.

Lemma repair_pass_adjacent (h : list message) (pruned : list nat) :
  adjacent_ok (repair_pass h pruned).1 (repair_pass h pruned).2.
Proof.
  destruct pruned as [| p0 rest]; simpl.
  - intros i p q Hp. by destruct i.
  - pose proof (repair_chain rest h p0) as Hch.
    destruct (repair h p0 rest) as [h' out]; simpl in *.
    by apply chain_adjacent_ok.
Qed.

(** ** The backward scan *)

Section Scan.
Variable messages : list message.
Variables maxMessages maxTokens : Z.

(** One turn of the loop at index [S i1]: the message is archived, or
    kept, or kept together with its predecessor (which the loop then
    steps over). *)
Lemma scan_cases (i1 : nat) (st : scan_state) :
  (needsPreviousMessage messages (S i1) = false /\
   (maxMessages - 1 <= Z.of_nat (length (selected st)) \/
    maxTokens < usedTokens st + estimateTokensFromMessage (messages !! S i1)) /\
   scan messages maxMessages maxTokens (S i1) st = scan messages maxMessages maxTokens i1 (skip messages st (S i1)))
  \/
  (((needsPreviousMessage messages (S i1) = true /\ i1 ∈ selected (keep messages st (S i1))) \/
    (needsPreviousMessage messages (S i1) = false /\ Z.of_nat (length (selected st)) < maxMessages - 1 /\
     usedTokens st + estimateTokensFromMessage (messages !! S i1) <= maxTokens)) /\
   scan messages maxMessages maxTokens (S i1) st = scan messages maxMessages maxTokens i1 (keep messages st (S i1)))
  \/
  (exists i2, i1 = S i2 /\ hasToolResults (messages !! S i1) = true /\
     scan messages maxMessages maxTokens (S i1) st = scan messages maxMessages maxTokens i2 (keep messages (keep messages st (S i1)) i1)).
Proof.
  cbn [scan].
  destruct (needsPreviousMessage messages (S i1)) eqn:Hn; cbn [negb andb].
  - rewrite !andb_false_r. case_bool_decide as Hin; cbn [negb].
    + right; left. split; [by left | done].
    + right; right. unfold needsPreviousMessage in Hn.
      apply andb_true_iff in Hn as [Htr Hi]. apply bool_decide_eq_true_1 in Hi.
      destruct i1 as [| i2]; [lia |]. by exists i2.
  - rewrite !andb_true_r.
    destruct (maxMessages - 1 <=? _) eqn:E1.
    { left. split; [done |]. split; [left; lia | done]. }
    destruct (maxTokens <? _) eqn:E2.
    { left. split; [done |]. split; [right; lia | done]. }
    right; left. split; [right; split_and!; [done | lia | lia] | done].
Qed.

(** The scan only appends to [selected], and what it appends are
    positions between 1 and the index it started from. *)
Lemma scan_selected (i : nat) (st : scan_state) :
  exists added,
    selected (scan messages maxMessages maxTokens i st) = selected st ++ added /\
    Forall (fun p => (1 <= p <= i)%nat) added.
Proof.
  revert st. induction i as [i IH] using lt_wf_ind. intros st.
  destruct i as [| i1]; [exists []; by rewrite app_nil_r |].
  destruct (scan_cases i1 st) as [(_ & _ & ->) | [(_ & ->) | (i2 & -> & _ & ->)]].
  - destruct (IH i1 ltac:(lia) (skip messages st (S i1))) as (a & -> & Ha).
    exists a. split; [done |]. eapply Forall_impl; [exact Ha |]. simpl; lia.
  - destruct (IH i1 ltac:(lia) (keep messages st (S i1))) as (a & -> & Ha).
    exists (S i1 :: a). simpl. rewrite <- app_assoc. split; [done |].
    constructor; [lia |]. eapply Forall_impl; [exact Ha |]. simpl; lia.
  - destruct (IH i2 ltac:(lia)
                (keep messages (keep messages st (S (S i2))) (S i2)))
      as (a & -> & Ha).
    exists (S (S i2) :: S i2 :: a). simpl. rewrite <- !app_assoc. split; [done |].
    repeat (constructor; [lia |]). eapply Forall_impl; [exact Ha |]. simpl; lia.
Qed.

Lemma scan_selected_mono (i : nat) (st : scan_state) (p : nat) :
  p ∈ selected st -> p ∈ selected (scan messages maxMessages maxTokens i st).
Proof.
  intros Hp. destruct (scan_selected i st) as (a & -> & _).
  apply elem_of_app. by left.
Qed.

Lemma scan_selected_pos (i : nat) (st : scan_state) :
  0%nat ∉ selected st -> 0%nat ∉ selected (scan messages maxMessages maxTokens i st).
Proof.
  intros Hp. destruct (scan_selected i st) as (a & -> & Ha).
  rewrite elem_of_app. intros [? | Hin]; [done |].
  rewrite Forall_forall in Ha. apply Ha in Hin. lia.
Qed.

(** Without a forced keep, the scan stops keeping at [maxMessages - 1]. *)
Lemma scan_length_no_results (i : nat) (st : scan_state) :
  (forall j, (1 < j)%nat -> hasToolResults (messages !! j) = false) ->
  Z.of_nat (length (selected (scan messages maxMessages maxTokens i st)))
  <= Z.max (Z.of_nat (length (selected st))) (maxMessages - 1).
Proof.
  intros Hno. revert st. induction i as [i IH] using lt_wf_ind. intros st.
  destruct i as [| i1]; [simpl; lia |].
  assert (Hn : needsPreviousMessage messages (S i1) = false).
  { unfold needsPreviousMessage. case_bool_decide; [| by rewrite andb_false_r].
    by rewrite Hno. }
  destruct (scan_cases i1 st) as [(_ & _ & ->) | [(Hc & ->) | (i2 & -> & Htr & _)]].
  - etransitivity; [apply (IH i1); lia | simpl; lia].
  - destruct Hc as [[Hc _] | (_ & Hc & _)]; [congruence |].
    etransitivity; [apply (IH i1); lia |]. simpl.
    rewrite length_app. simpl. lia.
  - rewrite Hno in Htr by lia. discriminate.
Qed.

(** Adjacency override: a message with tool results at an index above 1
    that is not stepped over (the next message has no tool results) is
    kept together with its predecessor, whatever the ceiling and the
    budget. *)
Lemma scan_keeps_pair (n : nat) (st : scan_state) (i : nat) :
  (1 < i <= n)%nat ->
  hasToolResults (messages !! i) = true ->
  hasToolResults (messages !! S i) = false ->
  i ∈ selected (scan messages maxMessages maxTokens n st) /\ (i - 1)%nat ∈ selected (scan messages maxMessages maxTokens n st).
Proof.
  intros Hi Htr Hnext. revert st Hi.
  induction n as [n IH] using lt_wf_ind. intros st Hi.
  destruct n as [| n1]; [lia |].
  destruct (decide (i = S n1)) as [-> | Hne].
  - assert (Hn : needsPreviousMessage messages (S n1) = true).
    { unfold needsPreviousMessage. rewrite Htr. cbn [andb]. apply bool_decide_eq_true_2. lia. }
    destruct (scan_cases n1 st) as [(Hc & _) | [(Hc & ->) | (i2 & -> & _ & ->)]].
    + congruence.
    + destruct Hc as [[_ Hin] | [Hc _]]; [| congruence].
      replace (S n1 - 1)%nat with n1 by lia.
      split; apply scan_selected_mono; [| done].
      simpl. apply elem_of_app. right. by apply list_elem_of_singleton.
    + replace (S (S i2) - 1)%nat with (S i2) by lia.
      split; apply scan_selected_mono; simpl; rewrite !elem_of_app;
        [left; right | right]; by apply list_elem_of_singleton.
  - destruct (scan_cases n1 st) as [(_ & _ & ->) | [(_ & ->) | (i2 & -> & Htr' & ->)]].
    + apply (IH n1); lia.
    + apply (IH n1); lia.
    + destruct (decide (i = S i2)) as [-> | Hne2]; [congruence |].
      apply (IH i2); lia.
Qed.
End Scan.

(** ** pruneMessages as a whole *)

Lemma repair_sub (rest : list nat) (h : list message) (prev : nat) :
  (repair h prev rest).2 `sublist_of` rest.
Proof.
  revert h prev. induction rest as [| r rest IH]; intros h prev; simpl; [done |].
  destruct (hasToolResults (h !! r) && negb (hasToolUses (h !! prev))).
  - destruct (h !! r) as [m |].
    + destruct (content_length_is_zero (strip_tool_results m)).
      * apply sublist_cons, IH.
      * specialize (IH (<[r := strip_tool_results m]> h) r).
        destruct (repair _ r rest); simpl in *. by apply sublist_skip.
    + specialize (IH h r). destruct (repair h r rest); simpl in *.
      by apply sublist_skip.
  - specialize (IH h r). destruct (repair h r rest); simpl in *.
    by apply sublist_skip.
Qed.

Lemma repair_pass_sub (h : list message) (pruned : list nat) :
  (repair_pass h pruned).2 `sublist_of` pruned.
Proof.
  destruct pruned as [| p0 rest]; simpl; [done |].
  pose proof (repair_sub rest h p0). destruct (repair h p0 rest); simpl in *.
  by apply sublist_skip.
Qed.

Lemma repair_pass_head (h : list message) (p0 : nat) (rest : list nat) :
  head (repair_pass h (p0 :: rest)).2 = Some p0 /\
  (p0 ∉ rest -> (repair_pass h (p0 :: rest)).1 !! p0 = h !! p0).
Proof.
  simpl. pose proof (repair_store rest h p0 p0) as (_ & _ & Hst).
  destruct (repair h p0 rest); simpl in *. done.
Qed.

Lemma trimmed_eq (messages : list message) (maxMessages maxTokens : Z) :
  trimmed messages maxMessages maxTokens =
    let pruned := 0%nat :: reverse (scanned messages maxMessages maxTokens) in
    if maxMessages <? Z.of_nat (length pruned)
    then js_slice pruned (- maxMessages) None
    else pruned.
Proof.
  unfold trimmed, trim_overflow, scanned. cbv zeta.
  by destruct (maxMessages <? _).
Qed.

Lemma pruneMessages_main (messages : list message) (maxMessages maxTokens : Z) :
  messages <> [] ->
  estimateTokensFromMessage (messages !! 0%nat) <= maxTokens ->
  let r := pruneMessages messages maxMessages maxTokens in
  let rp := repair_pass messages (trimmed messages maxMessages maxTokens) in
  store r = rp.1 /\
  prunedMessages r =
    if maxMessages <? Z.of_nat (length rp.2)
    then js_slice rp.2 (- maxMessages) None else rp.2.
Proof.
  intros Hne Hfit. unfold pruneMessages, trimmed.
  destruct messages as [| m0 ms]; [done |]. cbn [length Nat.eqb].
  destruct (maxTokens <? _) eqn:E; [lia |]. clear E. cbv zeta.
  destruct (trim_overflow _ _ _ _) as [pruned1 archived1]. cbn [fst].
  destruct (repair_pass _ _) as [h out]. cbn [fst snd].
  by destruct (maxMessages <? Z.of_nat (length out)).
Qed.

Lemma pruneMessages_early (messages : list message) (maxMessages maxTokens : Z) :
  messages <> [] ->
  maxTokens < estimateTokensFromMessage (messages !! 0%nat) ->
  pruneMessages messages maxMessages maxTokens = PruneResult [0%nat] [] messages.
Proof.
  intros Hne Hfit. unfold pruneMessages.
  destruct messages as [| m0 ms]; [done |]. cbn [length Nat.eqb].
  destruct (maxTokens <? _) eqn:E; [done | lia].
Qed.

Lemma trimmed_length (messages : list message) (maxMessages maxTokens : Z) :
  1 <= maxMessages ->
  Z.of_nat (length (trimmed messages maxMessages maxTokens)) <= maxMessages.
Proof.
  intros Hmm. rewrite trimmed_eq. cbv zeta.
  destruct (maxMessages <? _) eqn:E; [by apply js_slice_length_le | lia].
Qed.

(** No more messages than the ceiling come back. *)
Lemma pruneMessages_length (messages : list message) (maxMessages maxTokens : Z) :
  1 <= maxMessages ->
  Z.of_nat (length (prunedMessages (pruneMessages messages maxMessages maxTokens)))
  <= maxMessages.
Proof.
  intros Hmm. destruct (decide (messages = [])) as [-> | Hne]; [simpl; lia |].
  destruct (Z.lt_ge_cases maxTokens (estimateTokensFromMessage (messages !! 0%nat)))
    as [Hover | Hfit].
  - rewrite pruneMessages_early by done. simpl. lia.
  - destruct (pruneMessages_main messages maxMessages maxTokens Hne Hfit) as [_ ->].
    destruct (maxMessages <? _) eqn:E; [by apply js_slice_length_le | lia].
Qed.

Lemma pruneMessages_adjacent_ok (messages : list message) (maxMessages maxTokens : Z) :
  let r := pruneMessages messages maxMessages maxTokens in
  adjacent_ok (store r) (prunedMessages r).
Proof.
  intros r. subst r.
  destruct (decide (messages = [])) as [-> | Hne].
  { intros i p q Hp. by destruct i. }
  destruct (Z.lt_ge_cases maxTokens (estimateTokensFromMessage (messages !! 0%nat)))
    as [Hover | Hfit].
  { rewrite pruneMessages_early by done. intros i p q Hp Hq. by destruct i. }
  destruct (pruneMessages_main messages maxMessages maxTokens Hne Hfit) as [-> ->].
  pose proof (repair_pass_adjacent messages (trimmed messages maxMessages maxTokens)) as Hadj.
  destruct (maxMessages <? _); [| done].
  rewrite js_slice_suffix. by apply adjacent_ok_drop.
Qed.

(** ** Adjacency in the returned list *)

(** In the list that [pruneMessages] returns, every message after the
    first that holds a tool result stands right after a message that holds
    a tool use: this is what the repair pass, which starts at the second
    message and does not compare ids, establishes for every history. *)
Lemma pruneMessages_adjacency (messages : list message) (maxMessages maxTokens : Z)
    (i : nat) (prev msg : option message) :
  let out := returned (pruneMessages messages maxMessages maxTokens) in
  out !! i = Some prev ->
  out !! S i = Some msg ->
  hasToolResults msg = true ->
  hasToolUses prev = true.
Proof.
  intros out Hp Hq Htr. subst out. unfold returned in *.
  rewrite list_lookup_fmap in Hp, Hq.
  destruct (prunedMessages _ !! i) as [p |] eqn:Ep; [| discriminate].
  destruct (prunedMessages _ !! S i) as [q |] eqn:Eq; [| discriminate].
  simpl in *. simplify_eq.
  eapply (pruneMessages_adjacent_ok messages maxMessages maxTokens); eauto.
Qed.

(** ** C4 *)

(** C4: for a non-empty history and a ceiling of at least 1, the returned
    list is no longer than the ceiling. *)
Theorem pruneMessages_length_le_maxMessages
    (messages : list message) (maxMessages maxTokens : Z) :
  messages <> [] ->
  1 <= maxMessages ->
  Z.of_nat (length (prunedMessages (pruneMessages messages maxMessages maxTokens)))
  <= maxMessages.
Proof. intros _. apply pruneMessages_length. Qed.

Lemma pruneMessages_length_le_maxMessages_witness :
  Z.of_nat (length (prunedMessages
    (pruneMessages (agent_history 30) 50 MAX_PROMPT_TOKEN_BUDGET))) <= 50.
Proof.
  apply pruneMessages_length_le_maxMessages; [discriminate | lia].
Defined.

(** ** C2 *)

Lemma scanned_pos (messages : list message) (maxMessages maxTokens : Z) :
  0%nat ∉ scanned messages maxMessages maxTokens.
Proof. unfold scanned. apply scan_selected_pos. simpl. apply not_elem_of_nil. Qed.

Lemma pruneMessages_sub_trimmed (messages : list message) (maxMessages maxTokens : Z) :
  messages <> [] ->
  estimateTokensFromMessage (messages !! 0%nat) <= maxTokens ->
  prunedMessages (pruneMessages messages maxMessages maxTokens)
    `sublist_of` trimmed messages maxMessages maxTokens.
Proof.
  intros Hne Hfit.
  destruct (pruneMessages_main messages maxMessages maxTokens Hne Hfit) as [_ ->].
  etransitivity; [| apply repair_pass_sub].
  destruct (maxMessages <? _); [| done].
  rewrite js_slice_suffix. apply sublist_drop.
Qed.

(** When [message[0]] is returned. For a non-empty history and a ceiling
    of at least 1,
    - if message[0] alone exceeds the budget, the result is [message[0]]
      and nothing else, untouched;
    - otherwise message[0] is returned, in first place and untouched, exactly
      when the backward scan kept fewer than [maxMessages] messages; when it
      kept [maxMessages] or more (which takes a forced keep), the trim to
      the last [maxMessages] entries drops message[0];
    - the scan keeps fewer than [maxMessages] whenever no message after
      index 1 holds a tool result. *)
Lemma pruneMessages_first_message
    (messages : list message) (maxMessages maxTokens : Z) :
  messages <> [] ->
  1 <= maxMessages ->
  let r := pruneMessages messages maxMessages maxTokens in
  let first := estimateTokensFromMessage (messages !! 0%nat) in
  let kept := Z.of_nat (length (scanned messages maxMessages maxTokens)) in
  (maxTokens < first -> prunedMessages r = [0%nat] /\ store r = messages) /\
  (first <= maxTokens -> kept < maxMessages ->
     head (prunedMessages r) = Some 0%nat /\ store r !! 0%nat = messages !! 0%nat) /\
  (first <= maxTokens -> maxMessages <= kept -> 0%nat ∉ prunedMessages r) /\
  ((forall j, (1 < j)%nat -> hasToolResults (messages !! j) = false) ->
     kept < maxMessages).
Proof.
  intros Hne Hmm r first kept. subst r first kept. split_and!.
  - intros Hover. by rewrite pruneMessages_early.
  - intros Hfit Hkept.
    destruct (pruneMessages_main messages maxMessages maxTokens Hne Hfit) as [-> ->].
    assert (Ht : trimmed messages maxMessages maxTokens
                 = 0%nat :: reverse (scanned messages maxMessages maxTokens)).
    { rewrite trimmed_eq. cbv zeta.
      destruct (maxMessages <? _) eqn:E; [| done].
      exfalso. cbn [length] in E. rewrite length_reverse in E. apply Z.ltb_lt in E. lia. }
    rewrite Ht.
    destruct (repair_pass_head messages 0%nat
                (reverse (scanned messages maxMessages maxTokens))) as [Hhd Hst].
    pose proof (sublist_length _ _
      (repair_pass_sub messages (0%nat :: reverse (scanned messages maxMessages maxTokens))))
      as Hlen.
    cbn [length] in Hlen. rewrite length_reverse in Hlen.
    destruct (maxMessages <? _) eqn:E; [apply Z.ltb_lt in E; lia |].
    split; [done |]. apply Hst. rewrite elem_of_reverse. apply scanned_pos.
  - intros Hfit Hkept Hin.
    eapply elem_of_sublist in Hin; [| by apply pruneMessages_sub_trimmed].
    rewrite trimmed_eq in Hin. cbv zeta in Hin.
    destruct (maxMessages <? _) eqn:E.
    2:{ exfalso. cbn [length] in E. rewrite length_reverse in E. apply Z.ltb_ge in E. lia. }
    rewrite js_slice_suffix in Hin. unfold js_rel_index in Hin.
    destruct (- maxMessages <? 0) eqn:E2; [| lia].
    cbn [length] in Hin. rewrite length_reverse in Hin.
    replace (Z.to_nat _) with
      (S (length (scanned messages maxMessages maxTokens) - Z.to_nat maxMessages))
      in Hin by lia.
    simpl in Hin. eapply elem_of_sublist in Hin; [| apply sublist_drop].
    rewrite elem_of_reverse in Hin. by apply scanned_pos in Hin.
  - intros Hno. unfold scanned.
    pose proof (scan_length_no_results messages maxMessages maxTokens
                  (length messages - 1)
                  (ScanState [] (estimateTokensFromMessage (messages !! 0%nat)) [])
                  Hno) as Hlen.
    simpl in Hlen. lia.
Qed.


(** C2. The task is lost. The pruner sets [message[0]] apart before the
    scan, leaves a place for it under the ceiling ([maxMessages - 1]), puts
    it back in front of the kept messages and returns it even when it is
    over the budget; the trim to the last [maxMessages] entries then cuts
    it off when the forced keeps have filled the list. The history of a
    run after 25 tool rounds (the task and 25 calls with their answers, 51
    messages, far below the budget) is pruned with the ceiling 50 before
    it is sent to the model: all 50 messages after the task are kept, and
    the list comes back as these 50, the first call in front and the task
    gone. *)
Theorem pruneMessages_drops_first_message :
  let messages := agent_history 25 in
  let r := pruneMessages messages 50 MAX_PROMPT_TOKEN_BUDGET in
  length messages = 51%nat
  /\ estimateTokensFromMessage (messages !! 0%nat) <= MAX_PROMPT_TOKEN_BUDGET
  /\ length (scanned messages 50 MAX_PROMPT_TOKEN_BUDGET) = 50%nat
  /\ prunedMessages r = seq 1 50
  /\ store r = messages
  /\ head (returned r) = Some (Some (call_message "t1"))
  /\ ~ retains_first messages 50 MAX_PROMPT_TOKEN_BUDGET.
Proof.
  intros messages r. subst messages r. split_and!.
  - reflexivity.
  - vm_compute. discriminate.
  - vm_compute. reflexivity.
  - vm_compute. reflexivity.
  - vm_compute. reflexivity.
  - vm_compute. reflexivity.
  - unfold retains_first. cbv zeta.
    destruct (decide _) as [Hover | _]; [vm_compute in Hover; discriminate |].
    intros Hin. apply list_elem_of_In in Hin. vm_compute in Hin.
    repeat (destruct Hin as [Hin | Hin]; [discriminate |]). exact Hin.
Qed.

(** ** The pair after the trim *)

Section ScanOrder.
Variable messages : list message.
Variables maxMessages maxTokens : Z.

Lemma descending_snoc (l : list nat) (x : nat) :
  descending l -> Forall (fun p => (x < p)%nat) l -> descending (l ++ [x]).
Proof.
  unfold descending. induction l as [| y l IH]; simpl; intros Hs Hall.
  - repeat constructor.
  - apply StronglySorted_inv in Hs as [Hl Hy].
    apply Forall_cons in Hall as [Hxy Hall].
    constructor; [by apply IH |].
    apply Forall_app. split; [done |]. by constructor.
Qed.

Lemma descending_NoDup (l : list nat) : descending l -> NoDup l.
Proof.
  unfold descending. induction 1 as [| x l Hl IH Hx]; constructor; [| done].
  intros Hin. rewrite Forall_forall in Hx. apply Hx in Hin. lia.
Qed.

Lemma scan_descending (n : nat) (st : scan_state) :
  Forall (fun p => (n < p)%nat) (selected st) ->
  descending (selected st) ->
  descending (selected (scan messages maxMessages maxTokens n st)).
Proof.
  revert st. induction n as [n IH] using lt_wf_ind. intros st Hall Hs.
  destruct n as [| n1]; [done |].
  assert (Hweak : forall m, (m <= S n1)%nat -> Forall (fun p => (m < p)%nat) (selected st)).
  { intros m Hm. eapply Forall_impl; [exact Hall |]. simpl; lia. }
  destruct (scan_cases messages maxMessages maxTokens n1 st)
    as [(_ & _ & ->) | [(_ & ->) | (i2 & -> & _ & ->)]].
  - apply (IH n1); [lia | apply Hweak; lia | done].
  - apply (IH n1); [lia | |].
    + simpl. apply Forall_app. split; [apply Hweak; lia |]. constructor; [lia | done].
    + simpl. by apply descending_snoc.
  - apply (IH i2); [lia | |].
    + simpl. rewrite !Forall_app. split_and!; [apply Hweak; lia | |];
        (constructor; [lia | done]).
    + simpl. apply descending_snoc.
      * by apply descending_snoc.
      * apply Forall_app. split; [apply Hweak; lia |]. constructor; [lia | done].
Qed.

(** The forced keep puts the predecessor right after the message. *)
Lemma scan_keeps_pair_adjacent (n : nat) (st : scan_state) (i : nat) :
  Forall (fun p => (n < p)%nat) (selected st) ->
  (1 < i <= n)%nat ->
  hasToolResults (messages !! i) = true ->
  hasToolResults (messages !! S i) = false ->
  exists l1 l2, selected (scan messages maxMessages maxTokens n st) = l1 ++ i :: (i - 1)%nat :: l2.
Proof.
  intros Hall Hi Htr Hnext. revert st Hall Hi.
  induction n as [n IH] using lt_wf_ind. intros st Hall Hi.
  destruct n as [| n1]; [lia |].
  assert (Hweak : forall m, (m <= S n1)%nat -> Forall (fun p => (m < p)%nat) (selected st)).
  { intros m Hm. eapply Forall_impl; [exact Hall |]. simpl; lia. }
  destruct (decide (i = S n1)) as [-> | Hne].
  - destruct (scan_cases messages maxMessages maxTokens n1 st)
      as [(Hc & _) | [(Hc & _) | (i2 & -> & _ & Heq)]].
    + unfold needsPreviousMessage in Hc. rewrite Htr in Hc. simpl in Hc.
      apply bool_decide_eq_false_1 in Hc; lia.
    + exfalso. destruct Hc as [[_ Hin] | [Hc _]].
      * simpl in Hin. apply elem_of_app in Hin as [Hin | Hin].
        -- rewrite Forall_forall in Hall. apply Hall in Hin. lia.
        -- apply list_elem_of_singleton in Hin. lia.
      * unfold needsPreviousMessage in Hc. rewrite Htr in Hc. simpl in Hc.
        apply bool_decide_eq_false_1 in Hc; lia.
    + rewrite Heq.
      destruct (scan_selected messages maxMessages maxTokens i2
                  (keep messages (keep messages st (S (S i2))) (S i2)))
        as (added & -> & _).
      exists (selected st), added. simpl. rewrite <- !app_assoc. simpl.
      by replace (i2 - 0)%nat with i2 by lia.
  - destruct (scan_cases messages maxMessages maxTokens n1 st)
      as [(_ & _ & Heq) | [(_ & Heq) | (i2 & -> & Htr' & Heq)]];
      rewrite Heq.
    + apply (IH n1); [lia | apply Hweak; lia | lia].
    + apply (IH n1); [lia | | lia].
      simpl. apply Forall_app. split; [apply Hweak; lia |]. constructor; [lia | done].
    + destruct (decide (i = S i2)) as [-> | Hne2]; [congruence |].
      apply (IH i2); [lia | | lia].
      simpl. rewrite !Forall_app. split_and!; [apply Hweak; lia | |];
        (constructor; [lia | done]).
Qed.
End ScanOrder.

Lemma strip_keeps_tool_use (m : message) :
  hasToolUses (Some m) = true ->
  content_length_is_zero (strip_tool_results m) = false.
Proof.
  destruct m as [r [s | bs]]; [done |]. unfold strip_tool_results. simpl.
  induction bs as [| b bs IH]; [done |]. simpl. rewrite filter_cons.
  destruct b; simpl; try done; try case_decide; try done; by apply IH.
Qed.

Lemma repair_cons (h : list message) (prev r : nat) (rest : list nat) :
  repair h prev (r :: rest) =
    if hasToolResults (h !! r) && negb (hasToolUses (h !! prev)) then
      match h !! r with
      | Some m =>
          if content_length_is_zero (strip_tool_results m)
          then repair (<[r := strip_tool_results m]> h) prev rest
          else let '(h'', out) := repair (<[r := strip_tool_results m]> h) r rest in
               (h'', r :: out)
      | None => let '(h'', out) := repair h r rest in (h'', r :: out)
      end
    else let '(h'', out) := repair h r rest in (h'', r :: out).
Proof. reflexivity. Qed.

(** The element after one that holds a tool use stays. *)
Lemma repair_head_kept (h : list message) (p q : nat) (rest : list nat) :
  hasToolUses (h !! p) = true ->
  q ∈ (repair h p (q :: rest)).2.
Proof.
  intros Hp. rewrite repair_cons, Hp, andb_false_r.
  destruct (repair h q rest). apply list_elem_of_here.
Qed.

Lemma repair_keeps_next (l : list nat) (h : list message) (prev p q : nat)
    (rest : list nat) :
  hasToolUses (h !! p) = true ->
  p ∈ (repair h prev (l ++ p :: q :: rest)).2 /\
  q ∈ (repair h prev (l ++ p :: q :: rest)).2.
Proof.
  revert h prev. induction l as [| r l IH]; intros h prev Hp.
  - cbn [app]. rewrite repair_cons.
    assert (Hkeep : forall h', hasToolUses (h' !! p) = true ->
              p ∈ (let '(h'', out) := repair h' p (q :: rest) in (h'', p :: out)).2 /\
              q ∈ (let '(h'', out) := repair h' p (q :: rest) in (h'', p :: out)).2).
    { intros h' Hp'. pose proof (repair_head_kept h' p q rest Hp') as Hq.
      destruct (repair h' p (q :: rest)). simpl in *.
      split; [apply list_elem_of_here | by apply list_elem_of_further]. }
    destruct (hasToolResults (h !! p) && negb (hasToolUses (h !! prev))); [| by apply Hkeep].
    destruct (h !! p) as [m |] eqn:Hm; [| simpl in Hp; discriminate].
    rewrite (strip_keeps_tool_use m Hp). apply Hkeep.
    rewrite list_lookup_insert_eq by (eapply lookup_lt_Some; eauto).
    by rewrite hasToolUses_strip.
  - cbn [app]. rewrite repair_cons.
    assert (Hskip : forall h' prev', hasToolUses (h' !! p) = true ->
              p ∈ (let '(h'', out) := repair h' prev' (l ++ p :: q :: rest) in (h'', r :: out)).2 /\
              q ∈ (let '(h'', out) := repair h' prev' (l ++ p :: q :: rest) in (h'', r :: out)).2).
    { intros h' prev' Hp'. destruct (IH h' prev' Hp') as [H1 H2].
      destruct (repair h' prev' (l ++ p :: q :: rest)). simpl in *.
      split; by apply list_elem_of_further. }
    destruct (hasToolResults (h !! r) && negb (hasToolUses (h !! prev))); [| by apply Hskip].
    destruct (h !! r) as [m |] eqn:Hm; [| by apply Hskip].
    assert (Hp' : hasToolUses (<[r := strip_tool_results m]> h !! p) = true)
      by (by rewrite strip_store_uses).
    destruct (content_length_is_zero (strip_tool_results m)); [by apply IH | by apply Hskip].
Qed.

Lemma repair_pass_keeps_pair (h : list message) (l : list nat) (p q : nat)
    (rest : list nat) :
  hasToolUses (h !! p) = true ->
  p ∈ (repair_pass h (l ++ p :: q :: rest)).2 /\
  q ∈ (repair_pass h (l ++ p :: q :: rest)).2.
Proof.
  intros Hp. destruct l as [| p0 l]; cbn [app repair_pass].
  - pose proof (repair_head_kept h p q rest Hp) as Hq.
    destruct (repair h p (q :: rest)). simpl in *.
    split; [apply list_elem_of_here | by apply list_elem_of_further].
  - destruct (repair_keeps_next l h p0 p q rest Hp) as [H1 H2].
    destruct (repair h p0 (l ++ p :: q :: rest)). simpl in *.
    split; by apply list_elem_of_further.
Qed.

(** A suffix that holds [x] holds all that follows [x]. *)
Lemma drop_keeps_tail {A} (k : nat) (l1 l2 : list A) (x : A) :
  NoDup (l1 ++ x :: l2) ->
  x ∈ drop k (l1 ++ x :: l2) ->
  drop k (l1 ++ x :: l2) = drop k l1 ++ x :: l2.
Proof.
  intros Hnd Hin. destruct (decide (k <= length l1)%nat) as [Hle | Hgt].
  - rewrite drop_app_le by done. done.
  - exfalso. rewrite drop_app_ge in Hin by lia.
    destruct (k - length l1)%nat as [| k'] eqn:E; [lia |]. simpl in Hin.
    apply NoDup_app in Hnd as (_ & _ & Hnd). apply NoDup_cons in Hnd as [Hx _].
    apply Hx. eapply elem_of_sublist; [exact Hin | apply sublist_drop].
Qed.

(** When the message before still lies in the trimmed list and holds a
    tool use, it is returned, and so is the message with the tool
    results. *)
Lemma pruneMessages_keeps_pair (messages : list message) (maxMessages maxTokens : Z)
    (i : nat) :
  estimateTokensFromMessage (messages !! 0%nat) <= maxTokens ->
  1 <= maxMessages ->
  (1 < i < length messages)%nat ->
  hasToolResults (messages !! i) = true ->
  hasToolResults (messages !! S i) = false ->
  hasToolUses (messages !! (i - 1)%nat) = true ->
  (i - 1)%nat ∈ trimmed messages maxMessages maxTokens ->
  let r := pruneMessages messages maxMessages maxTokens in
  (i - 1)%nat ∈ prunedMessages r /\ i ∈ prunedMessages r.
Proof.
  intros Hfit Hmm Hi Htr Hnext Htu Hin r. subst r.
  assert (Hne : messages <> []) by (intros ->; simpl in Hi; lia).
  destruct (pruneMessages_main messages maxMessages maxTokens Hne Hfit) as [_ ->].
  pose proof (sublist_length _ _
    (repair_pass_sub messages (trimmed messages maxMessages maxTokens))) as Hlen.
  pose proof (trimmed_length messages maxMessages maxTokens Hmm) as Hlen'.
  destruct (maxMessages <? _) eqn:E; [apply Z.ltb_lt in E; lia |]. clear E Hlen Hlen'.
  set (st0 := ScanState [] (estimateTokensFromMessage (messages !! 0%nat)) []).
  destruct (scan_keeps_pair_adjacent messages maxMessages maxTokens
              (length messages - 1) st0 i) as (l1 & l2 & Hsel);
    [constructor | lia | done | done |].
  pose proof (scan_descending messages maxMessages maxTokens
                (length messages - 1) st0 (Forall_nil_2 _)
                (SSorted_nil _)) as Hdesc.
  pose proof (scanned_pos messages maxMessages maxTokens) as Hpos.
  unfold scanned in Hpos. fold st0 in Hpos.
  assert (Hlist : 0%nat :: reverse (scanned messages maxMessages maxTokens)
                  = (0%nat :: reverse l2) ++ (i - 1)%nat :: i :: reverse l1).
  { unfold scanned. fold st0. rewrite Hsel.
    rewrite reverse_app, !reverse_cons, <- !app_assoc. done. }
  assert (Hnd : NoDup ((0%nat :: reverse l2) ++ (i - 1)%nat :: i :: reverse l1)).
  { rewrite <- Hlist. constructor.
    - rewrite elem_of_reverse. unfold scanned. by fold st0.
    - rewrite reverse_Permutation. apply descending_NoDup. unfold scanned. by fold st0. }
  assert (Htrim : exists l, trimmed messages maxMessages maxTokens
                            = l ++ (i - 1)%nat :: i :: reverse l1).
  { rewrite trimmed_eq in Hin |- *. cbv zeta in *. rewrite Hlist in Hin |- *.
    destruct (maxMessages <? _); [| eauto].
    rewrite js_slice_suffix in Hin |- *.
    rewrite (drop_keeps_tail _ _ _ _ Hnd Hin). eauto. }
  destruct Htrim as [l ->]. by apply repair_pass_keeps_pair.
Qed.
(** ** C3 *)

(** C3. The pair that the scan keeps beyond the ceiling is split by the
    trim. The scan keeps a message with tool results together with the
    message before it whatever the ceiling (the comments of the source: the
    previous message MUST be kept too), so the kept list may be longer
    than the ceiling; the trim to the last [maxMessages] entries that
    follows cuts such a list without regard to the pairs, and the repair
    pass does not look at the first entry. Never are 51 messages returned.
    - The history of a run after 25 tool rounds, pruned with the ceiling
      49 before it is stored: the scan keeps all 50 messages after the
      task, the first call and its answer among them; the list comes back
      as the last 49 messages, the call at position 1 cut off and its
      answer in first place with its tool result.
    - A tool round followed by 49 plain messages, pruned with the ceiling
      50: the list comes back as the last 50 messages, again without the
      call and with its answer in first place. *)
Theorem pruneMessages_splits_forced_pair :
  (let messages := agent_history 25 in
   let r := pruneMessages messages 49 MAX_PROMPT_TOKEN_BUDGET in
   (1%nat ∈ scanned messages 49 MAX_PROMPT_TOKEN_BUDGET
    /\ 2%nat ∈ scanned messages 49 MAX_PROMPT_TOKEN_BUDGET)
   /\ length (scanned messages 49 MAX_PROMPT_TOKEN_BUDGET) = 50%nat
   /\ prunedMessages r = seq 2 49
   /\ head (returned r) = Some (Some (answer_message "t1"))
   /\ hasToolResults (Some (answer_message "t1")) = true)
  /\ (let messages := straddle_history 49 in
      let r := pruneMessages_default messages in
      (1%nat ∈ scanned messages 50 MAX_PROMPT_TOKEN_BUDGET
       /\ 2%nat ∈ scanned messages 50 MAX_PROMPT_TOKEN_BUDGET)
      /\ prunedMessages r = seq 2 50
      /\ head (returned r) = Some (Some (answer_message "t1"))
      /\ ~ pair_kept_beyond_ceiling messages).
Proof.
  split.
  - intros messages r. subst messages r. split_and!.
    + apply list_elem_of_In. vm_compute. tauto.
    + apply list_elem_of_In. vm_compute. tauto.
    + vm_compute. reflexivity.
    + vm_compute. reflexivity.
    + vm_compute. reflexivity.
    + reflexivity.
  - intros messages r. subst messages r. split_and!.
    + apply list_elem_of_In. vm_compute. tauto.
    + apply list_elem_of_In. vm_compute. tauto.
    + vm_compute. reflexivity.
    + vm_compute. reflexivity.
    + intros (_ & _ & Hlen). vm_compute in Hlen. discriminate.
Qed.

(** ** Filters *)

Lemma filter_all {A} (P : A -> Prop) `{!forall x, Decision (P x)} (l : list A) :
  (forall x, x ∈ l -> P x) -> filter P l = l.
Proof.
  induction l as [| x l IH]; intros Hall; [done |].
  rewrite filter_cons_True by (apply Hall, list_elem_of_here).
  f_equal. apply IH. intros y Hy. apply Hall. by apply list_elem_of_further.
Qed.

Lemma filter_none {A} (P : A -> Prop) `{!forall x, Decision (P x)} (l : list A) :
  (forall x, x ∈ l -> ~ P x) -> filter P l = [].
Proof.
  induction l as [| x l IH]; intros Hall; [done |].
  rewrite filter_cons_False by (apply Hall, list_elem_of_here).
  apply IH. intros y Hy. apply Hall. by apply list_elem_of_further.
Qed.

(** ** The cache as a Map *)

Section MapFacts.
Context {V : Type}.
Implicit Types m : list (string * V).

Lemma Map_get_Some_elem k v m : Map_get k m = Some v -> (k, v) ∈ m.
Proof.
  induction m as [| [k' v'] m IH]; simpl; [done |].
  destruct (String.eqb_spec k' k) as [-> | Hne].
  - intros [= ->]. apply list_elem_of_here.
  - intros H. apply list_elem_of_further. auto.
Qed.

Lemma Map_get_None k m : Map_get k m = None <-> k ∉ Map_keys m.
Proof.
  unfold Map_keys. induction m as [| [k' v'] m IH]; simpl.
  - split; [intros _; apply not_elem_of_nil | done].
  - rewrite not_elem_of_cons. destruct (String.eqb_spec k' k) as [-> | Hne].
    + split; [done | intros [? _]; done].
    + rewrite IH. split; [intros ?; split; [congruence | done] | intros [_ ?]; done].
Qed.

Lemma Map_set_keys k v m :
  Map_keys (Map_set k v m)
  = if Map_has k m then Map_keys m else Map_keys m ++ [k].
Proof.
  unfold Map_has, Map_keys. induction m as [| [k' v'] m IH]; simpl; [done |].
  destruct (String.eqb_spec k' k) as [-> | Hne]; simpl; [done |].
  revert IH. destruct (Map_get k m); intros IH; simpl; f_equal; exact IH.
Qed.

Lemma Map_set_length k v m :
  length (Map_set k v m) = if Map_has k m then length m else S (length m).
Proof.
  unfold Map_has. induction m as [| [k' v'] m IH]; simpl; [done |].
  destruct (String.eqb_spec k' k) as [-> | Hne]; simpl; [done |].
  rewrite IH. by destruct (Map_get k m).
Qed.

Lemma Map_set_wf k v m : Map_wf m -> Map_wf (Map_set k v m).
Proof.
  unfold Map_wf. rewrite Map_set_keys. unfold Map_has.
  destruct (Map_get k m) eqn:E; [done |].
  intros Hnd. apply NoDup_app. split_and!; [done | | apply NoDup_singleton].
  intros x Hx Hk. apply list_elem_of_singleton in Hk as ->.
  by apply Map_get_None in E.
Qed.

Lemma Map_get_set_eq k v m : Map_get k (Map_set k v m) = Some v.
Proof.
  induction m as [| [k' v'] m IH]; simpl.
  - by rewrite String.eqb_refl.
  - destruct (String.eqb_spec k' k) as [-> | Hne]; simpl.
    + by rewrite String.eqb_refl.
    + destruct (String.eqb_spec k' k); [done | apply IH].
Qed.

Lemma Map_get_set_ne k k' v m : k <> k' -> Map_get k' (Map_set k v m) = Map_get k' m.
Proof.
  intros Hne. induction m as [| [k0 v0] m IH]; simpl.
  - by destruct (String.eqb_spec k k').
  - destruct (String.eqb_spec k0 k) as [-> | Hne0]; simpl.
    + destruct (String.eqb_spec k k'); [done |]. done.
    + by rewrite IH.
Qed.

Lemma Map_delete_wf k m : Map_wf m -> Map_wf (Map_delete k m).
Proof.
  unfold Map_wf, Map_keys, Map_delete. intros Hnd.
  eapply sublist_NoDup; [exact Hnd | apply fmap_sublist, sublist_filter].
Qed.

(** Deleting a batch of keys one after the other is one filter. *)
Lemma foldl_Map_delete (es : list (string * V)) m :
  foldl (fun c e => Map_delete e.1 c) m es
  = filter (fun e => e.1 ∉ es.*1) m.
Proof.
  revert m. induction es as [| e es IH]; intros m; simpl.
  - symmetry. apply filter_all. intros x _. apply not_elem_of_nil.
  - rewrite IH. unfold Map_delete. rewrite list_filter_filter.
    apply list_filter_iff. intros x. rewrite not_elem_of_cons. tauto.
Qed.
Lemma Map_set_fresh k v m : Map_get k m = None -> Map_set k v m = m ++ [(k, v)].
Proof.
  induction m as [| [k' v'] m IH]; simpl; [done |].
  destruct (String.eqb_spec k' k) as [-> | Hne]; [done |].
  intros Hnone. by rewrite IH.
Qed.

Lemma Map_get_filter k (P : string * V -> Prop) `{!forall e, Decision (P e)} m :
  (forall v, P (k, v)) -> Map_get k (filter P m) = Map_get k m.
Proof.
  intros Hk. induction m as [| [k' v'] m IH]; simpl; [done |].
  rewrite filter_cons. destruct (String.eqb_spec k' k) as [-> | Hne].
  - rewrite decide_True by done. simpl. by rewrite String.eqb_refl.
  - case_decide; [| done]. simpl.
    destruct (String.eqb_spec k' k); [done | exact IH].
Qed.
End MapFacts.

(** ** The stable sort *)

Section Sort.
Context {A : Type} (key : A -> Z).

Lemma insert_by_Permutation x l : insert_by key x l ≡ₚ x :: l.
Proof.
  induction l as [| y l IH]; simpl; [done |].
  destruct (key x <=? key y); [done |].
  rewrite IH. apply Permutation_swap.
Qed.

Lemma sort_by_Permutation l : sort_by key l ≡ₚ l.
Proof.
  unfold sort_by. induction l as [| x l IH]; simpl; [done |].
  by rewrite insert_by_Permutation, IH.
Qed.

Lemma insert_by_ascending x l : ascending key l -> ascending key (insert_by key x l).
Proof.
  unfold ascending. induction l as [| y l IH]; simpl; intros Hs.
  - constructor; [constructor | constructor].
  - apply StronglySorted_inv in Hs as [Hl Hy].
    destruct (key x <=? key y) eqn:E.
    + apply Z.leb_le in E. constructor.
      * by constructor.
      * constructor; [done |]. eapply Forall_impl; [exact Hy |]. simpl; lia.
    + apply Z.leb_gt in E. constructor; [by apply IH |].
      rewrite insert_by_Permutation. constructor; [lia | done].
Qed.

Lemma sort_by_ascending l : ascending key (sort_by key l).
Proof.
  unfold sort_by. induction l as [| x l IH]; simpl.
  - constructor.
  - by apply insert_by_ascending.
Qed.

Lemma ascending_take l n : ascending key l -> ascending key (take n l).
Proof.
  unfold ascending. revert n. induction l as [| x l IH]; intros [| n] Hs; simpl;
    try constructor.
  - apply StronglySorted_inv in Hs as [Hl Hx]. by apply IH.
  - apply StronglySorted_inv in Hs as [Hl Hx].
    eapply Forall_forall. intros y Hy. rewrite Forall_forall in Hx. apply Hx.
    eapply elem_of_sublist; [exact Hy | apply sublist_take].
Qed.

Lemma ascending_split l n a b :
  ascending key l -> a ∈ take n l -> b ∈ drop n l -> key a <= key b.
Proof.
  unfold ascending. revert n. induction l as [| x l IH]; intros n Hs Ha Hb.
  - rewrite take_nil in Ha. by apply elem_of_nil in Ha.
  - apply StronglySorted_inv in Hs as [Hl Hx]. destruct n as [| n]; simpl in *.
    + by apply elem_of_nil in Ha.
    + apply elem_of_cons in Ha as [-> | Ha]; [| by eapply IH].
      rewrite Forall_forall in Hx. apply Hx.
      eapply elem_of_sublist; [exact Hb | apply sublist_drop].
Qed.
Lemma insert_by_snoc x l p :
  key x <= key p -> insert_by key x (l ++ [p]) = insert_by key x l ++ [p].
Proof.
  intros Hle. induction l as [| y l IH]; simpl.
  - destruct (key x <=? key p) eqn:E; [done | apply Z.leb_gt in E; lia].
  - destruct (key x <=? key y); [done |]. by rewrite IH.
Qed.

(** An element that comes last and has the greatest key stays last. *)
Lemma sort_by_snoc l p :
  Forall (fun x => key x <= key p) l ->
  sort_by key (l ++ [p]) = sort_by key l ++ [p].
Proof.
  unfold sort_by. induction 1 as [| x l Hx Hl IH]; simpl; [done |].
  rewrite IH. by apply insert_by_snoc.
Qed.
End Sort.

(** ** Eviction *)

Lemma or_zero_id (x : Z) : or_zero x = x.
Proof. unfold or_zero. destruct (Z.eqb_spec x 0); congruence. Qed.

Section Evict.
Implicit Types cache : list (string * FileContext).

Lemma evictOldCacheEntries_filter cache maxSize :
  evictOldCacheEntries cache maxSize
  = filter (fun e => e.1 ∉ (evicted cache maxSize).*1) cache.
Proof. apply foldl_Map_delete. Qed.

Lemma evictOldCacheEntries_small cache maxSize :
  (length cache <= maxSize)%nat -> evictOldCacheEntries cache maxSize = cache.
Proof.
  intros Hle. unfold evictOldCacheEntries, evicted.
  by rewrite bool_decide_eq_true_2.
Qed.

(** What stays is, up to the order, the tail of the sorted entries. *)
Lemma evictOldCacheEntries_Permutation cache maxSize :
  Map_wf cache ->
  (maxSize < length cache)%nat ->
  evictOldCacheEntries cache maxSize
  ≡ₚ drop (length cache - maxSize) (sort_by lastRead_key cache).
Proof.
  intros Hwf Hlt. rewrite evictOldCacheEntries_filter. unfold evicted.
  rewrite bool_decide_eq_false_2 by lia.
  set (sorted := sort_by lastRead_key cache).
  set (k := (length cache - maxSize)%nat).
  assert (Hperm : sorted ≡ₚ cache) by apply sort_by_Permutation.
  assert (Hnd : NoDup (sorted.*1)).
  { unfold Map_wf, Map_keys in Hwf. by rewrite Hperm. }
  clearbody sorted k.
  set (P := fun e : string * FileContext => e.1 ∉ (take k sorted).*1).
  rewrite <- Hperm.
  rewrite <- (take_drop k sorted) in Hnd. rewrite fmap_app in Hnd.
  apply NoDup_app in Hnd as (_ & Hdisj & _).
  assert (Hsplit : filter P sorted
                   = filter P (take k sorted) ++ filter P (drop k sorted))
    by (by rewrite <- filter_app, take_drop).
  rewrite Hsplit, (filter_none P (take k sorted)), (filter_all P (drop k sorted)).
  - done.
  - intros e He Hin. eapply Hdisj; [exact Hin |]. by apply list_elem_of_fmap_2.
  - intros e He Hn. apply Hn. by apply list_elem_of_fmap_2.
Qed.

Lemma evictOldCacheEntries_length cache maxSize :
  Map_wf cache -> (length (evictOldCacheEntries cache maxSize) <= maxSize)%nat.
Proof.
  intros Hwf. destruct (decide (length cache <= maxSize)%nat) as [Hle | Hgt].
  - by rewrite evictOldCacheEntries_small.
  - rewrite evictOldCacheEntries_Permutation by (done || lia).
    rewrite length_drop, (Permutation_length (sort_by_Permutation _ _)). lia.
Qed.

Lemma evictOldCacheEntries_wf cache maxSize :
  Map_wf cache -> Map_wf (evictOldCacheEntries cache maxSize).
Proof.
  intros Hwf. rewrite evictOldCacheEntries_filter.
  unfold Map_wf, Map_keys in *.
  eapply sublist_NoDup; [exact Hwf | apply fmap_sublist, sublist_filter].
Qed.

(** Eviction spares an entry that was just added, when no entry of the
    cache was read later than it. *)
Lemma evictOldCacheEntries_spares_newest cache k e maxSize :
  Map_wf cache ->
  Map_get k cache = None ->
  Forall (fun x => lastRead x.2 <= lastRead e) cache ->
  (1 <= maxSize)%nat ->
  Map_get k (evictOldCacheEntries (cache ++ [(k, e)]) maxSize) = Some e.
Proof.
  intros Hwf Hnone Hold Hmax.
  assert (Hget : Map_get k (cache ++ [(k, e)]) = Some e).
  { rewrite <- (Map_set_fresh k e cache Hnone). apply Map_get_set_eq. }
  rewrite evictOldCacheEntries_filter, Map_get_filter; [done |].
  intros v. simpl. unfold evicted. case_bool_decide; [apply not_elem_of_nil |].
  rewrite sort_by_snoc.
  2:{ eapply Forall_impl; [exact Hold |]. intros x. unfold lastRead_key. simpl.
      by rewrite !or_zero_id. }
  rewrite length_app. simpl.
  rewrite take_app_le.
  2:{ rewrite (Permutation_length (sort_by_Permutation _ _)). lia. }
  intros Hin. apply list_elem_of_fmap in Hin as ([k' v'] & Hk & Hin). simpl in Hk. subst k'.
  eapply elem_of_sublist in Hin; [| apply sublist_take].
  rewrite sort_by_Permutation in Hin.
  apply Map_get_None in Hnone. apply Hnone.
  unfold Map_keys. by apply (list_elem_of_fmap_2 fst) in Hin.
Qed.

(** Deletion goes up the [lastRead] order, and whatever is deleted was
    read no later than whatever stays. *)
Lemma evicted_oldest_first cache maxSize :
  Map_wf cache ->
  ascending lastRead_key (evicted cache maxSize) /\
  (forall gone kept,
      gone ∈ evicted cache maxSize ->
      kept ∈ evictOldCacheEntries cache maxSize ->
      lastRead gone.2 <= lastRead kept.2).
Proof.
  intros Hwf. destruct (decide (length cache <= maxSize)%nat) as [Hle | Hgt].
  - unfold evicted. rewrite bool_decide_eq_true_2 by done.
    split; [constructor | intros ? ? Hin; by apply elem_of_nil in Hin].
  - split.
    + unfold evicted. rewrite bool_decide_eq_false_2 by done.
      apply ascending_take, sort_by_ascending.
    + intros gone kept Hg Hk.
      rewrite evictOldCacheEntries_Permutation in Hk by (done || lia).
      unfold evicted in Hg. rewrite bool_decide_eq_false_2 in Hg by done.
      pose proof (ascending_split lastRead_key _ _ _ _
                    (sort_by_ascending lastRead_key cache) Hg Hk) as Hle.
      unfold lastRead_key in Hle. by rewrite !or_zero_id in Hle.
Qed.
End Evict.

(** ** C5 *)

Section Tracking.
Variable summarizeToolResult : tool_use -> tool_value -> string.
Variable run : tool_use -> outcome tool_value.
Implicit Types cache : list (string * FileContext).

Lemma track_read_file_bounded cache filePath s now :
  Map_wf cache ->
  let after := track_read_file cache filePath (VString s) now in
  (length after <= 15)%nat /\ Map_wf after.
Proof.
  intros Hwf. simpl. split.
  - by apply evictOldCacheEntries_length, Map_set_wf.
  - by apply evictOldCacheEntries_wf, Map_set_wf.
Qed.

Lemma write_update_wf cache filePath content now :
  Map_wf cache -> Map_wf (write_update cache filePath content now).
Proof.
  intros Hwf. unfold write_update.
  destruct (Map_get filePath cache); by apply Map_set_wf.
Qed.

Lemma track_write_file_bounded cache filePath content now :
  Map_wf cache ->
  let after := track_write_file cache filePath content now in
  (length after <= 15)%nat /\ Map_wf after.
Proof.
  intros Hwf. simpl. unfold track_write_file. split.
  - by apply evictOldCacheEntries_length, write_update_wf.
  - by apply evictOldCacheEntries_wf, write_update_wf.
Qed.

Lemma track_bounded now tr toolUse :
  Map_wf (t_openFiles tr) ->
  (length (t_openFiles tr) <= 15)%nat ->
  let after := t_openFiles (track summarizeToolResult run now tr toolUse) in
  (length after <= 15)%nat /\ Map_wf after.
Proof.
  intros Hwf Hlen. unfold track.
  destruct (run toolUse) as [result | msg]; [| done].
  destruct (tu_call toolUse); simpl; try done.
  - destruct result; try done. by apply track_read_file_bounded.
  - by apply track_write_file_bounded.
Qed.
End Tracking.

Lemma ascending_lastRead (l : list (string * FileContext)) :
  ascending lastRead_key l ->
  StronglySorted (fun a b => lastRead a.2 <= lastRead b.2) l.
Proof.
  unfold ascending, lastRead_key. intros Hs.
  induction Hs as [| a l Hl IH Ha]; constructor; [done |].
  eapply Forall_impl; [exact Ha |]. intros b. simpl. by rewrite !or_zero_id.
Qed.

(** C5: one tool execution of [executeTools] leaves at most 15 entries in
    the cache when it started with at most 15 (the cache starts empty), and
    a [read_file] that returned its text or a [write_file] that returned
    leaves at most 15 whatever the size before. Eviction deletes in
    ascending [lastRead] order, and every entry it deletes was read no
    later than every entry it leaves; what it leaves are the other
    entries, in their order. *)
Theorem cache_bounded_and_oldest_first
    (summarizeToolResult : tool_use -> tool_value -> string)
    (run : tool_use -> outcome tool_value)
    (now : Z) (tr : tracking) (toolUse : tool_use)
    (cache : list (string * FileContext)) (maxSize : nat) :
  Map_wf (t_openFiles tr) ->
  Map_wf cache ->
  let after := t_openFiles (track summarizeToolResult run now tr toolUse) in
  ((length (t_openFiles tr) <= 15)%nat -> (length after <= 15)%nat) /\
  (forall filePath s,
      tu_call toolUse = ReadFile filePath -> run toolUse = Returned (VString s) ->
      (length after <= 15)%nat) /\
  (forall filePath content result,
      tu_call toolUse = WriteFile filePath content -> run toolUse = Returned result ->
      (length after <= 15)%nat) /\
  Map_wf after /\
  StronglySorted (fun a b => lastRead a.2 <= lastRead b.2) (evicted cache maxSize) /\
  (forall gone kept,
      gone ∈ evicted cache maxSize ->
      kept ∈ evictOldCacheEntries cache maxSize ->
      lastRead gone.2 <= lastRead kept.2) /\
  evictOldCacheEntries cache maxSize
    = filter (fun e => e.1 ∉ (evicted cache maxSize).*1) cache /\
  (length (evictOldCacheEntries cache maxSize) <= maxSize)%nat.
Proof.
  intros Hwf Hcache after. subst after. split_and!.
  - intros Hlen. by apply track_bounded.
  - intros filePath s Hcall Hrun. unfold track. rewrite Hrun, Hcall. simpl.
    by apply evictOldCacheEntries_length, Map_set_wf.
  - intros filePath content result Hcall Hrun. unfold track. rewrite Hrun, Hcall.
    simpl. by apply track_write_file_bounded.
  - unfold track. destruct (run toolUse) as [result | msg]; [| done].
    destruct (tu_call toolUse); simpl; try done.
    + destruct result; try done. by apply track_read_file_bounded.
    + by apply track_write_file_bounded.
  - apply ascending_lastRead. by apply evicted_oldest_first.
  - by apply evicted_oldest_first.
  - apply evictOldCacheEntries_filter.
  - by apply evictOldCacheEntries_length.
Qed.

Lemma cache_bounded_and_oldest_first_witness :
  let tr := Tracking [] (sample_cache 15) [] [] [] in
  let toolUse := ToolUseCall "t1" (WriteFile "new.ts" "text") in
  let after := t_openFiles (track sample_summary sample_run 99 tr toolUse) in
  (length after <= 15)%nat /\
  Map_keys (evicted (sample_cache 16) 15) = ["f1"] /\
  (length (evictOldCacheEntries (sample_cache 16) 15) <= 15)%nat.
Proof.
  intros tr toolUse after.
  destruct (cache_bounded_and_oldest_first sample_summary sample_run 99 tr toolUse
              (sample_cache 16) 15)
    as (Hkeep & _ & _ & _ & _ & _ & _ & Hlen).
  - unfold Map_wf. apply (bool_decide_unpack _). vm_compute. exact I.
  - unfold Map_wf. apply (bool_decide_unpack _). vm_compute. exact I.
  - split_and!; [apply Hkeep; vm_compute; lia | reflexivity | exact Hlen].
Defined.

(** ** C6 *)

Lemma push_version_spec (versions : list string) (current : string) :
  ((length versions < 10)%nat -> push_version versions current = versions ++ [current]) /\
  ((10 <= length versions)%nat ->
     push_version versions current = drop 1 versions ++ [current]) /\
  last (push_version versions current) = Some current /\
  ((length versions <= 10)%nat -> (length (push_version versions current) <= 10)%nat).
Proof.
  unfold push_version. rewrite length_app. cbn [length]. split_and!.
  - intros Hlt. by rewrite bool_decide_eq_false_2 by lia.
  - intros Hge. rewrite bool_decide_eq_true_2 by lia.
    destruct versions; [simpl in Hge; lia | done].
  - case_bool_decide; [| by rewrite last_snoc].
    destruct versions as [| v versions]; [simpl in *; lia |].
    cbn [app drop]. by rewrite drop_0, last_snoc.
  - intros Hle. case_bool_decide; rewrite ?length_drop, length_app; simpl; lia.
Qed.

(** What [write_file] does to the undo stack of a path. On a path that
    has a cache entry whose content is not empty, it pushes that content
    onto the undo stack of the entry (at the end; beyond 10 the oldest is
    dropped) and then overwrites the content; an entry whose content is
    empty or absent is overwritten without a push
    ([if (existing.content)]). On a path without a cache entry it adds a
    fresh entry with an empty undo stack. *)
Lemma write_update_undo_stack
    (cache : list (string * FileContext)) (filePath content : string) (now : Z) :
  (forall existing,
      Map_get filePath cache = Some existing ->
      Map_get filePath (write_update cache filePath content now)
      = Some {| fc_path := fc_path existing;
                fc_content := Some content;
                previousVersions :=
                  if truthy (fc_content existing)
                  then Some (push_version (versions_or_empty (previousVersions existing))
                                          (default "" (fc_content existing)))
                  else previousVersions existing;
                lastRead := now; lastModified := now |}) /\
  (forall versions current,
      ((length versions < 10)%nat ->
         push_version versions current = versions ++ [current]) /\
      ((10 <= length versions)%nat ->
         push_version versions current = drop 1 versions ++ [current])) /\
  (Map_get filePath cache = None ->
     Map_get filePath (write_update cache filePath content now)
     = Some {| fc_path := filePath; fc_content := Some content;
               previousVersions := Some []; lastRead := now; lastModified := now |}).
Proof.
  split_and!.
  - intros existing Hget. unfold write_update. rewrite Hget.
    apply Map_get_set_eq.
  - intros versions current.
    destruct (push_version_spec versions current) as (H1 & H2 & _). by split.
  - intros Hnone. unfold write_update. rewrite Hnone. apply Map_get_set_eq.
Qed.

(** An entry whose content is the empty string is overwritten without a
    push. *)
Lemma write_update_empty_content :
  ~ write_pushes_current
      [("a.ts", {| fc_path := "a.ts"; fc_content := Some "";
                   previousVersions := Some []; lastRead := 1; lastModified := 1 |})]
      "a.ts" "x" 2.
Proof.
  intros H. destruct (H _ eq_refl) as (updated & Hget & _ & Hpv).
  vm_compute in Hget. injection Hget as <-. vm_compute in Hpv. discriminate.
Qed.

Section UndoFacts.
Variable World : Type.
Variable writeFileTool : string -> string -> World -> World * option string.


Lemma removelast_snoc {A} (l : list A) (x : A) : removelast (l ++ [x]) = l.
Proof. apply removelast_last. Qed.

(** The undo proper: the entry of [target] has a stack that ends with
    [top], and the write goes through. *)
Lemma undo_body_success cv filePath w files target fc versions top w' :
  cv_openFiles cv = Some files ->
  undo_target filePath (default [] (cv_recentChanges cv)) = Some target ->
  Map_get target files = Some fc ->
  previousVersions fc = Some (versions ++ [top]) ->
  writeFileTool target top w = (w', None) ->
  undo_body World writeFileTool cv filePath w
  = (Returned (UndoResult true ("Reverted " +:+ target +:+ " to previous version")
                 (Some target)),
     Some (Map_set target
             {| fc_path := fc_path fc; fc_content := Some top;
                previousVersions := Some versions;
                lastRead := lastRead fc; lastModified := lastModified fc |} files),
     w').
Proof.
  intros Hfiles Htarget Hget Hpv Hwrite. unfold undo_body.
  rewrite Hfiles, Htarget, Hget, Hpv, last_snoc, Hwrite, removelast_snoc. done.
Qed.

End UndoFacts.

(** The cache of a tuple read from the store is absent or empty. *)
Lemma getTuple_openFiles (table : list row) (thread : option string)
    (cv : channel_values) :
  getTuple table thread = Some cv ->
  cv_openFiles cv = None \/ cv_openFiles cv = Some [].
Proof.
  unfold getTuple. destruct (find _ table) as [r |]; [| discriminate].
  cbn [mbind option_bind]. destruct (checkpoint_data r) as [values |]; [| discriminate].
  intros [= <-]. cbn [deserializeCheckpoint cv_openFiles].
  destruct (sv_openFiles values); [right | left]; reflexivity.
Qed.

(** With the store of the repository, [undoLastChange] restores nothing:
    whatever the table holds, it answers a failure and writes no file. *)
Lemma undoLastChange_store_fails
    (World : Type) (writeFileTool : string -> string -> World -> World * option string)
    (table : list row) (filePath : option string) (w : World) :
  exists msg files,
    undoLastChange World writeFileTool (SqliteCheckpointSaver table) filePath w
    = Returned (UndoEffect (undo_failure msg) files w).
Proof.
  unfold undoLastChange, SqliteCheckpointSaver.
  destruct (getTuple table (Some "default")) as [cv |] eqn:Hget; [| by eexists _, _].
  unfold undo_body.
  destruct (undo_target filePath (default [] (cv_recentChanges cv))) as [target |];
    [| by eexists _, _].
  destruct (getTuple_openFiles _ _ _ Hget) as [-> | ->]; by eexists _, _.
Qed.

(** C6. Undo restores nothing. [write_file] keeps its part: after a first
    write of "one" to a path that is not cached and a second write of
    "two", the cache entry holds "two" and the undo stack ["one"]. But
    [undoLastChange] reads the cache from the checkpoint store, and
    [SqliteCheckpointSaver] saves the keys of the cache only and answers
    with an empty map, so that, whatever the store holds, the command
    answers a failure and writes no file. With the checkpoint of the run
    saved under the thread ['default'] the answer is "No previous version
    available"; saved under the thread of a session, as the runs of the
    interface are, it is "No file history available", for the command
    reads the thread ['default']. *)
Theorem undo_through_store_restores_nothing
    (World : Type) (writeFileTool : string -> string -> World -> World * option string)
    (table : list row) (filePath : option string) (w : World)
    (session : option string) :
  let files := track_write_file (track_write_file [] "a.ts" "one" 1) "a.ts" "two" 2 in
  let changes := [PathStamp "a.ts" 1; PathStamp "a.ts" 2] in
  let values := {| cv_openFiles := Some files; cv_recentChanges := Some changes |} in
  (exists msg files',
      undoLastChange World writeFileTool (SqliteCheckpointSaver table) filePath w
      = Returned (UndoEffect (undo_failure msg) files' w))
  /\ Map_get "a.ts" files
     = Some {| fc_path := "a.ts"; fc_content := Some "two";
               previousVersions := Some ["one"]; lastRead := 2; lastModified := 2 |}
  /\ undoLastChange disk disk_write
       (SqliteCheckpointSaver (put [] (Some "default") (Some values))) None []
     = Returned
         (UndoEffect (undo_failure "No previous version available for a.ts")
            (Some []) [])
  /\ undoLastChange disk disk_write
       (SqliteCheckpointSaver (put [] (Some "session-1") (Some values))) None []
     = Returned (UndoEffect (undo_failure "No file history available") None [])
  /\ ~ undo_restores_first session "a.ts" "one" "two".
Proof.
  intros files changes values. split_and!.
  - apply undoLastChange_store_fails.
  - vm_compute. reflexivity.
  - vm_compute. reflexivity.
  - vm_compute. reflexivity.
  - intros (e & He & Hok & _).
    destruct (undoLastChange_store_fails disk disk_write
                (put [] session
                   (Some {| cv_openFiles :=
                              Some (track_write_file (track_write_file [] "a.ts" "one" 1)
                                      "a.ts" "two" 2);
                            cv_recentChanges :=
                              Some [PathStamp "a.ts" 1; PathStamp "a.ts" 2] |}))
                None []) as (msg & files' & Hfail).
    rewrite Hfail in He. injection He as <-. discriminate Hok.
Qed.

(** ** C7 *)



(** ** C8 *)

(** C8: on an id that is pending, the first [resolvePendingCommand] or
    [rejectPendingCommand] removes the entry, settles its promise and
    returns true; after either, both calls return false on that id and
    change nothing; and [waitForCommandCompletion] on the pending id throws
    and changes nothing. *)
Theorem pending_command_settles_once
    (reg : registry) (toolUseId : string) (entry : PendingCommandEntry)
    (result result' : CommandResult) (error error' : string)
    (again : CommandApproval) :
  pendingCommands reg !! toolUseId = Some entry ->
  let resolved := resolvePendingCommand reg toolUseId result in
  let rejected := rejectPendingCommand reg toolUseId error in
  (resolved.1 = true /\
   pendingCommands resolved.2 !! toolUseId = None /\
   settled resolved.2 = settled reg ++ [(promise entry, Resolved result)]) /\
  (rejected.1 = true /\
   pendingCommands rejected.2 !! toolUseId = None /\
   settled rejected.2 = settled reg ++ [(promise entry, Rejected error)]) /\
  (forall reg',
      reg' = resolved.2 \/ reg' = rejected.2 ->
      resolvePendingCommand reg' toolUseId result' = (false, reg') /\
      rejectPendingCommand reg' toolUseId error' = (false, reg')) /\
  (exists msg, waitForCommandCompletion reg toolUseId again = (Threw msg, reg)) /\
  (toolUseId <> "" ->
   waitForCommandCompletion reg toolUseId again
   = (Threw ("Command approval already pending for " +:+ toolUseId), reg)).
Proof.
  intros Hpending resolved rejected. subst resolved rejected.
  unfold resolvePendingCommand, rejectPendingCommand. rewrite Hpending. simpl.
  split_and!; try done; try apply lookup_delete_eq.
  - intros reg' [-> | ->]; simpl; by rewrite lookup_delete_eq.
  - unfold waitForCommandCompletion. destruct (String.eqb toolUseId ""); [eauto |].
    rewrite Hpending. eauto.
  - intros Hne. unfold waitForCommandCompletion.
    destruct (String.eqb_spec toolUseId ""); [done |]. by rewrite Hpending.
Qed.

Lemma pending_command_settles_once_witness :
  let resolved := resolvePendingCommand one_pending "t1" sample_result in
  resolved.1 = true /\
  resolvePendingCommand resolved.2 "t1" sample_result = (false, resolved.2) /\
  rejectPendingCommand resolved.2 "t1" "late" = (false, resolved.2) /\
  waitForCommandCompletion one_pending "t1" sample_approval
  = (Threw "Command approval already pending for t1", one_pending).
Proof.
  intros resolved. subst resolved.
  destruct (pending_command_settles_once one_pending "t1"
              {| approval := sample_approval; promise := 0 |}
              sample_result sample_result "no" "late" sample_approval)
    as ((Hok & _) & _ & Hsecond & _ & Hdup).
  - reflexivity.
  - destruct (Hsecond _ (or_introl eq_refl)) as [Hres Hrej].
    split_and!; [exact Hok | exact Hres | exact Hrej | apply Hdup; discriminate].
Defined.

(** ** C9 *)

Lemma count_or_zero_Some (n : Z) : count_or_zero (Some n) = n.
Proof. apply or_zero_id. Qed.

(** At the limit, with tool calls to run and the answer "continue",
    [shouldContinue] returns "continue" and writes 0 to the counter of the
    state object it was handed; that object is the argument of a
    conditional edge, and the graph goes on to [executeTools] with the
    state of the channels, whose counter still holds the old value. *)
Lemma continue_keeps_channel_counter
    (summarizeToolResult : tool_use -> tool_value -> string)
    (e : environment) (state : AgentState)
    (toolUse : tool_use) (others : list tool_use) (n : Z) :
  toolUses state = Some (toolUse :: others) ->
  iterationCount state = Some n ->
  25 <= n ->
  env_answer e = Returned true ->
  let d := shouldContinue state (env_answer e) in
  let after :=
    apply_update state
      (executeTools summarizeToolResult (env_run e) (env_now e) state) in
  d_route d = Returned "continue" /\
  iterationCount (d_state d) = Some 0 /\
  next_after_callLLM e state = Returned executeTools_node /\
  iterationCount after = Some (n + 1).
Proof.
  intros Huses Hcount Hn Hanswer d after. subst d after.
  unfold next_after_callLLM, shouldContinue, executeTools.
  rewrite Huses, Hcount, Hanswer, count_or_zero_Some.
  destruct (25 <=? n) eqn:E; [| apply Z.leb_gt in E; lia].
  simpl. rewrite ?or_zero_id. by split_and!.
Qed.

(** C9 on the code, at a state whose counter is 25 with one tool call to
    run, the user answering "continue": [shouldContinue] returns "continue"
    and leaves 0 in the state object it was handed, the graph runs
    [executeTools] next, and the counter of the conversation state after
    that pass is 26, not 1, so the limit is reached again at the next
    decision. The recursion limit plays no part: the steps below hold for
    every number of steps left. *)
Theorem continue_reset_is_lost
    (summarizeToolResult : tool_use -> tool_value -> string) (fuel : nat) :
  let d := shouldContinue at_limit_state (env_answer continue_env) in
  let after :=
    apply_update at_limit_state
      (executeTools summarizeToolResult (env_run continue_env)
         (env_now continue_env) at_limit_state) in
  d_route d = Returned "continue" /\
  iterationCount (d_state d) = Some 0 /\
  next_after_callLLM continue_env at_limit_state = Returned executeTools_node /\
  iterationCount after = Some 26 /\
  invoke summarizeToolResult (fun _ => continue_env) (S fuel)
    executeTools_node at_limit_state
  = invoke summarizeToolResult (fun _ => continue_env) fuel
      formatResults_node after.
Proof.
  intros d after. subst d after.
  destruct (continue_keeps_channel_counter summarizeToolResult continue_env
              at_limit_state (ToolUseCall "t1" (ReadFile "a.ts")) [] 25)
    as (H1 & H2 & H3 & H4); try reflexivity; try lia.
  split_and!; try done.
Qed.

(** ** C10 *)

Lemma getContextSummary_reads (now : Z) (state : AgentState) (reads : list path_stamp) :
  getContextSummary now (set_recentReads state reads) = getContextSummary now state.
Proof. reflexivity. Qed.

(** C10 on the code: the summary does not depend on the recent reads (the
    last five are computed and not used), and a state that has read one
    file and done nothing else gets the empty summary, which lists no
    path. *)
Theorem context_summary_ignores_reads (now : Z) (state : AgentState)
    (reads : list path_stamp) :
  getContextSummary now (set_recentReads state reads) = getContextSummary now state
  /\ getContextSummary now one_read_state = ""
  /\ ~ lists_recent_reads now one_read_state.
Proof.
  split_and!; [reflexivity | reflexivity |].
  intros H. specialize (H (PathStamp "src/main.ts" 1000)).
  assert (Hin : PathStamp "src/main.ts" 1000 ∈ js_slice (recentReads one_read_state) (-5) None)
    by (vm_compute; apply list_elem_of_here).
  apply H in Hin. vm_compute in Hin. discriminate.
Qed.

(** * Further properties *)

(** ** The token estimate and the archival summary *)

Lemma sum_lengths_from (l : list string) (a : Z) :
  foldl (fun sum piece => sum + str_len piece) a l
  = a + foldl (fun sum piece => sum + str_len piece) 0 l.
Proof.
  revert a. induction l as [|x l IH]; intros a; cbn [foldl].
  - lia.
  - rewrite (IH (a + str_len x)), (IH (0 + str_len x)). lia.
Qed.

Lemma sum_lengths_app (l1 l2 : list string) :
  foldl (fun sum piece => sum + str_len piece) 0 (l1 ++ l2)
  = foldl (fun sum piece => sum + str_len piece) 0 l1
    + foldl (fun sum piece => sum + str_len piece) 0 l2.
Proof. rewrite foldl_app, sum_lengths_from. reflexivity. Qed.

Lemma sum_lengths_nonneg (l : list string) :
  0 <= foldl (fun sum piece => sum + str_len piece) 0 l.
Proof.
  induction l as [|x l IH]; cbn [foldl]; [lia|].
  rewrite sum_lengths_from.
  assert (0 <= str_len x) by (unfold str_len; lia). lia.
Qed.

Lemma flat_map_snoc {A B} (f : A -> list B) (l : list A) (x : A) :
  flat_map f (l ++ [x]) = flat_map f l ++ f x.
Proof.
  induction l as [|y l IH]; cbn [app flat_map].
  - by rewrite app_nil_r.
  - by rewrite IH, app_assoc.
Qed.

Lemma estimateTokensFromMessage_nonneg (m : option message) :
  0 <= estimateTokensFromMessage m.
Proof.
  destruct m as [m|]; cbn [estimateTokensFromMessage]; [|lia].
  unfold ceil_div4.
  pose proof (sum_lengths_nonneg (collectStrings_message m)) as Hs.
  assert (0 <= (foldl (fun sum piece => sum + str_len piece) 0
                  (collectStrings_message m) + 3) `div` 4)
    by (apply Z.div_pos; lia).
  lia.
Qed.

(** X1. The estimate counts the role name (and the type name of every
    block) as text: a message whose content is the string [s] costs
    [ceil((length role + length s) / 4) + 6] tokens, every message costs at
    least 7, an absent one 0, and a block more never lowers the
    estimate. *)
Theorem estimateTokensFromMessage_counts_role
    (r : role) (s : string) (m : message) (bs : list block) (b : block) :
  estimateTokensFromMessage (Some (Message r (CString s)))
  = (str_len (role_str r) + str_len s + 3) `div` 4 + 6
  /\ 7 <= estimateTokensFromMessage (Some m)
  /\ estimateTokensFromMessage None = 0
  /\ estimateTokensFromMessage (Some (Message r (CBlocks bs)))
     <= estimateTokensFromMessage (Some (Message r (CBlocks (bs ++ [b])))).
Proof.
  split; [|split; [|split]].
  - cbn [estimateTokensFromMessage]. unfold ceil_div4, collectStrings_message.
    cbn [foldl msg_role msg_content]. f_equal; f_equal; lia.
  - cbn [estimateTokensFromMessage]. unfold ceil_div4.
    unfold collectStrings_message. cbn [foldl].
    rewrite sum_lengths_from.
    match goal with |- context [foldl ?f 0 ?l] =>
      pose proof (sum_lengths_nonneg l) as Hs end.
    assert (4 <= str_len (role_str (msg_role m)))
      by (destruct (msg_role m); by vm_compute).
    match goal with |- 7 <= ?a `div` 4 + 6 =>
      assert (1 <= a `div` 4) by (apply Z.div_le_lower_bound; lia) end.
    lia.
  - reflexivity.
  - cbn [estimateTokensFromMessage]. unfold ceil_div4, collectStrings_message.
    cbn [msg_role msg_content foldl].
    rewrite flat_map_snoc.
    rewrite (sum_lengths_from (_ ++ _)), sum_lengths_app.
    rewrite (sum_lengths_from (flat_map _ _)).
    pose proof (sum_lengths_nonneg (collectStrings_block b)) as Hb.
    apply Z.add_le_mono_r, Z.div_le_mono; lia.
Qed.

Lemma block_kinds (bs : list block) :
  filter (fun b => is_tool_result b = true) bs = [] ->
  omap block_text bs = [] ->
  Forall (fun b => is_tool_use b = true) bs.
Proof.
  induction bs as [|b bs IH]; intros Hr Ht; [constructor|].
  destruct b as [t|i n inp|i c e].
  - discriminate Ht.
  - constructor; [reflexivity|]. apply IH; [exact Hr|exact Ht].
  - rewrite filter_cons_True in Hr by reflexivity. discriminate Hr.
Qed.

Lemma tool_uses_only (bs : list block) :
  Forall (fun b => is_tool_use b = true) bs ->
  filter (fun b => is_tool_result b = true) bs = [] /\ omap block_text bs = [].
Proof.
  induction 1 as [|b bs Hb _ [IH1 IH2]]; [done|].
  destruct b; try discriminate Hb. split.
  - rewrite filter_cons_False by (cbn; discriminate). exact IH1.
  - exact IH2.
Qed.

Lemma role_prefix_nonempty (r : role) (s : string) : role_str r +:+ s <> "".
Proof. destruct r; discriminate. Qed.

(** X2. A message has no summary exactly when its content is an array of
    tool calls only (or an empty array): such a message is dropped
    without a trace in the archive. Every other message has a summary that
    is not the empty string, so it is archived when it is dropped. *)
Theorem summarizeMessage_none_iff (m : message) (archived : list string) :
  (summarizeMessage (Some m) = None <->
   exists bs, msg_content m = CBlocks bs /\ Forall (fun b => is_tool_use b = true) bs)
  /\ (forall s, summarizeMessage (Some m) = Some s ->
        s <> "" /\ archive archived (Some m) = archived ++ [s])
  /\ (summarizeMessage (Some m) = None -> archive archived (Some m) = archived).
Proof.
  assert (Hne : forall s, summarizeMessage (Some m) = Some s -> s <> "").
  { intros s. cbn [summarizeMessage].
    destruct (msg_content m) as [c|bs].
    - intros [= <-]. apply role_prefix_nonempty.
    - destruct (negb (length (filter _ bs) =? 0)%nat).
      + intros [= <-]. discriminate.
      + destruct (negb (length (omap block_text bs) =? 0)%nat); [|discriminate].
        intros [= <-]. apply role_prefix_nonempty. }
  split; [|split].
  - cbn [summarizeMessage]. destruct (msg_content m) as [c|bs].
    + split; [discriminate|]. intros (bs & Hc & _). discriminate Hc.
    + split.
      * destruct (filter (fun b => is_tool_result b = true) bs) as [|x l] eqn:Hr;
          cbn [length Nat.eqb negb]; [|discriminate].
        destruct (omap block_text bs) as [|y l'] eqn:Ht;
          cbn [length Nat.eqb negb]; [|discriminate].
        intros _. exists bs. split; [reflexivity|]. by apply block_kinds.
      * intros (bs' & [= <-] & Hall).
        destruct (tool_uses_only bs Hall) as [-> ->]. reflexivity.
  - intros s Hs. split; [by apply Hne|].
    unfold archive. rewrite Hs.
    destruct (String.eqb s "") eqn:He; [|reflexivity].
    apply String.eqb_eq in He. by apply Hne in Hs.
  - intros Hn. unfold archive. by rewrite Hn.
Qed.

Lemma summarizeMessage_none_iff_witness :
  summarizeMessage (Some (call_message "t1")) = None
  /\ archive ["old"] (Some (call_message "t1")) = ["old"].
Proof.
  destruct (summarizeMessage_none_iff (call_message "t1") ["old"]) as (H1 & _ & H3).
  assert (H : summarizeMessage (Some (call_message "t1")) = None).
  { apply H1. eexists. split; [reflexivity|]. repeat constructor. }
  split; [exact H|exact (H3 H)].
Defined.


(** ** Lines *)

Lemma split_lines_nonempty (s : string) : split_lines s <> [].
Proof.
  induction s as [|c s IH]; cbn [split_lines]; [discriminate|].
  destruct (Ascii.eqb c newline); [discriminate|].
  destruct (split_lines s); discriminate.
Qed.

Lemma join_cons_cons (sep x y : string) (l : list string) :
  join sep (x :: y :: l) = x +:+ sep +:+ join sep (y :: l).
Proof. reflexivity. Qed.

(** Joining the lines of a text with line feeds gives the text back. *)
Lemma join_split_lines (s : string) : join "
" (split_lines s) = s.
Proof.
  induction s as [|c s IH]; [reflexivity|].
  cbn [split_lines].
  destruct (Ascii.eqb c newline) eqn:Hc.
  - apply Ascii.eqb_eq in Hc. subst c.
    pose proof (split_lines_nonempty s) as Hne.
    destruct (split_lines s) as [|l ls] eqn:Hs; [done|].
    rewrite join_cons_cons, IH. reflexivity.
  - pose proof (split_lines_nonempty s) as Hne.
    destruct (split_lines s) as [|l ls] eqn:Hs; [done|].
    destruct ls as [|l2 ls].
    + cbn [join] in *. by rewrite IH.
    + rewrite join_cons_cons. rewrite join_cons_cons in IH.
      rewrite <- IH at 1. reflexivity.
Qed.

Lemma split_lines_inj (s t : string) : split_lines s = split_lines t -> s = t.
Proof.
  intros H. rewrite <- (join_split_lines s), <- (join_split_lines t). by rewrite H.
Qed.

Lemma append_cons (c : ascii) (s t : string) :
  String c s +:+ t = String c (s +:+ t).
Proof. reflexivity. Qed.

Lemma split_lines_app (a b : string) :
  split_lines (a +:+ String newline b) = split_lines a ++ split_lines b.
Proof.
  induction a as [|c a IH].
  - change ("" +:+ String newline b) with (String newline b).
    cbn [split_lines]. rewrite Ascii.eqb_refl. reflexivity.
  - rewrite append_cons. cbn [split_lines].
    destruct (Ascii.eqb c newline); rewrite IH.
    + reflexivity.
    + pose proof (split_lines_nonempty a) as Hne.
      destruct (split_lines a) as [|l ls]; [done|]. reflexivity.
Qed.

Lemma split_lines_single (s : string) : no_newline s -> split_lines s = [s].
Proof.
  unfold no_newline. induction s as [|c s IH]; [reflexivity|].
  cbn [String.list_ascii_of_string split_lines]. intros Hn.
  apply not_elem_of_cons in Hn as [Hc Hs].
  destruct (Ascii.eqb c newline) eqn:Hcn.
  - apply Ascii.eqb_eq in Hcn. congruence.
  - by rewrite (IH Hs).
Qed.

Lemma split_lines_no_newline (s : string) : Forall no_newline (split_lines s).
Proof.
  induction s as [|c s IH]; cbn [split_lines].
  - repeat constructor. unfold no_newline. cbn. apply not_elem_of_nil.
  - destruct (Ascii.eqb c newline) eqn:Hcn.
    + constructor; [|exact IH]. unfold no_newline. cbn. apply not_elem_of_nil.
    + destruct (split_lines s) as [|l ls].
      * repeat constructor. unfold no_newline. cbn.
        apply not_elem_of_cons. split; [|apply not_elem_of_nil].
        intros <-. by rewrite Ascii.eqb_refl in Hcn.
      * inversion IH as [|? ? Hl Hls]; subst. constructor; [|exact Hls].
        unfold no_newline in *. cbn. apply not_elem_of_cons. split; [|exact Hl].
        intros <-. by rewrite Ascii.eqb_refl in Hcn.
Qed.

Lemma split_lines_join (ls : list string) :
  ls <> [] -> Forall no_newline ls -> split_lines (join "
" ls) = ls.
Proof.
  induction ls as [|l ls IH]; [done|]. intros _ Hall.
  inversion Hall as [|? ? Hl Hls]; subst.
  destruct ls as [|l2 ls].
  - cbn [join]. by apply split_lines_single.
  - rewrite join_cons_cons.
    change (l +:+ "
" +:+ join "
" (l2 :: ls)) with (l +:+ String newline (join "
" (l2 :: ls))).
    rewrite split_lines_app, (split_lines_single l Hl), IH by done.
    reflexivity.
Qed.

Lemma js_slice_prefix {A} (l : list A) (n : Z) :
  0 <= n -> js_slice l 0 (Some n) = take (Z.to_nat n) l.
Proof.
  intros Hn. unfold js_slice, js_rel_index.
  change (0 <? 0) with false. cbv iota.
  destruct (Z.ltb_spec n 0) as [Hlt|_]; [exfalso; lia|].
  rewrite (Z.min_l 0) by lia. change (Z.to_nat 0) with 0%nat. rewrite drop_0.
  destruct (Z.le_ge_cases n (Z.of_nat (length l))) as [Hle|Hge].
  - rewrite Z.min_l by lia. f_equal. lia.
  - rewrite Z.min_r by lia. rewrite Z.sub_0_r, Nat2Z.id.
    rewrite !take_ge by lia. reflexivity.
Qed.

Lemma pretty_N_char_no_newline (x : N) : pretty_N_char x <> newline.
Proof. unfold pretty_N_char. by repeat case_match. Qed.

Lemma no_newline_cons (c : ascii) (s : string) :
  c <> newline -> no_newline s -> no_newline (String c s).
Proof.
  unfold no_newline. cbn [String.list_ascii_of_string]. intros Hc Hs.
  apply not_elem_of_cons. split; [congruence|exact Hs].
Qed.

Lemma no_newline_app (s t : string) :
  no_newline s -> no_newline t -> no_newline (s +:+ t).
Proof.
  induction s as [|c s IH]; intros Hs Ht; [exact Ht|].
  rewrite append_cons. unfold no_newline in Hs.
  cbn [String.list_ascii_of_string] in Hs.
  apply not_elem_of_cons in Hs as [Hc Hs].
  apply no_newline_cons; [congruence|by apply IH].
Qed.

Lemma pretty_N_go_no_newline (x : N) (s : string) :
  no_newline s -> no_newline (pretty_N_go x s).
Proof.
  revert s. induction (N.lt_wf_0 x) as [x _ IH]; intros s Hs.
  destruct (decide (x = 0%N)) as [->|Hx]; [by rewrite pretty_N_go_0|].
  rewrite pretty_N_go_step by lia. apply IH.
  - apply N.div_lt; lia.
  - apply no_newline_cons; [apply pretty_N_char_no_newline|exact Hs].
Qed.

Lemma no_newline_literal (s : string) :
  bool_decide (newline ∉ String.list_ascii_of_string s) = true -> no_newline s.
Proof. intros H. by apply bool_decide_eq_true_1 in H. Qed.

Lemma pretty_Z_no_newline (z : Z) : no_newline (pretty z).
Proof.
  assert (Hn : forall x : N, no_newline (pretty x)).
  { intros x. unfold pretty, pretty_N. case_decide.
    - by apply no_newline_literal.
    - apply pretty_N_go_no_newline. by apply no_newline_literal. }
  destruct z as [|p|p]; unfold pretty, pretty_Z.
  - by apply no_newline_literal.
  - apply Hn.
  - apply no_newline_app; [by apply no_newline_literal|apply Hn].
Qed.

(** The lines of a text cut by [truncateLines]: the lines kept, then
    the line of the marker. *)
Lemma truncateLines_split (input : string) (lineLimit : Z) :
  1 <= lineLimit < Z.of_nat (length (split_lines input)) ->
  split_lines (truncateLines input lineLimit)
  = take (Z.to_nat lineLimit) (split_lines input) ++
    [String ellipsis
       (" (truncated " +:+ pretty (Z.of_nat (length (split_lines input)) - lineLimit)
        +:+ " more lines)")].
Proof.
  intros [H1 Hlt]. unfold truncateLines.
  destruct (Z.leb_spec (Z.of_nat (length (split_lines input))) lineLimit); [lia|].
  rewrite js_slice_prefix by lia.
  set (kept := take (Z.to_nat lineLimit) (split_lines input)).
  assert (Hlen : length kept = Z.to_nat lineLimit)
    by (unfold kept; rewrite length_take; lia).
  assert (Hne : kept <> []) by (intros E; rewrite E in Hlen; cbn in Hlen; lia).
  assert (Hnn : Forall no_newline kept)
    by (unfold kept; apply Forall_take, split_lines_no_newline).
  set (count := Z.of_nat (length (split_lines input)) - lineLimit).
  change (join "
" kept +:+ "
" +:+ String ellipsis (" (truncated " +:+ pretty count +:+ " more lines)"))
    with (join "
" kept +:+ String newline
                 (String ellipsis (" (truncated " +:+ pretty count +:+ " more lines)"))).
  rewrite split_lines_app, (split_lines_join kept Hne Hnn).
  rewrite split_lines_single; [reflexivity|].
  apply no_newline_cons; [discriminate|].
  apply no_newline_app; [by apply no_newline_literal|].
  apply no_newline_app; [apply pretty_Z_no_newline|by apply no_newline_literal].
Qed.

(** X3. [truncateLines] returns a text of at most [lineLimit] lines as it
    is. The lines of a longer text, after the call, are its first
    [lineLimit] lines followed by one line, the marker that tells how many
    lines were left out: the result has [lineLimit + 1] lines. *)
Theorem truncateLines_keeps_first_lines (input : string) (lineLimit : Z) :
  (Z.of_nat (length (split_lines input)) <= lineLimit ->
     truncateLines input lineLimit = input)
  /\ (1 <= lineLimit < Z.of_nat (length (split_lines input)) ->
        split_lines (truncateLines input lineLimit)
        = take (Z.to_nat lineLimit) (split_lines input) ++
          [String ellipsis
             (" (truncated "
              +:+ pretty (Z.of_nat (length (split_lines input)) - lineLimit)
              +:+ " more lines)")]
        /\ Z.of_nat (length (split_lines (truncateLines input lineLimit)))
           = lineLimit + 1).
Proof.
  split.
  - intros Hle. unfold truncateLines.
    destruct (Z.leb_spec (Z.of_nat (length (split_lines input))) lineLimit); [done|lia].
  - intros Hlt. rewrite (truncateLines_split input lineLimit Hlt).
    split; [reflexivity|].
    rewrite length_app, length_take. cbn [length]. lia.
Qed.

Lemma truncateLines_keeps_first_lines_witness :
  split_lines (truncateLines "a
b
c
d" 2) = ["a"; "b"; String ellipsis " (truncated 2 more lines)"]
  /\ Z.of_nat (length (split_lines (truncateLines "a
b
c
d" 2))) = 3.
Proof.
  apply (proj2 (truncateLines_keeps_first_lines "a
b
c
d" 2)).
  vm_compute. split; [discriminate|reflexivity].
Defined.

(** ** The line diff *)

Lemma diff_step_nil (oldLines newLines : list string) (diff : list diff_entry) (i : nat) :
  diff_step oldLines newLines diff i = [] ->
  diff = [] /\ oldLines !! i = newLines !! i.
Proof.
  unfold diff_step. case_bool_decide as Hne.
  - destruct (oldLines !! i), (newLines !! i); intros H;
      try (by destruct diff); done.
  - destruct (bool_decide (0 < length diff)%nat && bool_decide (length diff < 10)%nat);
      intros H; [by destruct diff|done].
Qed.

Lemma diff_fold_nil (oldLines newLines : list string) (l : list nat)
    (diff : list diff_entry) :
  foldl (diff_step oldLines newLines) diff l = [] ->
  diff = [] /\ forall i, i ∈ l -> oldLines !! i = newLines !! i.
Proof.
  revert diff. induction l as [|a l IH]; intros diff; cbn [foldl].
  - intros ->. split; [done|]. intros i Hi. by apply elem_of_nil in Hi.
  - intros H. apply IH in H as [H1 H2].
    apply diff_step_nil in H1 as [-> Ha]. split; [done|].
    intros i [->|Hi]%elem_of_cons; [exact Ha|by apply H2].
Qed.

Lemma diff_fold_same (lines : list string) (l : list nat) :
  foldl (diff_step lines lines) [] l = [].
Proof.
  induction l as [|a l IH]; [reflexivity|]. cbn [foldl].
  unfold diff_step at 2. rewrite bool_decide_eq_false_2 by (intros H; by apply H).
  cbn. exact IH.
Qed.

(** X4. The diff of two contents is empty exactly when the contents are
    equal: a write that changes the file always shows at least one diff
    line, and a write of the same content shows none. *)
Theorem generateDiff_empty_iff (oldContent newContent : string) :
  generateDiff oldContent newContent = [] <-> oldContent = newContent.
Proof.
  unfold generateDiff. split.
  - intros H. apply diff_fold_nil in H as [_ H].
    apply split_lines_inj, list_eq. intros i.
    destruct (decide (i < Nat.max (length (split_lines oldContent))
                                (length (split_lines newContent)))%nat) as [Hi|Hi].
    + apply H, elem_of_seq. lia.
    + rewrite !lookup_ge_None_2 by lia. reflexivity.
  - intros <-. apply diff_fold_same.
Qed.

(** ** The pruner: order, store, and the histories it leaves alone *)

Lemma total_tokens_cons (x : option message) (l : list (option message)) :
  total_tokens (x :: l) = estimateTokensFromMessage x + total_tokens l.
Proof. reflexivity. Qed.

Lemma total_tokens_app (l1 l2 : list (option message)) :
  total_tokens (l1 ++ l2) = total_tokens l1 + total_tokens l2.
Proof.
  induction l1 as [|x l1 IH]; [reflexivity|].
  cbn [app]. rewrite !total_tokens_cons, IH. lia.
Qed.

Lemma total_tokens_nonneg (l : list (option message)) : 0 <= total_tokens l.
Proof.
  induction l as [|x l IH]; [done|].
  rewrite total_tokens_cons. pose proof (estimateTokensFromMessage_nonneg x). lia.
Qed.

Lemma total_tokens_sublist (l1 l2 : list (option message)) :
  l1 `sublist_of` l2 -> total_tokens l1 <= total_tokens l2.
Proof.
  induction 1 as [|x l1 l2 _ IH|x l1 l2 _ IH]; rewrite ?total_tokens_cons.
  - done.
  - lia.
  - pose proof (estimateTokensFromMessage_nonneg x). lia.
Qed.

Lemma total_tokens_reverse (l : list (option message)) :
  total_tokens (reverse l) = total_tokens l.
Proof.
  induction l as [|x l IH]; [reflexivity|].
  rewrite reverse_cons, total_tokens_app, IH, !total_tokens_cons.
  change (total_tokens []) with 0. lia.
Qed.

Lemma sorted_sublist {A} (R : A -> A -> Prop) (l1 l2 : list A) :
  l1 `sublist_of` l2 -> StronglySorted R l2 -> StronglySorted R l1.
Proof.
  induction 1 as [|x l1 l2 Hsub IH|x l1 l2 Hsub IH]; intros Hs.
  - constructor.
  - apply StronglySorted_inv in Hs as [Hs Hx]. constructor; [by apply IH|].
    rewrite Forall_forall in Hx |- *. intros y Hy. apply Hx.
    by eapply elem_of_sublist.
  - apply StronglySorted_inv in Hs as [Hs _]. by apply IH.
Qed.

Lemma sorted_snoc {A} (R : A -> A -> Prop) (l : list A) (x : A) :
  StronglySorted R l -> Forall (fun y => R y x) l -> StronglySorted R (l ++ [x]).
Proof.
  induction l as [|y l IH]; cbn [app]; intros Hs Hall.
  - repeat constructor.
  - apply StronglySorted_inv in Hs as [Hl Hy].
    apply Forall_cons in Hall as [Hyx Hall].
    constructor; [by apply IH|].
    apply Forall_app. split; [done|]. by constructor.
Qed.

Lemma descending_reverse (l : list nat) :
  descending l -> StronglySorted (fun a b => (a < b)%nat) (reverse l).
Proof.
  unfold descending. induction 1 as [|x l Hl IH Hx]; [constructor|].
  rewrite reverse_cons. apply sorted_snoc; [exact IH|].
  rewrite Forall_forall in Hx |- *. intros y Hy. apply Hx.
  by rewrite elem_of_reverse in Hy.
Qed.

Lemma repair_chain_id (rest : list nat) (h : list message) (prev : nat) :
  chain h prev rest -> repair h prev rest = (h, rest).
Proof.
  revert prev. induction rest as [|q rest IH]; intros prev Hc; [reflexivity|].
  destruct Hc as [Hq Hc]. rewrite repair_cons.
  destruct (hasToolResults (h !! q)) eqn:Hr.
  - rewrite (Hq eq_refl). cbn [negb andb]. by rewrite (IH q Hc).
  - cbn [andb]. by rewrite (IH q Hc).
Qed.

Lemma strip_tool_results_idem (m : message) :
  strip_tool_results (strip_tool_results m) = strip_tool_results m.
Proof.
  destruct m as [r [s|bs]]; [reflexivity|].
  unfold strip_tool_results. cbn [msg_content msg_role]. do 2 f_equal.
  induction bs as [|b bs IH]; [reflexivity|].
  destruct (is_tool_result b) eqn:Hb.
  - rewrite filter_cons_False by (rewrite Hb; discriminate). exact IH.
  - rewrite !filter_cons_True by done. by rewrite IH.
Qed.

Lemma strip_tool_results_id (m : message) :
  hasToolResults (Some m) = false -> strip_tool_results m = m.
Proof.
  destruct m as [r [s|bs]]; [reflexivity|].
  unfold strip_tool_results. cbn [hasToolResults msg_content msg_role].
  intros H. do 2 f_equal. apply filter_all. intros b Hb.
  destruct (is_tool_result b) eqn:E; [|reflexivity].
  assert (existsb is_tool_result bs = true); [|congruence].
  apply existsb_exists. exists b. split; [|exact E]. by apply list_elem_of_In.
Qed.

(** The repair pass writes to the store only by stripping. *)
Lemma repair_strips (rest : list nat) (h : list message) (prev : nat) (p : nat) :
  length (repair h prev rest).1 = length h /\
  ((repair h prev rest).1 !! p = h !! p \/
   (repair h prev rest).1 !! p = strip_tool_results <$> h !! p).
Proof.
  revert h prev. induction rest as [|r rest IH]; intros h prev.
  - cbn. auto.
  - rewrite repair_cons.
    assert (Hsame : forall q,
      length (let '(h'', out) := repair h q rest in (h'', r :: out)).1 = length h /\
      ((let '(h'', out) := repair h q rest in (h'', r :: out)).1 !! p = h !! p \/
       (let '(h'', out) := repair h q rest in (h'', r :: out)).1 !! p
       = strip_tool_results <$> h !! p)).
    { intros q. specialize (IH h q). by destruct (repair h q rest). }
    destruct (hasToolResults (h !! r) && negb (hasToolUses (h !! prev)));
      [|apply Hsame].
    destruct (h !! r) as [m|] eqn:Hr; [|apply Hsame].
    set (h1 := <[r := strip_tool_results m]> h).
    assert (Hstrip : forall q,
      length (repair h1 q rest).1 = length h /\
      ((repair h1 q rest).1 !! p = h !! p \/
       (repair h1 q rest).1 !! p = strip_tool_results <$> h !! p)).
    { intros q. destruct (IH h1 q) as [Hl Hp]. split.
      - rewrite Hl. unfold h1. by rewrite length_insert.
      - unfold h1 in *. destruct (decide (p = r)) as [->|Hne].
        + rewrite list_lookup_insert_eq in Hp
            by (eapply lookup_lt_Some; eauto).
          rewrite Hr. right. destruct Hp as [-> | ->]; [reflexivity|].
          change (strip_tool_results <$> Some (strip_tool_results m))
            with (Some (strip_tool_results (strip_tool_results m))).
          by rewrite strip_tool_results_idem.
        + by rewrite list_lookup_insert_ne in Hp. }
    destruct (content_length_is_zero (strip_tool_results m)); [apply Hstrip|].
    specialize (Hstrip r). by destruct (repair h1 r rest).
Qed.

Lemma repair_pass_strips (h : list message) (pruned : list nat) (p : nat) :
  length (repair_pass h pruned).1 = length h /\
  ((repair_pass h pruned).1 !! p = h !! p \/
   (repair_pass h pruned).1 !! p = strip_tool_results <$> h !! p).
Proof.
  destruct pruned as [|p0 rest]; [cbn; auto|].
  cbn [repair_pass]. pose proof (repair_strips rest h p0 p) as H.
  by destruct (repair h p0 rest).
Qed.

Lemma pruned_sorted (messages : list message) (maxMessages maxTokens : Z) :
  messages <> [] ->
  StronglySorted (fun a b => (a < b)%nat)
    (0%nat :: reverse (scanned messages maxMessages maxTokens))
  /\ Forall (fun p => (p < length messages)%nat)
       (0%nat :: reverse (scanned messages maxMessages maxTokens)).
Proof.
  intros Hne. unfold scanned.
  set (st0 := ScanState [] (estimateTokensFromMessage (messages !! 0%nat)) []).
  destruct (scan_selected messages maxMessages maxTokens (length messages - 1) st0)
    as (added & Hsel & Hadded).
  cbn [selected st0 app] in Hsel.
  pose proof (scan_descending messages maxMessages maxTokens (length messages - 1) st0
                ltac:(constructor) ltac:(constructor)) as Hdesc.
  rewrite Hsel in *.
  assert (Hlen : (0 < length messages)%nat) by (destruct messages; [done|cbn; lia]).
  split.
  - constructor; [by apply descending_reverse|].
    rewrite Forall_forall in Hadded |- *. intros p Hp.
    rewrite elem_of_reverse in Hp. apply Hadded in Hp. lia.
  - constructor; [exact Hlen|].
    rewrite Forall_forall in Hadded |- *. intros p Hp.
    rewrite elem_of_reverse in Hp. apply Hadded in Hp. lia.
Qed.

Lemma trimmed_sub (messages : list message) (maxMessages maxTokens : Z) :
  trimmed messages maxMessages maxTokens
    `sublist_of` 0%nat :: reverse (scanned messages maxMessages maxTokens).
Proof.
  rewrite trimmed_eq. cbv zeta.
  destruct (maxMessages <? _); [|done].
  rewrite js_slice_suffix. apply sublist_drop.
Qed.

(** X5. The positions that [pruneMessages] returns are strictly
    increasing positions of the input: the returned messages are
    pairwise distinct messages of the history, in the order of the
    history. *)
Theorem pruneMessages_keeps_order (messages : list message) (maxMessages maxTokens : Z) :
  let r := pruneMessages messages maxMessages maxTokens in
  StronglySorted (fun a b => (a < b)%nat) (prunedMessages r)
  /\ Forall (fun p => (p < length messages)%nat) (prunedMessages r).
Proof.
  intros r. subst r.
  destruct (decide (messages = [])) as [->|Hne].
  { cbn. split; constructor. }
  destruct (decide (maxTokens < estimateTokensFromMessage (messages !! 0%nat)))
    as [Hbig|Hfit].
  { rewrite pruneMessages_early by done. cbn [prunedMessages].
    split; repeat constructor. destruct messages; [done|cbn; lia]. }
  pose proof (pruneMessages_sub_trimmed messages maxMessages maxTokens Hne
                ltac:(lia)) as Hsub.
  pose proof (trimmed_sub messages maxMessages maxTokens) as Hsub2.
  destruct (pruned_sorted messages maxMessages maxTokens Hne) as [Hs Hb].
  split.
  - eapply sorted_sublist; [|exact Hs]. by etrans.
  - rewrite Forall_forall in Hb |- *. intros p Hp. apply Hb.
    eapply elem_of_sublist; [exact Hp|]. by etrans.
Qed.

Lemma pruneMessages_store_lookup
    (messages : list message) (maxMessages maxTokens : Z) (p : nat) :
  let r := pruneMessages messages maxMessages maxTokens in
  length (store r) = length messages
  /\ (store r !! p = messages !! p
      \/ store r !! p = strip_tool_results <$> messages !! p).
Proof.
  intros r. subst r.
  destruct (decide (messages = [])) as [->|Hne]; [cbn; auto|].
  destruct (decide (maxTokens < estimateTokensFromMessage (messages !! 0%nat)))
    as [Hbig|Hfit].
  { rewrite pruneMessages_early by done. cbn [store]. auto. }
  destruct (pruneMessages_main messages maxMessages maxTokens Hne ltac:(lia))
    as [-> _].
  apply repair_pass_strips.
Qed.

Lemma strip_lookup_id (messages : list message) (p : nat) :
  hasToolResults (messages !! p) = false ->
  strip_tool_results <$> messages !! p = messages !! p.
Proof.
  intros Hno. destruct (messages !! p) as [m|]; [|reflexivity].
  cbn [fmap option_fmap option_map]. by rewrite strip_tool_results_id.
Qed.

(** X6. [pruneMessages] writes to the message objects of the history it
    is given, and only by removing [tool_result] blocks: the store has
    the length of the history, each message is as it was or stripped of
    its tool results, and a message without tool results is as it was. *)
Theorem pruneMessages_store_only_stripped
    (messages : list message) (maxMessages maxTokens : Z) (p : nat) :
  let r := pruneMessages messages maxMessages maxTokens in
  length (store r) = length messages
  /\ (store r !! p = messages !! p
      \/ store r !! p = strip_tool_results <$> messages !! p)
  /\ (hasToolResults (messages !! p) = false -> store r !! p = messages !! p).
Proof.
  intros r.
  destruct (pruneMessages_store_lookup messages maxMessages maxTokens p) as [Hl Hp].
  fold r in Hl, Hp. split; [exact Hl|]. split; [exact Hp|].
  intros Hno. destruct Hp as [Hp|Hp]; [exact Hp|].
  rewrite Hp. by apply strip_lookup_id.
Qed.

Lemma pruneMessages_store_only_stripped_witness :
  store (pruneMessages [plain "task"; answer_message "t0"; plain "next"] 50
           MAX_PROMPT_TOKEN_BUDGET) !! 2%nat
  = Some (plain "next").
Proof.
  destruct (pruneMessages_store_only_stripped
              [plain "task"; answer_message "t0"; plain "next"] 50
              MAX_PROMPT_TOKEN_BUDGET 2) as (_ & _ & H).
  apply H. reflexivity.
Defined.


Section ScanBudget.
Variable messages : list message.
Variables maxMessages maxTokens : Z.

(** Within the ceiling and the budget the scan keeps every message. *)
Lemma scan_keeps_all (i : nat) (st : scan_state) :
  (i < length messages)%nat ->
  Z.of_nat (length (selected st)) + Z.of_nat i <= maxMessages - 1 ->
  usedTokens st + total_tokens (Some <$> take i (drop 1 messages)) <= maxTokens ->
  selected (scan messages maxMessages maxTokens i st) = selected st ++ reverse (seq 1 i)
  /\ archived (scan messages maxMessages maxTokens i st) = archived st.
Proof.
  revert st. induction i as [i IH] using lt_wf_ind. intros st Hi Hlen Htok.
  destruct i as [|i1]; [by rewrite app_nil_r|].
  assert (Hlook : exists m, messages !! S i1 = Some m)
    by (apply lookup_lt_is_Some_2; lia).
  destruct Hlook as [m Hm].
  assert (Htake : take (S i1) (drop 1 messages) = take i1 (drop 1 messages) ++ [m]).
  { apply take_S_r. rewrite lookup_drop. exact Hm. }
  rewrite Htake, fmap_app, total_tokens_app in Htok.
  cbn [fmap list_fmap total_tokens foldr] in Htok.
  pose proof (total_tokens_nonneg (Some <$> take i1 (drop 1 messages))) as Hnn.
  pose proof (estimateTokensFromMessage_nonneg (Some m)) as Hm0.
  assert (Hseq : reverse (seq 1 (S i1)) = S i1 :: reverse (seq 1 i1)).
  { rewrite seq_S, reverse_app. reflexivity. }
  destruct (scan_cases messages maxMessages maxTokens i1 st)
    as [(_ & Hskip & _) | [(_ & ->) | (i2 & -> & _ & ->)]].
  - exfalso. rewrite Hm in Hskip. destruct Hskip; lia.
  - destruct (IH i1 ltac:(lia) (keep messages st (S i1))) as [Hs Ha].
    + lia.
    + cbn [keep selected]. rewrite length_app. cbn [length]. lia.
    + cbn [keep usedTokens]. rewrite Hm. lia.
    + rewrite Hs, Ha, Hseq. cbn [keep selected archived].
      by rewrite <- app_assoc.
  - assert (Hlook2 : exists m2, messages !! S i2 = Some m2)
      by (apply lookup_lt_is_Some_2; lia).
    destruct Hlook2 as [m2 Hm2].
    assert (Htake2 : take (S i2) (drop 1 messages) = take i2 (drop 1 messages) ++ [m2]).
    { apply take_S_r. rewrite lookup_drop. exact Hm2. }
    rewrite Htake2, fmap_app, total_tokens_app in Htok.
    cbn [fmap list_fmap total_tokens foldr] in Htok.
    destruct (IH i2 ltac:(lia)
                (keep messages (keep messages st (S (S i2))) (S i2))) as [Hs Ha].
    + lia.
    + cbn [keep selected]. rewrite !length_app. cbn [length]. lia.
    + cbn [keep usedTokens]. rewrite Hm, Hm2. lia.
    + rewrite Hs, Ha, Hseq. cbn [keep selected archived].
      rewrite seq_S, reverse_app. cbn [reverse app plus].
      by rewrite <- !app_assoc.
Qed.

(** Without tool results after the first message, the scan stays within
    the budget and accounts for what it keeps. *)
Lemma scan_within_budget (i : nat) (st : scan_state) (base : Z) :
  (forall j, hasToolResults (messages !! S j) = false) ->
  usedTokens st = base + total_tokens ((fun p => messages !! p) <$> selected st) ->
  usedTokens st <= maxTokens ->
  let st' := scan messages maxMessages maxTokens i st in
  usedTokens st' = base + total_tokens ((fun p => messages !! p) <$> selected st')
  /\ usedTokens st' <= maxTokens.
Proof.
  intros Hno. revert st. induction i as [i IH] using lt_wf_ind.
  intros st Hacc Hle. cbv zeta.
  destruct i as [|i1]; [done|].
  destruct (scan_cases messages maxMessages maxTokens i1 st)
    as [(_ & _ & ->) | [(Hk & ->) | (i2 & -> & Htr & _)]].
  - apply (IH i1); [lia|exact Hacc|exact Hle].
  - destruct Hk as [[Hn _]|(_ & _ & Hfit)].
    { unfold needsPreviousMessage in Hn. rewrite Hno in Hn. discriminate Hn. }
    apply (IH i1); [lia| |exact Hfit].
    cbn [keep usedTokens selected]. rewrite fmap_app, total_tokens_app, Hacc.
    cbn [fmap list_fmap total_tokens foldr]. lia.
  - rewrite Hno in Htr. discriminate Htr.
Qed.
End ScanBudget.

Lemma seq_chain (h : list message) (k n : nat) :
  well_paired h -> chain h k (seq (S k) n).
Proof.
  intros Hw. revert k. induction n as [|n IH]; intros k; [exact I|].
  cbn [seq chain]. split; [apply Hw|apply IH].
Qed.

Lemma no_results_chain (h : list message) (prev : nat) (l : list nat) :
  (forall q, q ∈ l -> hasToolResults (h !! q) = false) -> chain h prev l.
Proof.
  revert prev. induction l as [|q l IH]; intros prev Hno; [exact I|].
  split.
  - rewrite Hno by apply list_elem_of_here. discriminate.
  - apply IH. intros q' Hq'. apply Hno. by apply list_elem_of_further.
Qed.

Lemma total_tokens_messages (messages : list message) :
  total_tokens (Some <$> messages)
  = estimateTokensFromMessage (messages !! 0%nat)
    + total_tokens (Some <$> drop 1 messages).
Proof. destruct messages as [|m ms]; reflexivity. Qed.

(** X7. A history that fits is returned as it is: when it holds at most
    [maxMessages] messages, its estimate is within the budget, and every
    message with tool results stands right after a message with tool
    uses, [pruneMessages] returns every position, archives nothing and
    leaves the store untouched. *)
Theorem pruneMessages_fits_unchanged
    (messages : list message) (maxMessages maxTokens : Z) :
  messages <> [] ->
  Z.of_nat (length messages) <= maxMessages ->
  total_tokens (Some <$> messages) <= maxTokens ->
  well_paired messages ->
  pruneMessages messages maxMessages maxTokens
  = PruneResult (seq 0 (length messages)) [] messages.
Proof.
  intros Hne Hlen Htok Hw.
  rewrite total_tokens_messages in Htok.
  pose proof (total_tokens_nonneg (Some <$> drop 1 messages)) as Hnn.
  assert (Hn : (0 < length messages)%nat) by (destruct messages; [done|cbn; lia]).
  set (st0 := ScanState [] (estimateTokensFromMessage (messages !! 0%nat)) []).
  destruct (scan_keeps_all messages maxMessages maxTokens (length messages - 1) st0)
    as [Hs Ha].
  { lia. }
  { cbn [st0 selected length]. lia. }
  { cbn [st0 usedTokens]. rewrite take_ge by (rewrite length_drop; lia). exact Htok. }
  cbn [st0 selected archived app] in Hs, Ha.
  unfold pruneMessages.
  destruct (Nat.eqb_spec (length messages) 0) as [E|_]; [lia|].
  destruct (Z.ltb_spec maxTokens (estimateTokensFromMessage (messages !! 0%nat)))
    as [Hbig|_]; [lia|].
  fold st0. rewrite Hs, Ha, reverse_involutive.
  change (0%nat :: seq 1 (length messages - 1)) with (seq 0 (S (length messages - 1))).
  replace (S (length messages - 1)) with (length messages) by lia.
  unfold trim_overflow. rewrite length_seq.
  destruct (Z.ltb_spec maxMessages (Z.of_nat (length messages))) as [Hover|_]; [lia|].
  destruct (length messages) as [|n] eqn:En; [lia|].
  cbn [seq repair_pass]. rewrite (repair_chain_id _ _ _ (seq_chain messages 0 n Hw)).
  cbn [length]. rewrite length_seq.
  destruct (Z.ltb_spec maxMessages (Z.of_nat (S n))) as [Hover|_]; [lia|].
  reflexivity.
Qed.

Lemma pruneMessages_fits_unchanged_witness :
  pruneMessages (agent_history 3) 50 MAX_PROMPT_TOKEN_BUDGET
  = PruneResult (seq 0 (length (agent_history 3))) [] (agent_history 3).
Proof.
  apply pruneMessages_fits_unchanged.
  - discriminate.
  - vm_compute. discriminate.
  - vm_compute. discriminate.
  - intros i. destruct i as [|[|[|[|[|[|[|i]]]]]]]; vm_compute; congruence.
Defined.

(** X8. The token budget binds when no forced keep occurs: if the first
    message fits and no later message holds tool results, the estimates
    of the returned messages add up to at most [maxTokens], and the
    store is untouched. *)
Theorem pruneMessages_within_budget
    (messages : list message) (maxMessages maxTokens : Z) :
  messages <> [] ->
  estimateTokensFromMessage (messages !! 0%nat) <= maxTokens ->
  (forall j, hasToolResults (messages !! S j) = false) ->
  let r := pruneMessages messages maxMessages maxTokens in
  total_tokens (returned r) <= maxTokens /\ store r = messages.
Proof.
  intros Hne Hfit Hno r.
  set (st0 := ScanState [] (estimateTokensFromMessage (messages !! 0%nat)) []).
  destruct (scan_within_budget messages maxMessages maxTokens
              (length messages - 1) st0
              (estimateTokensFromMessage (messages !! 0%nat)) Hno)
    as [Hacc Hle].
  { cbn. lia. }
  { exact Hfit. }
  fold (scanned messages maxMessages maxTokens) in Hacc.
  destruct (pruned_sorted messages maxMessages maxTokens Hne) as [_ Hb].
  pose proof (trimmed_sub messages maxMessages maxTokens) as Hsub2.
  pose proof (pruneMessages_sub_trimmed messages maxMessages maxTokens Hne Hfit)
    as Hsub.
  destruct (pruneMessages_main messages maxMessages maxTokens Hne Hfit)
    as [Hstore _].
  assert (Hrp : repair_pass messages (trimmed messages maxMessages maxTokens)
                = (messages, trimmed messages maxMessages maxTokens)).
  { destruct (trimmed messages maxMessages maxTokens) as [|p0 rest] eqn:Et;
      [reflexivity|].
    cbn [repair_pass]. rewrite repair_chain_id; [reflexivity|].
    apply no_results_chain. intros q Hq.
    assert (Hin : q ∈ 0%nat :: reverse (scanned messages maxMessages maxTokens)).
    { eapply elem_of_sublist; [|exact Hsub2]. by apply list_elem_of_further. }
    assert (Hsorted := proj1 (pruned_sorted messages maxMessages maxTokens Hne)).
    assert (Hs2 : StronglySorted (fun a b => (a < b)%nat) (p0 :: rest))
      by (eapply sorted_sublist; [exact Hsub2|exact Hsorted]).
    apply StronglySorted_inv in Hs2 as [_ Hp0].
    rewrite Forall_forall in Hp0. apply Hp0 in Hq.
    destruct q as [|q']; [lia|]. apply Hno. }
  assert (Hst : store r = messages) by (subst r; rewrite Hstore, Hrp; reflexivity).
  split; [|exact Hst].
  unfold returned. rewrite Hst.
  etrans; [|exact Hle]. rewrite Hacc.
  etrans.
  { apply total_tokens_sublist.
    apply (fmap_sublist (fun p => messages !! p)).
    etrans; [exact Hsub|exact Hsub2]. }
  rewrite fmap_cons, total_tokens_cons, fmap_reverse, total_tokens_reverse.
  unfold scanned. fold st0. lia.
Qed.

Lemma pruneMessages_within_budget_witness :
  let r := pruneMessages [plain "task"; plain "a"; plain "b"; plain "c"] 50 16 in
  total_tokens (returned r) <= 16
  /\ store r = [plain "task"; plain "a"; plain "b"; plain "c"].
Proof.
  apply pruneMessages_within_budget.
  - discriminate.
  - vm_compute. discriminate.
  - intros j. destruct j as [|[|[|j]]]; reflexivity.
Defined.

Lemma repair_keeps_plain (rest : list nat) (h : list message) (prev p : nat) :
  p ∈ rest -> hasToolResults (h !! p) = false -> p ∈ (repair h prev rest).2.
Proof.
  revert h prev. induction rest as [|r rest IH]; intros h prev Hin Hno.
  { by apply elem_of_nil in Hin. }
  rewrite repair_cons.
  assert (Hkeep : forall q,
    p ∈ (let '(h'', out) := repair h q rest in (h'', r :: out)).2).
  { intros q. apply elem_of_cons in Hin as [->|Hin].
    - destruct (repair h q rest). apply list_elem_of_here.
    - specialize (IH h q Hin Hno). destruct (repair h q rest).
      by apply list_elem_of_further. }
  destruct (hasToolResults (h !! r) && negb (hasToolUses (h !! prev))) eqn:Hc;
    [|apply Hkeep].
  destruct (h !! r) as [m|] eqn:Hr; [|apply Hkeep].
  assert (Hne : p <> r).
  { intros ->. rewrite Hr in Hno. apply andb_true_iff in Hc as [Hc _]. congruence. }
  apply elem_of_cons in Hin as [->|Hin]; [done|].
  assert (Hno' : hasToolResults (<[r := strip_tool_results m]> h !! p) = false).
  { destruct (hasToolResults (<[r := strip_tool_results m]> h !! p)) eqn:E; [|done].
    apply (strip_store_results h r p m Hr) in E. congruence. }
  destruct (content_length_is_zero (strip_tool_results m)).
  - by apply IH.
  - specialize (IH (<[r := strip_tool_results m]> h) r Hin Hno').
    destruct (repair (<[r := strip_tool_results m]> h) r rest).
    by apply list_elem_of_further.
Qed.

(** X9. The repair pass never drops a message without tool results:
    such a message, once it has survived the scan and the trim, is
    returned, and it is returned unchanged. *)
Theorem pruneMessages_keeps_plain_messages
    (messages : list message) (maxMessages maxTokens : Z) (p : nat) :
  messages <> [] ->
  estimateTokensFromMessage (messages !! 0%nat) <= maxTokens ->
  1 <= maxMessages ->
  p ∈ trimmed messages maxMessages maxTokens ->
  hasToolResults (messages !! p) = false ->
  let r := pruneMessages messages maxMessages maxTokens in
  p ∈ prunedMessages r /\ store r !! p = messages !! p.
Proof.
  intros Hne Hfit Hmax Hin Hno r.
  split.
  2:{ destruct (pruneMessages_store_lookup messages maxMessages maxTokens p)
        as [_ [Hp|Hp]]; [exact Hp|].
      fold r in Hp. rewrite Hp. by apply strip_lookup_id. }
  subst r.
  destruct (pruneMessages_main messages maxMessages maxTokens Hne Hfit) as [_ ->].
  pose proof (repair_pass_sub messages (trimmed messages maxMessages maxTokens)) as Hsub.
  pose proof (trimmed_length messages maxMessages maxTokens Hmax) as Hlen.
  apply sublist_length in Hsub.
  destruct (Z.ltb_spec maxMessages
              (Z.of_nat (length (repair_pass messages
                                   (trimmed messages maxMessages maxTokens)).2)))
    as [Hover|_]; [lia|].
  destruct (trimmed messages maxMessages maxTokens) as [|p0 rest]; [done|].
  cbn [repair_pass]. apply elem_of_cons in Hin as [->|Hin].
  - destruct (repair messages p0 rest). apply list_elem_of_here.
  - pose proof (repair_keeps_plain rest messages p0 p Hin Hno) as Hk.
    destruct (repair messages p0 rest). by apply list_elem_of_further.
Qed.

Lemma pruneMessages_keeps_plain_messages_witness :
  let messages := [plain "task"; answer_message "t0"; plain "next"] in
  let r := pruneMessages messages 50 MAX_PROMPT_TOKEN_BUDGET in
  2%nat ∈ prunedMessages r /\ store r !! 2%nat = messages !! 2%nat.
Proof.
  intros messages.
  apply (pruneMessages_keeps_plain_messages messages 50 MAX_PROMPT_TOKEN_BUDGET 2).
  - discriminate.
  - vm_compute. discriminate.
  - lia.
  - vm_compute. apply list_elem_of_further, list_elem_of_further, list_elem_of_here.
  - reflexivity.
Defined.

(** ** C1: the ids of tool answers and tool calls *)

Lemma tool_result_ids_has (m : option message) (id : string) :
  id ∈ tool_result_ids m -> hasToolResults m = true.
Proof.
  destruct m as [[r [s|bs]]|]; cbn [tool_result_ids hasToolResults];
    try (intros H; by apply elem_of_nil in H).
  induction bs as [|b bs IH]; [intros H; by apply elem_of_nil in H|].
  cbn [omap list_omap existsb]. destruct b; cbn [is_tool_result orb]; auto.
Qed.

Lemma tool_use_ids_has (m : option message) (id : string) :
  id ∈ tool_use_ids m -> hasToolUses m = true.
Proof.
  destruct m as [[r [s|bs]]|]; cbn [tool_use_ids hasToolUses];
    try (intros H; by apply elem_of_nil in H).
  induction bs as [|b bs IH]; [intros H; by apply elem_of_nil in H|].
  cbn [omap list_omap existsb]. destruct b; cbn [is_tool_use orb]; auto.
Qed.

Lemma tool_use_ids_strip (m : message) :
  tool_use_ids (Some (strip_tool_results m)) = tool_use_ids (Some m).
Proof.
  destruct m as [r [s|bs]]; [reflexivity|].
  unfold strip_tool_results. cbn [msg_content msg_role tool_use_ids].
  induction bs as [|b bs IH]; [reflexivity|].
  rewrite filter_cons.
  destruct b; cbn [is_tool_result]; case_decide; try done;
    cbn [omap list_omap]; by rewrite IH.
Qed.

(** In a strictly increasing list, an earlier entry is smaller. *)
Lemma sorted_lookup_lt (l : list nat) (i k a b : nat) :
  StronglySorted (fun a b => (a < b)%nat) l ->
  (i < k)%nat -> l !! i = Some a -> l !! k = Some b -> (a < b)%nat.
Proof.
  intros Hs. revert i k. induction Hs as [|x l Hs IH Hx]; intros i k Hik Hi Hk.
  { by rewrite lookup_nil in Hi. }
  destruct k as [|k]; [lia|]. cbn in Hk. destruct i as [|i].
  - cbn in Hi. injection Hi as <-.
    rewrite Forall_forall in Hx. apply Hx. by eapply list_elem_of_lookup_2.
  - cbn in Hi. apply (IH i k); [lia|done|done].
Qed.

(** Between two neighbours of a strictly increasing list lies no entry. *)
Lemma sorted_no_entry_between (l : list nat) (j p q x : nat) :
  StronglySorted (fun a b => (a < b)%nat) l ->
  l !! j = Some p -> l !! S j = Some q -> x ∈ l -> (p <= x < q)%nat -> x = p.
Proof.
  intros Hs Hp Hq Hx Hpx. apply list_elem_of_lookup in Hx as [k Hk].
  destruct (lt_eq_lt_dec k j) as [[Hlt | ->] | Hgt].
  - pose proof (sorted_lookup_lt l k j x p Hs Hlt Hk Hp). lia.
  - congruence.
  - destruct (decide (k = S j)) as [-> | Hne]; [simplify_eq; lia|].
    pose proof (sorted_lookup_lt l (S j) k q x Hs ltac:(lia) Hq Hk). lia.
Qed.

(** A suffix of a strictly increasing list holds every entry of the list
    that is no smaller than one of its own. *)
Lemma sorted_drop_upward (l : list nat) (k p x : nat) :
  StronglySorted (fun a b => (a < b)%nat) l ->
  p ∈ drop k l -> x ∈ l -> (p <= x)%nat -> x ∈ drop k l.
Proof.
  intros Hs Hp Hx Hpx.
  rewrite <- (take_drop k l) in Hx. apply elem_of_app in Hx as [Hx|Hx]; [|done].
  exfalso. apply list_elem_of_lookup in Hx as [i Hi].
  apply list_elem_of_lookup in Hp as [i' Hi'].
  rewrite lookup_drop in Hi'.
  pose proof (lookup_lt_Some _ _ _ Hi) as Hlen. rewrite length_take in Hlen.
  rewrite lookup_take_lt in Hi by lia.
  pose proof (sorted_lookup_lt l i (k + i') x p Hs ltac:(lia) Hi Hi'). lia.
Qed.

Lemma prunedMessages_sorted (messages : list message) (maxMessages maxTokens : Z) :
  messages <> [] ->
  estimateTokensFromMessage (messages !! 0%nat) <= maxTokens ->
  StronglySorted (fun a b => (a < b)%nat)
    (prunedMessages (pruneMessages messages maxMessages maxTokens)).
Proof.
  intros Hne Hfit.
  eapply sorted_sublist; [by apply pruneMessages_sub_trimmed|].
  eapply sorted_sublist; [apply trimmed_sub|].
  by apply pruned_sorted.
Qed.

(** For a history of the agent loop, the ids match from the second
    returned message on: a returned message that still holds a tool result
    and is not the first of the list stands right after the message that
    stood before it in the history, which holds the tool use of the id. *)
Lemma pruneMessages_matched_after_first
    (messages : list message) (maxMessages maxTokens : Z) :
  paired messages ->
  1 <= maxMessages ->
  matched_after_first (returned (pruneMessages messages maxMessages maxTokens)).
Proof.
  intros Hpaired Hmm j msg id Hj Hid.
  destruct (decide (messages = [])) as [->|Hne].
  { cbn in Hj. discriminate. }
  destruct (decide (maxTokens < estimateTokensFromMessage (messages !! 0%nat)))
    as [Hbig|Hfit].
  { rewrite pruneMessages_early in Hj by done. cbn in Hj. discriminate. }
  assert (Hfit' : estimateTokensFromMessage (messages !! 0%nat) <= maxTokens) by lia.
  pose proof (prunedMessages_sorted messages maxMessages maxTokens Hne Hfit') as Hsorted.
  unfold returned in *. rewrite list_lookup_fmap in Hj |- *.
  destruct (prunedMessages _ !! S j) as [q|] eqn:Eq; [|discriminate].
  cbn in Hj. injection Hj as <-.
  destruct (lookup_lt_is_Some_2 (prunedMessages (pruneMessages messages maxMessages maxTokens)) j)
    as [p Ep]; [apply lookup_lt_Some in Eq; lia|].
  rewrite Ep. cbn [fmap option_fmap option_map].
  pose proof (sorted_lookup_lt _ j (S j) p q Hsorted ltac:(lia) Ep Eq) as Hpq.
  (* the message at [q] is as it was in the history *)
  pose proof (tool_result_ids_has _ _ Hid) as Hres.
  destruct (pruneMessages_store_lookup messages maxMessages maxTokens q) as [_ [Hq|Hq]].
  2:{ rewrite Hq in Hres. destruct (messages !! q) as [m|]; [|discriminate].
      cbn [fmap option_fmap option_map] in Hres.
      by rewrite hasToolResults_strip in Hres. }
  rewrite Hq in Hid, Hres.
  destruct q as [|q']; [lia|].
  destruct (Hpaired q') as [Hids _]. specialize (Hids id Hid).
  pose proof (tool_use_ids_has _ _ Hids) as Huses.
  (* the message before it in the history is the one before it in the list *)
  assert (Hp : p = q').
  { destruct q' as [|q'']; [lia|].
    assert (Hlen : (S (S q'') < length messages)%nat).
    { apply lookup_lt_is_Some. destruct (messages !! S (S q'')); [eauto|discriminate]. }
    assert (Hnext : hasToolResults (messages !! S (S (S q''))) = false).
    { destruct (Hpaired (S (S q''))) as [_ Hno].
      destruct (hasToolResults (messages !! S (S (S q'')))); [|done].
      specialize (Hno eq_refl). congruence. }
    assert (Hscan : S q'' ∈ scanned messages maxMessages maxTokens).
    { pose proof (scan_keeps_pair messages maxMessages maxTokens (length messages - 1)
                    (ScanState [] (estimateTokensFromMessage (messages !! 0%nat)) [])
                    (S (S q'')) ltac:(lia) Hres Hnext) as [_ H].
      replace (S (S q'') - 1)%nat with (S q'') in H by lia. exact H. }
    assert (Htrim : S q'' ∈ trimmed messages maxMessages maxTokens).
    { assert (Hpt : p ∈ trimmed messages maxMessages maxTokens).
      { eapply elem_of_sublist; [|by apply pruneMessages_sub_trimmed].
        by eapply list_elem_of_lookup_2. }
      rewrite trimmed_eq in Hpt |- *. cbv zeta in *.
      assert (Hall : S q'' ∈ 0%nat :: reverse (scanned messages maxMessages maxTokens)).
      { apply list_elem_of_further. by rewrite elem_of_reverse. }
      destruct (maxMessages <? _); [|done].
      rewrite js_slice_suffix in Hpt |- *.
      eapply sorted_drop_upward; [by apply pruned_sorted|exact Hpt|exact Hall|lia]. }
    pose proof (pruneMessages_keeps_pair messages maxMessages maxTokens (S (S q''))
                  Hfit' Hmm ltac:(lia) Hres Hnext) as Hpair.
    assert (E : (S (S q'') - 1)%nat = S q'') by lia. rewrite E in Hpair.
    destruct (Hpair Huses Htrim) as [Hin _].
    symmetry. eapply (sorted_no_entry_between _ j p (S (S q''))); eauto. lia. }
  subst p. eexists. split; [reflexivity|].
  destruct (pruneMessages_store_lookup messages maxMessages maxTokens q') as [_ [->| ->]];
    [done|].
  destruct (messages !! q') as [m|]; [|done].
  cbn [fmap option_fmap option_map]. by rewrite tool_use_ids_strip.
Qed.

(** The sample histories are histories of the agent loop. *)
Lemma rounds_paired (m : message) (s k : nat) :
  paired (m :: flat_map (fun n => [call_message ("t" +:+ pretty n);
                                   answer_message ("t" +:+ pretty n)]) (seq s k)).
Proof.
  revert m s. induction k as [|k IH]; intros m s i.
  { cbn. destruct i; cbn; split; (intros id H; by apply elem_of_nil in H) || done. }
  cbn [seq flat_map app].
  destruct i as [|[|i]].
  - cbn. split; [intros id H; by apply elem_of_nil in H|done].
  - cbn. split; [done|done].
  - apply (IH (answer_message ("t" +:+ pretty s)) (S s) i).
Qed.

Lemma agent_history_paired (k : nat) : paired (agent_history k).
Proof. apply rounds_paired. Qed.

(** C1. A tool answer comes back without its call. The repair pass is to
    remove the orphaned tool results (a message with tool results whose
    predecessor holds no tool use is stripped of them), but it starts at
    the second message of the list, so a tool answer that the trim has
    left in first place keeps its result block. On the histories of the
    agent loop the ids do match from the second returned message on,
    whatever the number of rounds, at both ceilings the callers pass. At
    the first message they need not: the history of a run after 25 tool
    rounds, pruned with the ceiling 49 before it is stored, comes back
    starting with the answer to the call "t1", and no returned message
    holds that call. *)
Theorem pruneMessages_orphans_first_result :
  (forall k,
      matched_after_first
        (returned (pruneMessages (agent_history k) 50 MAX_PROMPT_TOKEN_BUDGET))
      /\ matched_after_first
           (returned (pruneMessages (agent_history k) 49 MAX_PROMPT_TOKEN_BUDGET)))
  /\ (let out := returned (pruneMessages (agent_history 25) 49 MAX_PROMPT_TOKEN_BUDGET) in
      head out = Some (Some (answer_message "t1"))
      /\ tool_result_ids (Some (answer_message "t1")) = ["t1"]
      /\ Forall (fun prev => "t1" ∉ tool_use_ids prev) out
      /\ ~ matched_adjacency out).
Proof.
  split.
  - intros k.
    split; apply pruneMessages_matched_after_first;
      first [apply agent_history_paired | lia].
  - cbv zeta. split_and!.
    + vm_compute. reflexivity.
    + reflexivity.
    + apply (bool_decide_unpack _). vm_compute. exact I.
    + intros H.
      destruct (H 0%nat (Some (answer_message "t1")) "t1") as (j & prev & Hj & _).
      * vm_compute. reflexivity.
      * cbn. apply list_elem_of_singleton. reflexivity.
      * discriminate.
Qed.

(** ** The cache: ties, reads, and the bound on the undo stacks *)

Section Stable.
Context {A : Type} (key : A -> Z).

Lemma insert_by_filter (k : Z) (x : A) (l : list A) :
  filter (fun y => key y = k) (insert_by key x l)
  = filter (fun y => key y = k) (x :: l).
Proof.
  induction l as [|y l IH]; [reflexivity|].
  cbn [insert_by]. destruct (Z.leb_spec (key x) (key y)) as [Hle|Hlt]; [reflexivity|].
  rewrite (filter_cons _ y (insert_by key x l)), IH.
  rewrite !filter_cons.
  destruct (decide (key y = k)) as [Hy|Hy];
    destruct (decide (key x = k)) as [Hx|Hx]; try reflexivity.
  exfalso. lia.
Qed.

(** The sort is stable: elements with the same key keep their order. *)
Lemma sort_by_stable (k : Z) (l : list A) :
  filter (fun y => key y = k) (sort_by key l) = filter (fun y => key y = k) l.
Proof.
  induction l as [|x l IH]; [reflexivity|].
  change (sort_by key (x :: l)) with (insert_by key x (sort_by key l)).
  rewrite insert_by_filter, !filter_cons, IH. reflexivity.
Qed.
End Stable.

Lemma before_app {A} (x y : A) (l1 l2 : list A) :
  x ∈ l1 -> y ∈ l2 -> before x y (l1 ++ l2).
Proof.
  intros (a1 & a2 & ->)%list_elem_of_split (b1 & b2 & ->)%list_elem_of_split.
  exists a1, (a2 ++ b1), b2. by rewrite <- !app_assoc.
Qed.

Lemma before_filter {A} (P : A -> Prop) `{!forall x, Decision (P x)}
    (x y : A) (l : list A) :
  before x y l -> P x -> P y -> before x y (filter P l).
Proof.
  intros (l1 & l2 & l3 & ->) Hx Hy.
  exists (filter P l1), (filter P l2), (filter P l3).
  rewrite filter_app, filter_cons_True by done.
  rewrite filter_app, filter_cons_True by done. reflexivity.
Qed.

Lemma before_antisym {A} (x y : A) (l : list A) :
  NoDup l -> before x y l -> before y x l -> False.
Proof.
  intros Hnd (l1 & l2 & l3 & E1) (m1 & m2 & m3 & E2).
  assert (Hx1 : l !! length l1 = Some x).
  { rewrite E1. by rewrite list_lookup_middle. }
  assert (Hy1 : l !! (length l1 + S (length l2))%nat = Some y).
  { rewrite E1.
    change (l1 ++ x :: l2 ++ y :: l3) with (l1 ++ (x :: l2) ++ y :: l3).
    rewrite app_assoc. apply list_lookup_middle.
    rewrite length_app. cbn [length]. lia. }
  assert (Hy2 : l !! length m1 = Some y).
  { rewrite E2. by rewrite list_lookup_middle. }
  assert (Hx2 : l !! (length m1 + S (length m2))%nat = Some x).
  { rewrite E2.
    change (m1 ++ y :: m2 ++ x :: m3) with (m1 ++ (y :: m2) ++ x :: m3).
    rewrite app_assoc. apply list_lookup_middle.
    rewrite length_app. cbn [length]. lia. }
  pose proof (NoDup_lookup l _ _ x Hnd Hx1 Hx2).
  pose proof (NoDup_lookup l _ _ y Hnd Hy1 Hy2).
  lia.
Qed.

(** X10. Among the entries with the same [lastRead] (all the files read
    or written in one pass of [executeTools] share one), eviction takes
    the one that entered the cache first: if an entry is evicted, so is
    every entry of the same [lastRead] that stands before it in the
    map. *)
Theorem eviction_ties_by_insertion_order
    (cache : list (string * FileContext)) (maxSize : nat)
    (a b : string * FileContext) :
  Map_wf cache ->
  before a b cache ->
  lastRead a.2 = lastRead b.2 ->
  b ∈ evicted cache maxSize ->
  a ∈ evicted cache maxSize.
Proof.
  intros Hwf Hab Hkey Hb. unfold evicted in *.
  case_bool_decide as Hsmall; [by apply elem_of_nil in Hb|].
  set (n := (length cache - maxSize)%nat) in *.
  set (s := sort_by lastRead_key cache) in *.
  assert (Hnd : NoDup cache) by (eapply NoDup_fmap_1; exact Hwf).
  assert (Ha : a ∈ cache).
  { destruct Hab as (l1 & l2 & l3 & ->). apply elem_of_app. right.
    apply list_elem_of_here. }
  assert (Has : a ∈ s).
  { unfold s. by rewrite (sort_by_Permutation lastRead_key cache). }
  rewrite <- (take_drop n s) in Has. apply elem_of_app in Has as [Has|Has]; [exact Has|].
  exfalso.
  set (P := fun e : string * FileContext => lastRead_key e = lastRead_key a).
  assert (Hpa : P a) by reflexivity.
  assert (Hpb : P b) by (unfold P, lastRead_key; by rewrite Hkey).
  assert (H1 : before a b (filter P cache)) by by apply before_filter.
  assert (H2 : before b a (filter P cache)).
  { unfold P. rewrite <- (sort_by_stable lastRead_key (lastRead_key a) cache).
    fold s. rewrite <- (take_drop n s), filter_app.
    apply before_app; apply list_elem_of_filter; done. }
  eapply (before_antisym a b); [|exact H1|exact H2].
  by apply NoDup_filter.
Qed.

Lemma eviction_ties_by_insertion_order_witness :
  let entry (p : string) :=
    (p, {| fc_path := p; fc_content := Some "text"; previousVersions := Some [];
           lastRead := 7; lastModified := 7 |}) in
  entry "a.ts" ∈ evicted [entry "a.ts"; entry "b.ts"; entry "c.ts"] 1.
Proof.
  intros entry.
  apply (eviction_ties_by_insertion_order
           [entry "a.ts"; entry "b.ts"; entry "c.ts"] 1 (entry "a.ts") (entry "b.ts")).
  - apply (bool_decide_unpack _). vm_compute. exact I.
  - exists [], [], [entry "c.ts"]. reflexivity.
  - reflexivity.
  - vm_compute. apply list_elem_of_further, list_elem_of_here.
Defined.

(** X11. A read of a file that is in the cache (of at most 15 entries)
    replaces its content, keeps its undo stack, stamps both [lastRead]
    and [lastModified], and leaves every other entry and the order of
    the map as they were. *)
Theorem read_file_keeps_undo_stack
    (cache : list (string * FileContext)) (filePath s : string) (now : Z)
    (existing : FileContext) :
  (length cache <= 15)%nat ->
  Map_get filePath cache = Some existing ->
  let after := track_read_file cache filePath (VString s) now in
  Map_get filePath after
  = Some {| fc_path := filePath; fc_content := Some s;
            previousVersions := Some (versions_or_empty (previousVersions existing));
            lastRead := now; lastModified := now |}
  /\ (forall other, other <> filePath -> Map_get other after = Map_get other cache)
  /\ Map_keys after = Map_keys cache.
Proof.
  intros Hlen Hget after. subst after. cbn [track_read_file].
  rewrite Hget. cbn [mbind option_bind].
  rewrite evictOldCacheEntries_small.
  2:{ rewrite Map_set_length. unfold Map_has. by rewrite Hget. }
  split; [apply Map_get_set_eq|]. split.
  - intros other Hne. by apply Map_get_set_ne.
  - rewrite Map_set_keys. unfold Map_has. by rewrite Hget.
Qed.

Lemma read_file_keeps_undo_stack_witness :
  Map_get "a.ts" (track_read_file [("a.ts", edited_file)] "a.ts" (VString "three") 9)
  = Some {| fc_path := "a.ts"; fc_content := Some "three";
            previousVersions := Some ["zero"; "one"];
            lastRead := 9; lastModified := 9 |}.
Proof.
  apply (read_file_keeps_undo_stack [("a.ts", edited_file)] "a.ts" "three" 9 edited_file).
  - cbn. lia.
  - reflexivity.
Defined.

Lemma Forall_Map_set {V} (P : string * V -> Prop) (k : string) (v : V)
    (m : list (string * V)) :
  Forall P m -> P (k, v) -> Forall P (Map_set k v m).
Proof.
  intros Hm Hv. induction Hm as [|[k' v'] m Hx Hm IH]; cbn [Map_set].
  - by constructor.
  - destruct (String.eqb k' k); constructor; auto.
Qed.

Lemma Forall_evict (P : string * FileContext -> Prop)
    (cache : list (string * FileContext)) (maxSize : nat) :
  Forall P cache -> Forall P (evictOldCacheEntries cache maxSize).
Proof.
  rewrite evictOldCacheEntries_filter, !Forall_forall.
  intros H e He. apply list_elem_of_filter in He as [_ He]. by apply H.
Qed.

Lemma stacks_bounded_get (cache : list (string * FileContext)) (k : string)
    (e : FileContext) :
  stacks_bounded cache -> Map_get k cache = Some e ->
  (length (versions_or_empty (previousVersions e)) <= 10)%nat.
Proof.
  intros Hb Hget. apply Map_get_Some_elem in Hget.
  unfold stacks_bounded in Hb. rewrite Forall_forall in Hb. by apply Hb in Hget.
Qed.

Section Bounded.
Variable summarizeToolResult : tool_use -> tool_value -> string.
Variable run : tool_use -> outcome tool_value.

Lemma track_stacks_bounded (now : Z) (tr : tracking) (toolUse : tool_use) :
  stacks_bounded (t_openFiles tr) ->
  stacks_bounded (t_openFiles (track summarizeToolResult run now tr toolUse)).
Proof.
  intros Hb. unfold track.
  destruct (run toolUse) as [result|msg]; [|exact Hb].
  destruct (tu_call toolUse) as [p|p c|d|pt sp|cmd cwd t|cmd cwd t|n];
    cbn [t_openFiles]; try exact Hb.
  - destruct result as [s| |]; cbn [track_read_file]; try exact Hb.
    apply Forall_evict, Forall_Map_set; [exact Hb|]. cbn.
    destruct (Map_get p (t_openFiles tr)) as [e|] eqn:Hget; cbn.
    + by eapply stacks_bounded_get.
    + lia.
  - unfold track_write_file, write_update. apply Forall_evict.
    destruct (Map_get p (t_openFiles tr)) as [e|] eqn:Hget.
    + apply Forall_Map_set; [exact Hb|]. cbn.
      pose proof (stacks_bounded_get _ _ _ Hb Hget) as He.
      destruct (truthy (fc_content e)); [|exact He].
      cbn. by apply push_version_spec.
    + apply Forall_Map_set; [exact Hb|]. cbn. lia.
Qed.

Lemma foldl_track_stacks_bounded (now : Z) (uses : list tool_use) (tr : tracking) :
  stacks_bounded (t_openFiles tr) ->
  stacks_bounded (t_openFiles (foldl (track summarizeToolResult run now) tr uses)).
Proof.
  revert tr. induction uses as [|u uses IH]; intros tr Hb; [exact Hb|].
  cbn [foldl]. by apply IH, track_stacks_bounded.
Qed.

Lemma js_slice_last_length {A} (l : list A) (n : Z) :
  1 <= n -> (length (js_slice l (- n) None) <= Z.to_nat n)%nat.
Proof. intros Hn. pose proof (js_slice_length_le l n Hn). lia. Qed.

(** X12. What [executeTools] writes back stays bounded: the undo stack
    of every cache entry holds at most 10 versions if it did before the
    pass, and the lists of recent changes, reads and commands hold at most
    20, 20 and 10 entries, however many tools ran. *)
Theorem executeTools_state_bounded (now : Z) (state : AgentState) :
  stacks_bounded (openFiles state) ->
  let u := executeTools summarizeToolResult run now state in
  (forall files, u_openFiles u = Some files -> stacks_bounded files)
  /\ (forall l, u_recentChanges u = Some l -> (length l <= 20)%nat)
  /\ (forall l, u_recentReads u = Some l -> (length l <= 20)%nat)
  /\ (forall l, u_recentCommands u = Some l -> (length l <= 10)%nat).
Proof.
  intros Hb u. subst u. unfold executeTools.
  destruct (toolUses state) as [[|t uses]|]; cbn; try (split_and!; discriminate).
  split_and!; intros x [= <-].
  - apply (foldl_track_stacks_bounded now uses).
    by apply track_stacks_bounded.
  - apply (js_slice_last_length _ 20). lia.
  - apply (js_slice_last_length _ 20). lia.
  - apply (js_slice_last_length _ 10). lia.
Qed.
End Bounded.

Lemma executeTools_state_bounded_witness :
  let state :=
    {| messages := []; toolUses := Some [ToolUseCall "t1" (WriteFile "a.ts" "three")];
       textBlocks := None; toolResults := None;
       openFiles := [("a.ts", edited_file)]; recentChanges := []; recentReads := [];
       recentCommands := []; workingSet := []; historicalSummaries := [];
       iterationCount := None |} in
  let u := executeTools sample_summary sample_run 9 state in
  (forall files, u_openFiles u = Some files -> stacks_bounded files)
  /\ (forall l, u_recentChanges u = Some l -> (length l <= 20)%nat)
  /\ (forall l, u_recentReads u = Some l -> (length l <= 20)%nat)
  /\ (forall l, u_recentCommands u = Some l -> (length l <= 10)%nat).
Proof.
  intros state.
  apply (executeTools_state_bounded sample_summary sample_run 9 state).
  repeat constructor.
Defined.

(** ** Undo *)

Section UndoMore.
Variable World : Type.
Variable writeFileTool : string -> string -> World -> World * option string.


(** X13. Undo is last in, first out over the map it is handed: with the
    versions [.. a, b] on the stack of the target and writes that succeed,
    a first undo writes [b] and leaves [.. a] on the stack, and a second
    undo on the map the first one left writes [a]. The list of recent
    changes is not touched, so an undo without a path targets the same
    file again. *)
Theorem undoLastChange_twice_is_lifo
    (files : list (string * FileContext)) (changes : list path_stamp)
    (filePath : option string) (target : string) (fc : FileContext)
    (versions : list string) (a b : string) (w w1 w2 : World) :
  undo_target filePath changes = Some target ->
  Map_get target files = Some fc ->
  previousVersions fc = Some (versions ++ [a; b]) ->
  writeFileTool target b w = (w1, None) ->
  writeFileTool target a w1 = (w2, None) ->
  exists files1 files2,
    undoLastChange World writeFileTool (checkpoint_of files changes) filePath w
    = Returned (UndoEffect
                  (UndoResult true ("Reverted " +:+ target +:+ " to previous version")
                     (Some target))
                  (Some files1) w1)
    /\ Map_get target files1
       = Some {| fc_path := fc_path fc; fc_content := Some b;
                 previousVersions := Some (versions ++ [a]);
                 lastRead := lastRead fc; lastModified := lastModified fc |}
    /\ undoLastChange World writeFileTool (checkpoint_of files1 changes) filePath w1
       = Returned (UndoEffect
                     (UndoResult true ("Reverted " +:+ target +:+ " to previous version")
                        (Some target))
                     (Some files2) w2)
    /\ Map_get target files2
       = Some {| fc_path := fc_path fc; fc_content := Some a;
                 previousVersions := Some versions;
                 lastRead := lastRead fc; lastModified := lastModified fc |}
    /\ Map_keys files2 = Map_keys files.
Proof.
  intros Ht Hget Hv Hw1 Hw2.
  set (fc1 := {| fc_path := fc_path fc; fc_content := Some b;
                 previousVersions := Some (versions ++ [a]);
                 lastRead := lastRead fc; lastModified := lastModified fc |}).
  set (fc2 := {| fc_path := fc_path fc; fc_content := Some a;
                 previousVersions := Some versions;
                 lastRead := lastRead fc; lastModified := lastModified fc |}).
  exists (Map_set target fc1 files), (Map_set target fc2 (Map_set target fc1 files)).
  assert (Hhas : Map_has target files = true) by (unfold Map_has; by rewrite Hget).
  assert (Hhas1 : Map_has target (Map_set target fc1 files) = true)
    by (unfold Map_has; by rewrite Map_get_set_eq).
  split_and!.
  - unfold undoLastChange, checkpoint_of.
    rewrite (undo_body_success World writeFileTool _ filePath w files target fc
               (versions ++ [a]) b w1); try done.
    by rewrite <- app_assoc.
  - apply Map_get_set_eq.
  - unfold undoLastChange, checkpoint_of.
    rewrite (undo_body_success World writeFileTool _ filePath w1
               (Map_set target fc1 files) target fc1 versions a w2); try done.
    apply Map_get_set_eq.
  - apply Map_get_set_eq.
  - rewrite !Map_set_keys, Hhas1, Hhas. reflexivity.
Qed.

End UndoMore.

Lemma undoLastChange_twice_is_lifo_witness :
  exists files1 files2,
    undoLastChange disk disk_write (checkpoint_of [("a.ts", edited_file)] [])
      (Some "a.ts") []
    = Returned (UndoEffect
                  (UndoResult true "Reverted a.ts to previous version" (Some "a.ts"))
                  (Some files1) [("a.ts", "one")])
    /\ Map_get "a.ts" files1
       = Some {| fc_path := "a.ts"; fc_content := Some "one";
                 previousVersions := Some ["zero"]; lastRead := 5; lastModified := 5 |}
    /\ undoLastChange disk disk_write (checkpoint_of files1 []) (Some "a.ts")
         [("a.ts", "one")]
       = Returned (UndoEffect
                     (UndoResult true "Reverted a.ts to previous version" (Some "a.ts"))
                     (Some files2) [("a.ts", "zero"); ("a.ts", "one")])
    /\ Map_get "a.ts" files2
       = Some {| fc_path := "a.ts"; fc_content := Some "zero";
                 previousVersions := Some []; lastRead := 5; lastModified := 5 |}
    /\ Map_keys files2 = ["a.ts"].
Proof.
  apply (undoLastChange_twice_is_lifo disk disk_write [("a.ts", edited_file)] []
           (Some "a.ts") "a.ts" edited_file [] "zero" "one"
           [] [("a.ts", "one")] [("a.ts", "zero"); ("a.ts", "one")]);
    reflexivity.
Defined.


(** ** One round of tools *)

Section Round.
Variable summarizeToolResult : tool_use -> tool_value -> string.
Variable run : tool_use -> outcome tool_value.

Lemma track_toolResults (now : Z) (tr : tracking) (toolUse : tool_use) :
  t_toolResults (track summarizeToolResult run now tr toolUse)
  = t_toolResults tr ++
    [match run toolUse with
     | Threw msg => ToolResult (tu_id toolUse) ("Error: " +:+ msg) (Some true)
     | Returned v => ToolResult (tu_id toolUse) (summarizeToolResult toolUse v) None
     end].
Proof.
  unfold track. destruct (run toolUse) as [v|msg]; [|reflexivity].
  by destruct (tu_call toolUse).
Qed.

Lemma foldl_track_toolResults (now : Z) (uses : list tool_use) (tr : tracking) :
  t_toolResults (foldl (track summarizeToolResult run now) tr uses)
  = t_toolResults tr ++
    ((fun toolUse =>
        match run toolUse with
        | Threw msg => ToolResult (tu_id toolUse) ("Error: " +:+ msg) (Some true)
        | Returned v => ToolResult (tu_id toolUse) (summarizeToolResult toolUse v) None
        end) <$> uses).
Proof.
  revert tr. induction uses as [|u uses IH]; intros tr; cbn [foldl fmap list_fmap].
  - by rewrite app_nil_r.
  - rewrite IH, track_toolResults, <- app_assoc. reflexivity.
Qed.

Lemma tool_round_messages (now : Z) (state : AgentState)
    (uses : list tool_use) :
  toolUses state = Some uses ->
  uses <> [] ->
  messages (tool_round summarizeToolResult run now state)
  = messages state ++
    [Message user
       (CBlocks
          ((fun toolUse =>
              match run toolUse with
              | Threw msg => ToolResult (tu_id toolUse) ("Error: " +:+ msg) (Some true)
              | Returned v =>
                  ToolResult (tu_id toolUse) (summarizeToolResult toolUse v) None
              end) <$> uses))].
Proof.
  intros Huses Hne. unfold tool_round, executeTools. rewrite Huses.
  destruct uses as [|u uses]; [done|].
  unfold formatResults. cbn [apply_update toolResults u_toolResults messages
    u_messages default from_option id].
  rewrite foldl_track_toolResults. reflexivity.
Qed.


Lemma result_block_ids (f : tool_use -> string) (g : tool_use -> option bool)
    (uses : list tool_use) :
  omap (fun b => match b with ToolResult i _ _ => Some i | _ => None end)
    ((fun toolUse => ToolResult (tu_id toolUse) (f toolUse) (g toolUse)) <$> uses)
  = tu_id <$> uses.
Proof.
  induction uses as [|u uses IH]; [reflexivity|].
  cbn [fmap list_fmap omap list_omap]. by rewrite <- IH.
Qed.

(** X15. A round of tools appends exactly one user message to the
    history, and that message holds one [tool_result] block per tool call,
    in the order of the calls and under their ids: the text of the summary
    for a call that returned, ["Error: " + message] with [is_error] for a
    call that threw. A call that throws does not stop the calls after
    it. *)
Theorem tool_round_appends_results (now : Z) (state : AgentState)
    (uses : list tool_use) :
  toolUses state = Some uses ->
  uses <> [] ->
  messages (tool_round summarizeToolResult run now state)
  = messages state ++
    [Message user
       (CBlocks
          ((fun toolUse =>
              match run toolUse with
              | Threw msg => ToolResult (tu_id toolUse) ("Error: " +:+ msg) (Some true)
              | Returned v =>
                  ToolResult (tu_id toolUse) (summarizeToolResult toolUse v) None
              end) <$> uses))]
  /\ tool_result_ids (last (messages (tool_round summarizeToolResult run now state)))
     = tu_id <$> uses
  /\ tool_use_ids (last (messages (tool_round summarizeToolResult run now state))) = [].
Proof.
  intros Huses Hne.
  rewrite (tool_round_messages now state uses Huses Hne), last_snoc.
  split; [reflexivity|].
  cbn [tool_result_ids tool_use_ids]. split.
  - rewrite <- (result_block_ids
                  (fun toolUse =>
                     match run toolUse with
                     | Threw msg => "Error: " +:+ msg
                     | Returned v => summarizeToolResult toolUse v
                     end)
                  (fun toolUse =>
                     match run toolUse with
                     | Threw _ => Some true
                     | Returned _ => None
                     end) uses).
    f_equal. apply list_fmap_ext. intros _ toolUse _. by destruct (run toolUse).
  - clear Huses Hne. induction uses as [|u uses IH]; [reflexivity|].
    cbn [fmap list_fmap omap list_omap]. by destruct (run u).
Qed.

Lemma tool_round_counter (now : Z) (state : AgentState) (uses : list tool_use) :
  toolUses state = Some uses ->
  uses <> [] ->
  iterationCount (tool_round summarizeToolResult run now state)
  = Some (count_or_zero (iterationCount state) + 1).
Proof.
  intros Huses Hne. unfold tool_round, executeTools. rewrite Huses.
  destruct uses as [|u uses]; [done|]. reflexivity.
Qed.

(** X16. Nothing inside the loop resets the iteration counter: after a
    round of tools the last message is the message of tool results, so
    [resetCounter] is false, the next [callLLM] returns no
    [iterationCount], and the counter stands one above its value before
    the round. *)
Theorem tool_round_never_resets_counter (now : Z) (state : AgentState)
    (uses : list tool_use)
    (provider : list message -> outcome llm_reply) (later : Z) (u : AgentUpdate) :
  toolUses state = Some uses ->
  uses <> [] ->
  callLLM provider later (tool_round summarizeToolResult run now state) = Returned u ->
  resetCounter (tool_round summarizeToolResult run now state) = false
  /\ u_iterationCount u = None
  /\ iterationCount (apply_update (tool_round summarizeToolResult run now state) u)
     = Some (count_or_zero (iterationCount state) + 1).
Proof.
  intros Huses Hne Hcall.
  assert (Hreset : resetCounter (tool_round summarizeToolResult run now state) = false).
  { unfold resetCounter.
    rewrite (tool_round_messages now state uses Huses Hne), last_snoc.
    destruct uses as [|t uses]; [done|]. cbn [fmap list_fmap].
    destruct (run t); apply andb_false_r. }
  split; [exact Hreset|].
  unfold callLLM in Hcall. rewrite Hreset in Hcall.
  destruct (provider _) as [reply|msg]; [|discriminate Hcall].
  injection Hcall as <-. split; [reflexivity|].
  cbn [apply_update u_iterationCount iterationCount].
  by apply (tool_round_counter now state uses).
Qed.
End Round.

Lemma tool_round_appends_results_witness :
  messages (tool_round sample_summary sample_run 2000 at_limit_state)
  = [plain "task"; call_message "t1";
     Message user (CBlocks [ToolResult "t1" "read_file" None])].
Proof.
  destruct (tool_round_appends_results sample_summary sample_run 2000 at_limit_state
              [ToolUseCall "t1" (ReadFile "a.ts")]) as [H _].
  - reflexivity.
  - discriminate.
  - exact H.
Defined.

Lemma tool_round_never_resets_counter_witness :
  let state2 := tool_round sample_summary sample_run 2000 at_limit_state in
  let reply := {| lr_content := [Text "done"]; lr_toolUses := []; lr_textBlocks := ["done"] |} in
  resetCounter state2 = false
  /\ u_iterationCount
       (default no_update
          (match callLLM (fun _ => Returned reply) 2001 state2 with
           | Returned u => Some u
           | Threw _ => None
           end)) = None.
Proof.
  intros state2 reply.
  destruct (callLLM (fun _ => Returned reply) 2001 state2) as [u|msg] eqn:Hcall.
  - destruct (tool_round_never_resets_counter sample_summary sample_run 2000
                at_limit_state [ToolUseCall "t1" (ReadFile "a.ts")]
                (fun _ => Returned reply) 2001 u) as (H1 & H2 & _).
    + reflexivity.
    + discriminate.
    + exact Hcall.
    + split; [exact H1|exact H2].
  - discriminate Hcall.
Defined.

(** ** The decision after the model's reply *)

(** X17. The route that [shouldContinue] returns does not depend on the
    text blocks of the reply (the search for completion phrases changes
    nothing): it is ["end"] exactly when there are no tool calls, or the
    counter has reached 25 and the user declines. Below 25 the user is
    not asked, nothing is written and the state is left as it is. *)
Theorem shouldContinue_route (state : AgentState) (blocks : option (list string))
    (answer answer' : outcome bool) :
  d_route (shouldContinue (set_textBlocks state blocks) answer)
  = d_route (shouldContinue state answer)
  /\ (d_route (shouldContinue state answer) = Returned "end" <->
      (toolUses state = None \/ toolUses state = Some [])
      \/ (25 <= count_or_zero (iterationCount state) /\ answer = Returned false))
  /\ (count_or_zero (iterationCount state) < 25 ->
      shouldContinue state answer = shouldContinue state answer'
      /\ d_state (shouldContinue state answer) = state
      /\ d_output (shouldContinue state answer) = []).
Proof.
  unfold shouldContinue. cbn [toolUses iterationCount set_textBlocks].
  destruct (toolUses state) as [[|t uses]|].
  - split; [reflexivity|]. split; [|done]. split; [|done]. intros _. left. by right.
  - destruct (Z.leb_spec 25 (count_or_zero (iterationCount state))) as [Hge|Hlt].
    + split; [by destruct answer as [[|]|]|]. split; [|intros; exfalso; lia].
      destruct answer as [[|]|msg]; cbn [d_route].
      * split; [discriminate|]. intros [[|]|[_ ?]]; discriminate.
      * split; [|done]. intros _. right. done.
      * split; [discriminate|]. intros [[|]|[_ ?]]; discriminate.
    + split; [|split].
      * by repeat match goal with |- context [if ?c then _ else _] => destruct c end.
      * match goal with |- context [if ?c then _ else _] => destruct c end;
          (split; [discriminate|]); intros [[|]|[? _]]; try discriminate; lia.
      * intros _.
        match goal with |- context [if ?c then _ else _] => destruct c end; done.
  - split; [reflexivity|]. split; [|done]. split; [|done]. intros _. left. by left.
Qed.

Lemma shouldContinue_route_witness :
  shouldContinue (set_iterationCount at_limit_state 3) (Returned false)
  = shouldContinue (set_iterationCount at_limit_state 3) (Returned true)
  /\ d_output (shouldContinue (set_iterationCount at_limit_state 3) (Returned false)) = [].
Proof.
  destruct (shouldContinue_route (set_iterationCount at_limit_state 3) None
              (Returned false) (Returned true)) as (_ & _ & H).
  destruct H as (H1 & _ & H3); [vm_compute; reflexivity|].
  split; [exact H1|exact H3].
Defined.


(** ** [callLLM] *)

Lemma omap_length_le {A B} (f : A -> option B) (l : list A) :
  (length (omap f l) <= length l)%nat.
Proof.
  induction l as [|x l IH]; [done|]. cbn [omap list_omap].
  destruct (f x); cbn [length]; lia.
Qed.

(** The positions returned are positions of the history. *)
Lemma prunedMessages_in_range (messages : list message) (maxMessages maxTokens : Z) :
  Forall (fun p => (p < length messages)%nat)
    (prunedMessages (pruneMessages messages maxMessages maxTokens)).
Proof.
  destruct (decide (messages = [])) as [->|Hne]; [constructor|].
  destruct (decide (maxTokens < estimateTokensFromMessage (messages !! 0%nat)))
    as [Hbig|Hfit].
  { rewrite pruneMessages_early by done. cbn [prunedMessages].
    repeat constructor. destruct messages; [done|cbn; lia]. }
  destruct (pruned_sorted messages maxMessages maxTokens Hne) as [_ Hb].
  rewrite Forall_forall in Hb |- *. intros p Hp. apply Hb.
  eapply elem_of_sublist; [|apply trimmed_sub].
  eapply elem_of_sublist; [exact Hp|]. apply pruneMessages_sub_trimmed; [done|lia].
Qed.

(** The messages returned are the messages of the history at the
    positions returned, each as it was or stripped of its tool results. *)
Lemma returned_messages_of_history
    (messages : list message) (maxMessages maxTokens : Z) :
  let r := pruneMessages messages maxMessages maxTokens in
  Forall2 (fun p m => exists m0, messages !! p = Some m0
                                 /\ (m = m0 \/ m = strip_tool_results m0))
    (prunedMessages r) (returned_messages r).
Proof.
  intros r. subst r. unfold returned_messages, returned.
  pose proof (prunedMessages_in_range messages maxMessages maxTokens) as Hrange.
  induction Hrange as [|p l Hp Hl IH]; [constructor|].
  cbn [map omap list_omap].
  destruct (lookup_lt_is_Some_2 messages p Hp) as [m0 Hm0].
  destruct (pruneMessages_store_lookup messages maxMessages maxTokens p) as [_ [E|E]];
    rewrite E, Hm0; cbn [fmap option_fmap option_map id];
    (constructor; [exists m0; auto|exact IH]).
Qed.

(** X18. What [callLLM] returns. The provider is called with the history
    pruned to 50 messages, behind the context message if there is one;
    when it answers, the new history is the old one pruned to 49 messages
    (messages of the old history, in their order, each as it was or
    stripped of its tool results) followed by the assistant message of
    that answer, at most 50 messages in all; the tool uses and the texts
    are those of the answer; and the historical summaries hold at most 50
    entries if they did before. *)
Theorem callLLM_bounds (provider : list message -> outcome llm_reply) (now : Z)
    (state : AgentState) (u : AgentUpdate) :
  callLLM provider now state = Returned u ->
  let r50 := pruneMessages (messages state) 50 MAX_PROMPT_TOKEN_BUDGET in
  let r49 := pruneMessages (store r50) 49 MAX_PROMPT_TOKEN_BUDGET in
  let contextSummary := getContextSummary now state in
  let sent :=
    if String.eqb contextSummary "" then returned_messages r50
    else Message user (CString contextSummary) :: returned_messages r50 in
  exists reply,
    provider sent = Returned reply
    /\ u_messages u
       = Some (returned_messages r49 ++ [Message assistant (CBlocks (lr_content reply))])
    /\ u_toolUses u = Some (lr_toolUses reply)
    /\ u_textBlocks u = Some (lr_textBlocks reply)
    /\ (length (returned_messages r49) <= 49)%nat
    /\ StronglySorted (fun a b => (a < b)%nat) (prunedMessages r49)
    /\ Forall2 (fun p m => exists m0, messages state !! p = Some m0
                                     /\ (m = m0 \/ m = strip_tool_results m0))
         (prunedMessages r49) (returned_messages r49)
    /\ (forall summaries,
          u_historicalSummaries u = Some summaries ->
          (length (historicalSummaries state) <= 50)%nat ->
          (length summaries <= 50)%nat).
Proof.
  intros Hcall r50 r49 contextSummary sent. subst r50 r49 contextSummary sent.
  unfold callLLM in Hcall. destruct (provider _) as [reply|msg]; [|discriminate].
  injection Hcall as <-.
  cbn [u_messages u_toolUses u_textBlocks u_historicalSummaries].
  exists reply. split; [reflexivity|]. split; [reflexivity|].
  split; [reflexivity|]. split; [reflexivity|]. split; [|split; [|split]].
  - unfold returned_messages, returned.
    etrans; [apply omap_length_le|]. rewrite length_map.
    pose proof (pruneMessages_length (store (pruneMessages (messages state) 50
                  MAX_PROMPT_TOKEN_BUDGET)) 49 MAX_PROMPT_TOKEN_BUDGET ltac:(lia)).
    lia.
  - set (h := store (pruneMessages (messages state) 50 MAX_PROMPT_TOKEN_BUDGET)).
    destruct (decide (h = [])) as [->|Hne]; [constructor|].
    destruct (decide (MAX_PROMPT_TOKEN_BUDGET < estimateTokensFromMessage (h !! 0%nat)))
      as [Hbig|Hfit].
    + rewrite pruneMessages_early by done. repeat constructor.
    + apply prunedMessages_sorted; [done|lia].
  - eapply Forall2_impl; [apply returned_messages_of_history|].
    intros p m (m1 & Hm1 & Hm).
    destruct (pruneMessages_store_lookup (messages state) 50 MAX_PROMPT_TOKEN_BUDGET p)
      as [_ [E|E]]; rewrite E in Hm1.
    + exists m1. auto.
    + destruct (messages state !! p) as [m0|]; [|discriminate].
      injection Hm1 as <-. exists m0. split; [reflexivity|].
      right. destruct Hm as [->| ->]; [reflexivity|apply strip_tool_results_idem].
  - intros summaries [= <-] Hold.
    destruct (length (archivedSummaries _) =? 0)%nat; [exact Hold|].
    apply (js_slice_last_length _ 50). lia.
Qed.

Lemma callLLM_bounds_witness :
  let reply :=
    {| lr_content := [Text "done"]; lr_toolUses := []; lr_textBlocks := ["done"] |} in
  exists u,
    callLLM (fun _ => Returned reply) 2001 at_limit_state = Returned u
    /\ u_messages u
       = Some [plain "task"; call_message "t1"; Message assistant (CBlocks [Text "done"])]
    /\ u_toolUses u = Some []
    /\ u_textBlocks u = Some ["done"].
Proof.
  intros reply.
  destruct (callLLM (fun _ => Returned reply) 2001 at_limit_state) as [u|msg] eqn:Hcall;
    [|discriminate Hcall].
  destruct (callLLM_bounds (fun _ => Returned reply) 2001 at_limit_state u Hcall)
    as (reply' & Hreply & Hmessages & Huses & Htexts & _).
  injection Hreply as <-.
  exists u. split; [reflexivity|]. split; [|split; [exact Huses|exact Htexts]].
  rewrite Hmessages. vm_compute. reflexivity.
Defined.

(** ** The context summary *)

Lemma js_slice_last_nil {A} (l : list A) (k : Z) :
  k < 0 -> (length (js_slice l k None) =? 0)%nat = (length l =? 0)%nat.
Proof.
  intros Hk. rewrite js_slice_suffix, length_drop. unfold js_rel_index.
  destruct (Z.ltb_spec k 0) as [_|Hge]; [|exfalso; lia].
  destruct l as [|x l]; [reflexivity|]. cbn [length].
  destruct (Nat.eqb_spec (S (length l) - Z.to_nat (Z.max (Z.of_nat (S (length l)) + k) 0)) 0)
    as [E|E]; [exfalso; lia|reflexivity].
Qed.

Lemma trim_nonempty (c : ascii) (s : string) :
  is_space c = false -> trim (String c s) <> "".
Proof.
  intros Hc. unfold trim. cbn [trim_start]. rewrite Hc. cbn [trim_end].
  rewrite Hc. by destruct (trim_end s).
Qed.

(** X19. The context summary is empty exactly when there are no open
    files, no recent changes, no recent commands and no historical
    summaries: the working set and the recent reads never bring a context
    message about on their own. *)
Theorem getContextSummary_empty_iff (now : Z) (state : AgentState) :
  getContextSummary now state = "" <->
  openFiles state = [] /\ recentChanges state = [] /\ recentCommands state = []
  /\ historicalSummaries state = [].
Proof.
  unfold getContextSummary. cbv zeta.
  rewrite !js_slice_last_nil by lia. unfold Map_keys. rewrite length_fmap.
  split.
  - destruct (openFiles state) as [|e1 l1], (recentChanges state) as [|e2 l2],
      (recentCommands state) as [|e3 l3], (historicalSummaries state) as [|e4 l4];
      cbn [length Nat.eqb andb negb]; intros H; try done; exfalso; revert H;
      repeat match goal with
        | |- context [if ?c then _ else _] => destruct c
        end; apply trim_nonempty; reflexivity.
  - intros (-> & -> & -> & ->). reflexivity.
Qed.

(** ** The run of the graph *)

Section Run.
Variable summarizeToolResult : tool_use -> tool_value -> string.
Variable env : nat -> environment.

(** X20. When the model asks for tools at every turn and the user
    answers "continue" whenever asked, a run never reaches the end node:
    from whatever node other than the end node and whatever state it
    starts, and whatever the limit is, it is stopped by the recursion
    limit. So is [runAgentGraph] under its limit of 200. *)
Theorem runaway_run_hits_recursion_limit
    (checkpoint : AgentState) (userQuery : string)
    (fuel : nat) (n : node) (state : AgentState) :
  (forall k history, exists reply,
      env_provider (env k) history = Returned reply /\ lr_toolUses reply <> []) ->
  (forall k, env_answer (env k) = Returned true) ->
  n <> end_node ->
  (exists final, invoke summarizeToolResult env fuel n state = RecursionLimit final)
  /\ (exists final,
        runAgentGraph summarizeToolResult env checkpoint userQuery = RecursionLimit final).
Proof.
  intros Hp Ha Hn.
  assert (Hrun : forall fuel' n' state',
    n' <> end_node ->
    exists final, invoke summarizeToolResult env fuel' n' state' = RecursionLimit final).
  { clear fuel n state Hn.
    induction fuel' as [|fuel IH]; intros n state Hn; [by eexists|].
    cbn [invoke]. destruct n; [| | |done].
    - unfold callLLM.
      destruct (Hp fuel
                  (if String.eqb (getContextSummary (env_now (env fuel)) state) ""
                   then returned_messages
                          (pruneMessages (messages state) 50 MAX_PROMPT_TOKEN_BUDGET)
                   else Message user
                          (CString (getContextSummary (env_now (env fuel)) state))
                        :: returned_messages
                             (pruneMessages (messages state) 50 MAX_PROMPT_TOKEN_BUDGET)))
        as (reply & -> & Hne).
      unfold next_after_callLLM, shouldContinue.
      cbn [apply_update toolUses u_toolUses iterationCount u_iterationCount].
      destruct (lr_toolUses reply) as [|t uses]; [done|].
      rewrite Ha.
      repeat match goal with
        | |- context [if ?c then _ else _] => destruct c
        end; cbn [d_route outcome_map String.eqb]; by apply IH.
    - by apply IH.
    - by apply IH. }
  split; [by apply Hrun|]. unfold runAgentGraph. by apply Hrun.
Qed.
End Run.

Lemma runaway_run_hits_recursion_limit_witness :
  let reply :=
    {| lr_content := [ToolUse "t1" "read_file" JNull];
       lr_toolUses := [ToolUseCall "t1" (ReadFile "a.ts")];
       lr_textBlocks := [] |} in
  let env (k : nat) :=
    {| env_now := 2000; env_provider := fun _ => Returned reply;
       env_answer := Returned true; env_run := sample_run |} in
  exists final,
    runAgentGraph sample_summary env empty_state "fix the build" = RecursionLimit final.
Proof.
  intros reply env.
  destruct (runaway_run_hits_recursion_limit sample_summary env empty_state
              "fix the build" 0 callLLM_node empty_state) as [_ H].
  - intros k history. exists reply. split; [reflexivity|discriminate].
  - reflexivity.
  - discriminate.
  - exact H.
Defined.

(** ** The registry of pending commands, over sequences of calls *)

Lemma waitForCommandCompletion_ok (reg : registry) (i : string) (a : CommandApproval) :
  registry_ok reg -> registry_ok (waitForCommandCompletion reg i a).2.
Proof.
  intros (H1 & H2 & H3 & H4). unfold waitForCommandCompletion.
  destruct (String.eqb i ""); [done|].
  destruct (pendingCommands reg !! i) as [e|] eqn:Hi; [done|].
  cbn [snd]. unfold registry_ok. cbn [pendingCommands promises settled].
  assert (Hfresh : promises reg ∉ (settled reg).*1).
  { intros Hin. rewrite Forall_forall in H4. apply H4 in Hin. lia. }
  split_and!.
  - intros j e Hj. destruct (decide (i = j)) as [<-|Hne].
    + rewrite lookup_insert_eq in Hj. injection Hj as <-. cbn [promise].
      split; [lia|exact Hfresh].
    + rewrite lookup_insert_ne in Hj by done.
      destruct (H1 j e Hj). split; [lia|done].
  - intros j k e1 e2 Hj Hk Heq.
    destruct (decide (i = j)) as [<-|Hnj], (decide (i = k)) as [<-|Hnk]; [done| | |].
    + rewrite lookup_insert_eq in Hj. injection Hj as <-.
      rewrite lookup_insert_ne in Hk by done. cbn [promise] in Heq.
      destruct (H1 k e2 Hk). lia.
    + rewrite lookup_insert_eq in Hk. injection Hk as <-.
      rewrite lookup_insert_ne in Hj by done. cbn [promise] in Heq.
      destruct (H1 j e1 Hj). lia.
    + rewrite lookup_insert_ne in Hj, Hk by done. by eapply H2.
  - exact H3.
  - eapply Forall_impl; [exact H4|]. cbn. lia.
Qed.

Lemma settle_ok (reg : registry) (i : string) (pending : PendingCommandEntry)
    (s : settlement) :
  registry_ok reg ->
  pendingCommands reg !! i = Some pending ->
  registry_ok (Registry (delete i (pendingCommands reg)) (promises reg)
                 (settled reg ++ [(promise pending, s)])).
Proof.
  intros (H1 & H2 & H3 & H4) Hi. unfold registry_ok.
  cbn [pendingCommands promises settled]. rewrite fmap_app. cbn [fmap list_fmap fst].
  destruct (H1 i pending Hi) as [Hlt Hnew].
  split_and!.
  - intros j e Hj. apply lookup_delete_Some in Hj as [Hne Hj].
    destruct (H1 j e Hj) as [Hl Hn]. split; [exact Hl|].
    rewrite not_elem_of_app. split; [exact Hn|].
    rewrite list_elem_of_singleton. intros Heq. apply Hne. by eapply H2.
  - intros j k e1 e2 Hj Hk.
    apply lookup_delete_Some in Hj as [_ Hj]. apply lookup_delete_Some in Hk as [_ Hk].
    by eapply H2.
  - apply NoDup_app. split; [exact H3|]. split; [|apply NoDup_singleton].
    intros p Hp Hp'. apply list_elem_of_singleton in Hp'. by subst.
  - apply Forall_app. split; [exact H4|]. by constructor.
Qed.

Lemma registry_step_ok (reg : registry) (c : registry_call) :
  registry_ok reg -> registry_ok (registry_step reg c).
Proof.
  intros Hok. destruct c as [i a|i r|i e]; cbn [registry_step].
  - by apply waitForCommandCompletion_ok.
  - unfold resolvePendingCommand.
    destruct (pendingCommands reg !! i) as [pending|] eqn:Hi; [|done].
    by apply settle_ok.
  - unfold rejectPendingCommand.
    destruct (pendingCommands reg !! i) as [pending|] eqn:Hi; [|done].
    by apply settle_ok.
Qed.

Lemma registry_run_ok (calls : list registry_call) (reg : registry) :
  registry_ok reg -> registry_ok (registry_run reg calls).
Proof.
  revert reg. induction calls as [|c calls IH]; intros reg Hok; [exact Hok|].
  cbn [registry_run foldl]. by apply IH, registry_step_ok.
Qed.

Lemma empty_registry_ok : registry_ok empty_registry.
Proof.
  unfold registry_ok, empty_registry. cbn. split_and!.
  - intros i e Hi. by rewrite lookup_empty in Hi.
  - intros i j e1 e2 Hi. by rewrite lookup_empty in Hi.
  - constructor.
  - constructor.
Qed.

(** X21. Whatever calls are made to the registry, in whatever order, no
    promise is settled twice, a promise that is still pending has not
    been settled, and two pending ids never share a promise. *)
Theorem registry_settles_each_promise_once (calls : list registry_call) :
  let reg := registry_run empty_registry calls in
  NoDup (settled reg).*1
  /\ (forall i e, pendingCommands reg !! i = Some e -> promise e ∉ (settled reg).*1)
  /\ (forall i j e1 e2,
        pendingCommands reg !! i = Some e1 -> pendingCommands reg !! j = Some e2 ->
        promise e1 = promise e2 -> i = j).
Proof.
  intros reg.
  destruct (registry_run_ok calls empty_registry empty_registry_ok)
    as (H1 & H2 & H3 & _).
  split; [exact H3|]. split; [|exact H2].
  intros i e Hi. by destruct (H1 i e Hi).
Qed.

Lemma registry_settles_each_promise_once_witness :
  NoDup (settled
           (registry_run empty_registry
              [Wait "t1" sample_approval; Resolve "t1" sample_result;
               Reject "t1" "late"; Wait "t1" sample_approval;
               Reject "t1" "dismissed"])).*1.
Proof.
  destruct (registry_settles_each_promise_once
              [Wait "t1" sample_approval; Resolve "t1" sample_result;
               Reject "t1" "late"; Wait "t1" sample_approval;
               Reject "t1" "dismissed"]) as [H _].
  exact H.
Defined.


(** X22. Registration and lookup: a registration under a fresh id hands
    back a new promise, the approval can be read back under the id until
    the entry is resolved or rejected, and neither call touches the entry
    of another id. *)
Theorem getPendingCommand_round_trip (reg : registry) (i other : string)
    (a : CommandApproval) (result : CommandResult) (error : string) :
  i <> "" ->
  pendingCommands reg !! i = None ->
  other <> i ->
  let registered := waitForCommandCompletion reg i a in
  registered.1 = Returned (promises reg)
  /\ getPendingCommand registered.2 i = Some a
  /\ getPendingCommand registered.2 other = getPendingCommand reg other
  /\ settled registered.2 = settled reg
  /\ getPendingCommand (resolvePendingCommand registered.2 i result).2 i = None
  /\ getPendingCommand (rejectPendingCommand registered.2 i error).2 i = None
  /\ getPendingCommand (resolvePendingCommand registered.2 i result).2 other
     = getPendingCommand reg other
  /\ getPendingCommand (rejectPendingCommand registered.2 i error).2 other
     = getPendingCommand reg other
  /\ settled (resolvePendingCommand registered.2 i result).2
     = settled reg ++ [(promises reg, Resolved result)].
Proof.
  intros Hi Hfresh Hother registered. subst registered.
  unfold waitForCommandCompletion.
  destruct (String.eqb_spec i "") as [E|_]; [done|]. rewrite Hfresh.
  cbn [fst snd]. unfold getPendingCommand, resolvePendingCommand, rejectPendingCommand.
  cbn [pendingCommands settled promises].
  rewrite !lookup_insert_eq. cbn [snd pendingCommands settled promise].
  rewrite !lookup_delete_eq, !lookup_delete_ne, !lookup_insert_ne by done.
  done.
Qed.

Lemma getPendingCommand_round_trip_witness :
  let registered := waitForCommandCompletion empty_registry "t1" sample_approval in
  registered.1 = Returned 0%nat
  /\ getPendingCommand registered.2 "t1" = Some sample_approval
  /\ getPendingCommand registered.2 "t2" = None.
Proof.
  intros registered.
  destruct (getPendingCommand_round_trip empty_registry "t1" "t2" sample_approval
              sample_result "late") as (H1 & H2 & H3 & _).
  - discriminate.
  - reflexivity.
  - discriminate.
  - split; [exact H1|]. split; [exact H2|exact H3].
Defined.

(** ** The command tools *)

Lemma startsWith_app (p s : string) : startsWith p (p +:+ s) = true.
Proof.
  induction p as [|c p IH]; [reflexivity|].
  rewrite append_cons. cbn [startsWith]. by rewrite Ascii.eqb_refl, IH.
Qed.

Lemma includes_prefix (p s : string) : includes p (p +:+ s) = true.
Proof.
  destruct (p +:+ s) eqn:E; cbn [includes]; rewrite <- E, startsWith_app; reflexivity.
Qed.

Lemma append_assoc (a b c : string) : (a +:+ b) +:+ c = a +:+ b +:+ c.
Proof.
  induction a as [|x a IH]; [reflexivity|].
  rewrite !append_cons. by rewrite IH.
Qed.

(** X23. [execute_command] runs nothing by itself: whatever the command,
    the directory and the timeout, the tool returns exit code 0 and the
    approval marker, so [executeTools] always hands the call to
    [waitForCommandCompletion] under the id of the tool call, with the
    command, the directory and the timeout of the call. *)
Theorem execute_command_always_awaits_approval
    (reg : registry) (toolUseId command : string) (cwd : option string)
    (timeout : option Z) :
  cr_exitCode (executeCommandTool command cwd timeout) = 0
  /\ cr_stderr (executeCommandTool command cwd timeout) = ""
  /\ request_command reg toolUseId command cwd timeout
     = (outcome_map Awaiting
          (waitForCommandCompletion reg toolUseId
             {| ca_command := command; ca_cwd := cwd; ca_timeout := timeout |}).1,
        (waitForCommandCompletion reg toolUseId
           {| ca_command := command; ca_cwd := cwd; ca_timeout := timeout |}).2)
  /\ (toolUseId <> "" -> pendingCommands reg !! toolUseId = None ->
      (request_command reg toolUseId command cwd timeout).1
      = Returned (Awaiting (promises reg))
      /\ getPendingCommand (request_command reg toolUseId command cwd timeout).2 toolUseId
         = Some {| ca_command := command; ca_cwd := cwd; ca_timeout := timeout |}).
Proof.
  assert (Hreq : request_command reg toolUseId command cwd timeout
     = (outcome_map Awaiting
          (waitForCommandCompletion reg toolUseId
             {| ca_command := command; ca_cwd := cwd; ca_timeout := timeout |}).1,
        (waitForCommandCompletion reg toolUseId
           {| ca_command := command; ca_cwd := cwd; ca_timeout := timeout |}).2)).
  { unfold request_command, executeCommandTool. cbn [cr_stdout].
    change ("COMMAND_APPROVAL_NEEDED:" +:+ marker_tail command cwd timeout)
      with ("COMMAND_APPROVAL_NEEDED" +:+ String ":" (marker_tail command cwd timeout)).
    rewrite includes_prefix. by destruct (waitForCommandCompletion _ _ _). }
  split; [reflexivity|]. split; [reflexivity|]. split; [exact Hreq|].
  intros Hid Hfresh. rewrite Hreq. cbn [fst snd].
  unfold waitForCommandCompletion.
  destruct (String.eqb_spec toolUseId "") as [E|_]; [done|]. rewrite Hfresh.
  cbn [fst snd outcome_map]. split; [reflexivity|].
  unfold getPendingCommand. cbn [pendingCommands]. by rewrite lookup_insert_eq.
Qed.

Lemma execute_command_always_awaits_approval_witness :
  (request_command empty_registry "t1" "npm test" None None).1
  = Returned (Awaiting 0)
  /\ getPendingCommand (request_command empty_registry "t1" "npm test" None None).2 "t1"
     = Some sample_approval.
Proof.
  destruct (execute_command_always_awaits_approval empty_registry "t1" "npm test"
              None None) as (_ & _ & _ & H).
  apply H; [discriminate|reflexivity].
Defined.


Lemma append_nil_r (s : string) : s +:+ "" = s.
Proof. induction s as [|c s IH]; [reflexivity|]. by rewrite append_cons, IH. Qed.

(** X24. The marker does not determine the request: a command whose text
    ends in [:CWD:dir], sent without a directory, gives the same marker as
    the command without that ending sent with the directory [dir], and
    likewise for [:TIMEOUT:n] at the end of the command or of the
    directory. A timeout of 0 and an empty directory leave no trace in the
    marker. *)
Theorem approval_marker_is_ambiguous
    (command dir : string) (cwd : option string) (timeout : option Z) (n : Z) :
  dir <> "" ->
  n <> 0 ->
  executeCommandTool (command +:+ ":CWD:" +:+ dir) None timeout
  = executeCommandTool command (Some dir) timeout
  /\ executeCommandTool (command +:+ ":TIMEOUT:" +:+ pretty n) None None
     = executeCommandTool command None (Some n)
  /\ executeCommandTool command (Some (dir +:+ ":TIMEOUT:" +:+ pretty n)) None
     = executeCommandTool command (Some dir) (Some n)
  /\ executeCommandTool command cwd (Some 0) = executeCommandTool command cwd None
  /\ executeCommandTool command (Some "") timeout = executeCommandTool command None timeout.
Proof.
  intros Hdir Hn. unfold executeCommandTool, marker_tail.
  assert (Ht : truthy (Some dir) = true).
  { cbn. destruct (String.eqb_spec dir ""); done. }
  assert (Ht' : truthy (Some (dir +:+ ":TIMEOUT:" +:+ pretty n)) = true).
  { cbn. destruct dir; [done|reflexivity]. }
  assert (Hz : truthy_number (Some n) = true).
  { cbn. destruct (Z.eqb_spec n 0); done. }
  rewrite Ht, Ht', Hz.
  change (truthy None) with false. change (truthy_number None) with false.
  change (truthy_number (Some 0)) with false. change (truthy (Some "")) with false.
  cbv iota. change (default "" (Some dir)) with dir.
  change (default "" (Some (dir +:+ ":TIMEOUT:" +:+ pretty n)))
    with (dir +:+ ":TIMEOUT:" +:+ pretty n).
  change (default 0 (Some n)) with n.
  split_and!; try reflexivity.
  - by rewrite !append_assoc.
  - by rewrite !append_assoc, !append_nil_r.
  - by rewrite !append_assoc, !append_nil_r.
Qed.

Lemma approval_marker_is_ambiguous_witness :
  executeCommandTool "rm -rf build:CWD:/tmp" None None
  = executeCommandTool "rm -rf build" (Some "/tmp") None
  /\ executeCommandTool "rm -rf build:TIMEOUT:5" None None
     = executeCommandTool "rm -rf build" None (Some 5).
Proof.
  destruct (approval_marker_is_ambiguous "rm -rf build" "/tmp" None None 5)
    as (H1 & H2 & _).
  - discriminate.
  - discriminate.
  - split; [exact H1|exact H2].
Defined.

(** ** The continue gate *)

Lemma gate_step_ok (g : continue_gate) (c : gate_call) :
  gate_ok g -> gate_ok (gate_step g c).
Proof.
  intros (H1 & H2 & H3 & H4).
  assert (Hsettle : forall p (o : outcome bool),
    pendingContinueResolve g = Some p ->
    gate_ok (ContinueGate None None (gate_promises g) (gate_settled g ++ [(p, o)]))).
  { intros p o Hp. destruct (H2 p Hp) as [Hlt Hnew]. unfold gate_ok.
    cbn [pendingContinueResolve pendingContinueReject gate_promises gate_settled].
    rewrite fmap_app. cbn [fmap list_fmap fst].
    split_and!; [done|done| |].
    - apply NoDup_app. split; [exact H3|]. split; [|apply NoDup_singleton].
      intros q Hq Hq'. apply list_elem_of_singleton in Hq'. by subst.
    - apply Forall_app. split; [exact H4|]. by constructor. }
  destruct c as [|b|e]; cbn [gate_step].
  - unfold waitForContinue, gate_ok.
    cbn [snd pendingContinueResolve pendingContinueReject gate_promises gate_settled].
    split_and!; [done| |exact H3|].
    + intros p [= <-]. split; [lia|]. intros Hin.
      rewrite Forall_forall in H4. apply H4 in Hin. lia.
    + eapply Forall_impl; [exact H4|]. cbn beta. lia.
  - unfold resolvePendingContinue.
    destruct (pendingContinueResolve g) as [p|] eqn:Hp; [by apply Hsettle|].
    unfold gate_ok. rewrite Hp. by split_and!.
  - unfold rejectPendingContinue. rewrite <- H1.
    destruct (pendingContinueResolve g) as [p|] eqn:Hp; [by apply Hsettle|].
    unfold gate_ok. rewrite Hp. by split_and!.
Qed.

Lemma gate_run_ok (calls : list gate_call) (g : continue_gate) :
  gate_ok g -> gate_ok (gate_run g calls).
Proof.
  revert g. induction calls as [|c calls IH]; intros g Hok; [exact Hok|].
  cbn [gate_run foldl]. by apply IH, gate_step_ok.
Qed.

Lemma empty_gate_ok : gate_ok empty_gate.
Proof. unfold gate_ok, empty_gate. cbn. split_and!; [done|done|constructor|constructor]. Qed.

(** A promise that is neither pending nor settled stays so. *)
Lemma gate_step_orphan (p1 : nat) (g : continue_gate) (c : gate_call) :
  (p1 < gate_promises g)%nat /\ pendingContinueResolve g <> Some p1
  /\ pendingContinueReject g <> Some p1 /\ (p1 ∉ (gate_settled g).*1) ->
  (p1 < gate_promises (gate_step g c))%nat
  /\ pendingContinueResolve (gate_step g c) <> Some p1
  /\ pendingContinueReject (gate_step g c) <> Some p1
  /\ (p1 ∉ (gate_settled (gate_step g c)).*1).
Proof.
  intros (Hlt & Hr & Hj & Hs).
  assert (Hsettle : forall p (o : outcome bool),
    p <> p1 -> p1 ∉ (gate_settled g ++ [(p, o)]).*1).
  { intros p o Hne. rewrite fmap_app. cbn [fmap list_fmap fst].
    rewrite not_elem_of_app, list_elem_of_singleton. split; [done|]. congruence. }
  destruct c as [|b|e]; cbn [gate_step].
  - unfold waitForContinue.
    cbn [snd pendingContinueResolve pendingContinueReject gate_promises gate_settled].
    split_and!; [lia| | |done]; intros [= E]; lia.
  - unfold resolvePendingContinue.
    destruct (pendingContinueResolve g) as [p|] eqn:Hp;
      [|split_and!; [done|congruence|done|done]].
    cbn [pendingContinueResolve pendingContinueReject gate_promises gate_settled].
    split_and!; [done|done|done|]. apply Hsettle. congruence.
  - unfold rejectPendingContinue.
    destruct (pendingContinueReject g) as [p|] eqn:Hp;
      [|split_and!; [done|done|congruence|done]].
    cbn [pendingContinueResolve pendingContinueReject gate_promises gate_settled].
    split_and!; [done|done|done|]. apply Hsettle. congruence.
Qed.

(** X25. The continue gate has one slot. Whatever calls are made, no
    promise of the gate is settled twice; and when [waitForContinue] is
    called again while a promise is outstanding, the slot is overwritten:
    the first promise is never settled, whatever calls follow. *)
Theorem continue_gate_single_slot (before_calls after_calls : list gate_call) :
  let g := gate_run empty_gate before_calls in
  let first := waitForContinue g in
  let second := waitForContinue first.2 in
  NoDup (gate_settled (gate_run second.2 after_calls)).*1
  /\ first.1 <> second.1
  /\ (first.1 ∉ (gate_settled (gate_run second.2 after_calls)).*1).
Proof.
  intros g first second.
  pose proof (gate_run_ok before_calls empty_gate empty_gate_ok) as Hg. fold g in Hg.
  assert (H1 : gate_ok first.2) by apply (gate_step_ok g GateWait Hg).
  assert (H2 : gate_ok second.2) by apply (gate_step_ok first.2 GateWait H1).
  split; [by apply gate_run_ok|]. split; [cbn; lia|].
  assert (Hinv : forall calls h,
    (first.1 < gate_promises h)%nat /\ pendingContinueResolve h <> Some first.1
    /\ pendingContinueReject h <> Some first.1 /\ (first.1 ∉ (gate_settled h).*1) ->
    first.1 ∉ (gate_settled (gate_run h calls)).*1).
  { induction calls as [|c calls IH]; intros h Hh; [by destruct Hh as (_ & _ & _ & ?)|].
    cbn [gate_run foldl]. apply IH. by apply gate_step_orphan. }
  apply Hinv. destruct Hg as (_ & _ & _ & Hlt). cbn.
  split_and!; [lia| | |]; try (intros [= E]; lia).
  intros Hin. rewrite Forall_forall in Hlt. apply Hlt in Hin. lia.
Qed.

(** ** Messages for the other provider *)

Section Convert.
Variable stringify : json -> string.

Lemma convertMessagesToOpenAI_flat_map (history : list message) :
  convertMessagesToOpenAI stringify history = flat_map (convert_message stringify) history.
Proof.
  unfold convertMessagesToOpenAI.
  assert (H : forall acc,
    foldl (fun converted msg => converted ++ convert_message stringify msg) acc history
    = acc ++ flat_map (convert_message stringify) history).
  { induction history as [|m l IH]; intros acc; cbn [foldl flat_map].
    - by rewrite app_nil_r.
    - by rewrite IH, app_assoc. }
  apply (H []).
Qed.

Lemma hasToolResults_filter (r : role) (bs : list block) :
  hasToolResults (Some (Message r (CBlocks bs)))
  = negb (length (filter (fun b => is_tool_result b = true) bs) =? 0)%nat.
Proof.
  cbn [hasToolResults]. induction bs as [|b bs IH]; [reflexivity|].
  cbn [existsb]. destruct (is_tool_result b) eqn:Hb.
  - by rewrite filter_cons_True.
  - rewrite filter_cons_False by (rewrite Hb; discriminate). exact IH.
Qed.

Lemma tool_messages_of_results (bs : list block) :
  tool_message_ids
    (omap (fun b =>
             match b with
             | ToolResult i c e =>
                 Some (OATool i (match e with
                                 | Some true => "Error: " +:+ c
                                 | _ => c
                                 end))
             | _ => None
             end) (filter (fun b => is_tool_result b = true) bs))
  = omap (fun b => match b with ToolResult i _ _ => Some i | _ => None end) bs.
Proof.
  unfold tool_message_ids. induction bs as [|b bs IH]; [reflexivity|].
  destruct b as [t|i n inp|i c e].
  - rewrite filter_cons_False by (cbn; discriminate). exact IH.
  - rewrite filter_cons_False by (cbn; discriminate). exact IH.
  - rewrite filter_cons_True by done. cbn [omap list_omap]. by rewrite IH.
Qed.

Lemma no_results_no_ids (bs : list block) :
  filter (fun b => is_tool_result b = true) bs = [] ->
  omap (fun b => match b with ToolResult i _ _ => Some i | _ => None end) bs = [].
Proof.
  induction bs as [|b bs IH]; [done|]. destruct b as [t|i n inp|i c e].
  - rewrite filter_cons_False by (cbn; discriminate). exact IH.
  - rewrite filter_cons_False by (cbn; discriminate). exact IH.
  - by rewrite filter_cons_True.
Qed.

Lemma tool_calls_of_uses (bs : list block) :
  tc_id <$>
    omap (fun b =>
            match b with
            | ToolUse i n input =>
                Some {| tc_id := i; tc_name := n; tc_arguments := stringify input |}
            | _ => None
            end) (filter (fun b => is_tool_use b = true) bs)
  = omap (fun b => match b with ToolUse i _ _ => Some i | _ => None end) bs.
Proof.
  induction bs as [|b bs IH]; [reflexivity|].
  destruct b as [t|i n inp|i c e].
  - rewrite filter_cons_False by (cbn; discriminate). exact IH.
  - rewrite filter_cons_True by done. cbn [omap list_omap fmap list_fmap tc_id].
    by rewrite <- IH.
  - rewrite filter_cons_False by (cbn; discriminate). exact IH.
Qed.

Lemma no_uses_no_ids (bs : list block) :
  filter (fun b => is_tool_use b = true) bs = [] ->
  omap (fun b => match b with ToolUse i _ _ => Some i | _ => None end) bs = [].
Proof.
  induction bs as [|b bs IH]; [done|]. destruct b as [t|i n inp|i c e].
  - rewrite filter_cons_False by (cbn; discriminate). exact IH.
  - by rewrite filter_cons_True.
  - rewrite filter_cons_False by (cbn; discriminate). exact IH.
Qed.

Lemma convert_message_ids (m : message) :
  tool_message_ids (convert_message stringify m) = tool_result_ids (Some m)
  /\ tool_call_ids (convert_message stringify m)
     = (if hasToolResults (Some m) then [] else tool_use_ids (Some m))
  /\ (hasToolResults (Some m) = true ->
      Forall (fun o => exists i c, o = OATool i c) (convert_message stringify m)).
Proof.
  destruct m as [r [s|bs]]; [split_and!; [done|done|discriminate]|].
  rewrite hasToolResults_filter. unfold convert_message.
  cbn [msg_content msg_role tool_result_ids tool_use_ids].
  destruct (filter (fun b => is_tool_result b = true) bs) as [|x l] eqn:Hr;
    cbn [length Nat.eqb negb].
  - split_and!; [| |discriminate].
    + rewrite (no_results_no_ids bs Hr).
      by destruct (negb (length (filter (fun b => is_tool_use b = true) bs) =? 0)%nat).
    + destruct (filter (fun b => is_tool_use b = true) bs) as [|y l'] eqn:Hu;
        cbn [length Nat.eqb negb].
      * by rewrite (no_uses_no_ids bs Hu).
      * cbn [tool_call_ids flat_map]. rewrite app_nil_r, <- Hu.
        apply tool_calls_of_uses.
  - rewrite <- Hr. split_and!.
    + apply tool_messages_of_results.
    + clear Hr. induction (filter (fun b => is_tool_result b = true) bs) as [|b k IH];
        [reflexivity|].
      destruct b; cbn [omap list_omap]; exact IH.
    + intros _. clear Hr.
      induction (filter (fun b => is_tool_result b = true) bs) as [|b k IH];
        [constructor|].
      destruct b; cbn [omap list_omap]; try exact IH.
      constructor; [by eexists _, _|exact IH].
Qed.

Lemma tool_message_ids_app (l1 l2 : list openai_message) :
  tool_message_ids (l1 ++ l2) = tool_message_ids l1 ++ tool_message_ids l2.
Proof. apply omap_app. Qed.

Lemma tool_call_ids_app (l1 l2 : list openai_message) :
  tool_call_ids (l1 ++ l2) = tool_call_ids l1 ++ tool_call_ids l2.
Proof. apply flat_map_app. Qed.

(** X26. In the conversion to the other provider's format every
    [tool_result] block of the history becomes a [tool] message of its own
    under its id, in order. A message that holds tool results yields
    those [tool] messages only: its text and its tool calls are dropped.
    The tool calls of every other message are kept, in order. *)
Theorem convertMessagesToOpenAI_keeps_tool_ids (history : list message) :
  tool_message_ids (convertMessagesToOpenAI stringify history)
  = flat_map (fun m => tool_result_ids (Some m)) history
  /\ tool_call_ids (convertMessagesToOpenAI stringify history)
     = flat_map (fun m => if hasToolResults (Some m) then [] else tool_use_ids (Some m))
         history
  /\ (forall m, hasToolResults (Some m) = true ->
        Forall (fun o => exists i c, o = OATool i c)
          (convertMessagesToOpenAI stringify [m])).
Proof.
  rewrite convertMessagesToOpenAI_flat_map. split_and!.
  - induction history as [|m l IH]; [reflexivity|]. cbn [flat_map].
    rewrite tool_message_ids_app, IH.
    by rewrite (proj1 (convert_message_ids m)).
  - induction history as [|m l IH]; [reflexivity|]. cbn [flat_map].
    rewrite tool_call_ids_app, IH.
    by rewrite (proj1 (proj2 (convert_message_ids m))).
  - intros m Hm. rewrite convertMessagesToOpenAI_flat_map. cbn [flat_map].
    rewrite app_nil_r. by apply convert_message_ids.
Qed.
End Convert.

Lemma convertMessagesToOpenAI_keeps_tool_ids_witness :
  Forall (fun o => exists i c, o = OATool i c)
    (convertMessagesToOpenAI (fun _ => "{}")
       [Message user (CBlocks [Text "note"; ToolResult "t1" "ok" None])]).
Proof.
  destruct (convertMessagesToOpenAI_keeps_tool_ids (fun _ => "{}") []) as (_ & _ & H).
  apply H. reflexivity.
Defined.


(** ** Truncation by characters, and the text of a read *)

Lemma str_take_length (n : nat) (s : string) :
  (n <= String.length s)%nat -> String.length (str_take n s) = n.
Proof.
  revert s. induction n as [|n IH]; intros s Hn; [reflexivity|].
  destruct s as [|c s]; cbn [String.length] in Hn; [lia|].
  cbn [str_take String.length]. rewrite IH by lia. reflexivity.
Qed.

Lemma str_take_app (s t : string) :
  str_take (String.length s) (s +:+ t) = s.
Proof.
  induction s as [|c s IH]; [reflexivity|].
  rewrite append_cons. cbn [String.length str_take]. by rewrite IH.
Qed.

Lemma string_length_app (s t : string) :
  String.length (s +:+ t) = (String.length s + String.length t)%nat.
Proof.
  induction s as [|c s IH]; [reflexivity|].
  rewrite append_cons. cbn [String.length]. by rewrite IH.
Qed.

(** X27. [truncateString] returns a text of at most [charLimit]
    characters as it is. A longer text keeps its first [charLimit]
    characters and gets the marker appended, so the result is longer
    than [charLimit]. *)
Theorem truncateString_keeps_prefix (input : string) (charLimit : Z) :
  (str_len input <= charLimit -> truncateString input charLimit = input)
  /\ (0 <= charLimit < str_len input ->
        str_take (Z.to_nat charLimit) (truncateString input charLimit)
        = str_take (Z.to_nat charLimit) input
        /\ charLimit < str_len (truncateString input charLimit)).
Proof.
  unfold truncateString. split.
  - intros Hle. destruct (Z.leb_spec (str_len input) charLimit); [done|lia].
  - intros [H0 Hlt]. destruct (Z.leb_spec (str_len input) charLimit); [lia|].
    unfold str_len in *.
    assert (Hlen : String.length (str_take (Z.to_nat charLimit) input)
                   = Z.to_nat charLimit) by (apply str_take_length; lia).
    split.
    + rewrite <- Hlen at 1. apply str_take_app.
    + rewrite !string_length_app, Hlen. cbn [String.length]. lia.
Qed.

Lemma truncateString_keeps_prefix_witness :
  str_take 3 (truncateString "abcdef" 3) = "abc"
  /\ 3 < str_len (truncateString "abcdef" 3).
Proof.
  apply (proj2 (truncateString_keeps_prefix "abcdef" 3)). vm_compute.
  split; [discriminate|reflexivity].
Defined.

(** X28. The header of a read counts the line of the truncation marker
    as a line of the file. For a file of more than 120 lines whose first
    120 lines, with the marker, have at most 4000 characters (so that the
    cut by characters leaves them as they are), the text shown is these
    120 lines and the marker (121 lines); the header says "showing first
    121 of N lines" when the file has more than 121 lines, and for a file
    of exactly 121 lines it says nothing of the cut. *)
Theorem summarizeReadFileResult_counts_marker (content filePath : string) :
  (120 < length (split_lines content))%nat ->
  str_len (truncateLines content 120) <= MAX_TOOL_RESULT_CHARS ->
  summarizeReadFileResult content filePath
  = (if bool_decide (121 < length (split_lines content))%nat
     then "Contents of " +:+ filePath +:+ " (showing first 121 of "
          +:+ pretty (length (split_lines content)) +:+ " lines):
"
     else "Contents of " +:+ filePath +:+ ":
") +:+ truncateLines content 120
  /\ length (split_lines (truncateLines content 120)) = 121%nat.
Proof.
  intros Hlong Hfits.
  assert (Hchars : truncateString (truncateLines content 120) MAX_TOOL_RESULT_CHARS
                   = truncateLines content 120).
  { unfold truncateString.
    destruct (Z.leb_spec (str_len (truncateLines content 120)) MAX_TOOL_RESULT_CHARS);
      [reflexivity|lia]. }
  assert (Hcount : length (split_lines (truncateLines content 120)) = 121%nat).
  { rewrite (truncateLines_split content 120) by lia.
    rewrite length_app, length_take. cbn [length]. lia. }
  split; [|exact Hcount].
  unfold summarizeReadFileResult, MAX_TOOL_RESULT_LINES. cbv zeta.
  rewrite Hchars, Hcount.
  change (pretty 121%nat) with "121".
  case_bool_decide; rewrite !append_assoc; reflexivity.
Qed.

Lemma summarizeReadFileResult_counts_marker_witness :
  let content := join "
" (replicate 121 "x") in
  summarizeReadFileResult content "a.ts"
  = "Contents of a.ts:
" +:+ truncateLines content 120
  /\ length (split_lines (truncateLines content 120)) = 121%nat.
Proof.
  intros content.
  destruct (summarizeReadFileResult_counts_marker content "a.ts") as (H1 & H3).
  - vm_compute. lia.
  - vm_compute. discriminate.
  - split; [|exact H3]. rewrite H1.
    assert (bool_decide (121 < length (split_lines content))%nat = false) as ->
      by (vm_compute; reflexivity).
    reflexivity.
Defined.

(** ** Runs *)

(** X29. A run starts from the query alone: the messages that the
    checkpoint holds for the thread are replaced by the one message of the
    query, so the run is the same whatever history was stored. *)
Theorem runAgentGraph_forgets_history
    (summarizeToolResult : tool_use -> tool_value -> string)
    (env : nat -> environment) (checkpoint : AgentState)
    (history : list message) (userQuery : string) :
  runAgentGraph summarizeToolResult env (set_messages checkpoint history) userQuery
  = runAgentGraph summarizeToolResult env checkpoint userQuery.
Proof.
  unfold runAgentGraph.
  apply (f_equal (invoke summarizeToolResult env recursionLimit callLLM_node)).
  reflexivity.
Qed.
